(** * scm-slang: the scanner, the grouper and the semantic parser

    A shallow embedding of the Scheme front end of scm-slang.  Two
    generations of the code live side by side in the repository:

    - the scanner generation ([Module Scanner]): the [Tokenizer] of
      [src/parser/index.ts], its [TokenType] enumeration (with [SYMBOL],
      [HASH], [TRIPLE_DOT]), the [Token] class and the [Group] class of
      [src/parser/ast-generator/grouping.ts];
    - the parser generation ([Module Parser]): the [SchemeParser] class with
      the [TokenType] enumeration of
      [src/transpiler/types/tokens/token-type.ts].

    Stateful code is written in a state-and-exception monad; JavaScript
    [throw] is the [Throw] outcome, and the recursion of the parser is
    bounded by an explicit fuel.

    The code comes first; what is proved about it follows: the scanner
    and [Group.build] in [ScannerFacts], the parse methods in
    [ParserFacts], the properties carried through every parse method
    (fuel, chapter ceiling, spans) in [ParserLaws], the entry points in
    [EntryFacts], the identifier encoding in [EncodingFacts], the
    tokenizer in [TokenizerFacts], the groups in [GroupFacts], the
    special forms in [FormsFacts], termination in [TerminationFacts] and
    the spans, of nodes and of scanned tokens, in [SpanFacts]. *)

From Stdlib Require Import ZArith List String Ascii Bool Arith Lia.
From Stdlib Require DecimalN DecimalPos.
Import ListNotations.

(** ** A state-and-exception monad *)

Section StateError.
Variables St Err : Type.

Inductive Result (A : Type) : Type :=
| Ok (a : A) (s : St)
| Throw (e : Err) (s : St)
| OutOfFuel.

Arguments Ok {A} a s.
Arguments Throw {A} e s.
Arguments OutOfFuel {A}.

Definition M (A : Type) : Type := St -> Result A.

Definition ret {A} (a : A) : M A := fun s => Ok a s.

Definition bind {A B} (m : M A) (k : A -> M B) : M B :=
  fun s =>
    match m s with
    | Ok a s' => k a s'
    | Throw e s' => Throw e s'
    | OutOfFuel => OutOfFuel
    end.

Definition throw {A} (e : Err) : M A := fun s => Throw e s.
Definition outOfFuel {A} : M A := fun _ => OutOfFuel.
Definition gets {A} (f : St -> A) : M A := fun s => Ok (f s) s.
Definition modify (f : St -> St) : M unit := fun s => Ok tt (f s).

(** [Array.prototype.map] and [for ... of] with an effectful body:
    the elements are visited from left to right. *)
Fixpoint mapM {A B} (f : A -> M B) (l : list A) : M (list B) :=
  match l with
  | [] => ret []
  | x :: xs =>
      bind (f x) (fun y => bind (mapM f xs) (fun ys => ret (y :: ys)))
  end.

Fixpoint forEachM {A} (f : A -> M unit) (l : list A) : M unit :=
  match l with
  | [] => ret tt
  | x :: xs => bind (f x) (fun _ => forEachM f xs)
  end.
End StateError.

Arguments Ok {St Err A} a s.
Arguments Throw {St Err A} e s.
Arguments OutOfFuel {St Err A}.
Arguments ret {St Err A} a _.
Arguments bind {St Err A B} m k _.
Arguments throw {St Err A} e _.
Arguments outOfFuel {St Err A} _.
Arguments gets {St Err A} f _.
Arguments modify {St Err} f _.
Arguments mapM {St Err A B} f l _.
Arguments forEachM {St Err A} f l _.

Declare Scope monad_scope.
Delimit Scope monad_scope with monad.
Notation "x <- c1 ;; c2" := (bind c1 (fun x => c2))
  (at level 61, c1 at next level, right associativity) : monad_scope.
Notation "c1 ;;; c2" := (bind c1 (fun _ => c2))
  (at level 61, right associativity) : monad_scope.
Open Scope monad_scope.

(** ** Positions, locations and tokens *)

(** [Position] and [Location] of [types/location]: a line and a column; a
    start and an end. *)
Record Position : Type := mkPosition { line : Z; column : Z }.

Record Location : Type := mkLocation { loc_start : Position; loc_end : Position }.

(** The [literal] field of a token ([any] in the source).  The float that
    [parseFloat] decodes is kept as the text it is decoded from. *)
Inductive Literal : Type :=
| LNull
| LNumber (text : string)
| LBoolean (b : bool)
| LString (s : string).

(** The [Token] class, over the token-type enumeration [K] in use. *)
Record Token (K : Type) : Type := mkToken {
  type : K;
  lexeme : string;
  literal : Literal;
  tok_start : nat;
  tok_end : nat;
  pos : Position;
  endPos : Position
}.

Arguments mkToken {K} _ _ _ _ _ _ _.
Arguments type {K} _.
Arguments lexeme {K} _.
Arguments literal {K} _.
Arguments tok_start {K} _.
Arguments tok_end {K} _.
Arguments pos {K} _.
Arguments endPos {K} _.

(** The constructor of [Token]: [endPos] stays on the line of [pos]. *)
Definition newToken {K} (ty : K) (lex : string) (lit : Literal)
    (start_ end_ : nat) (ln col : Z) : Token K :=
  {| type := ty; lexeme := lex; literal := lit;
     tok_start := start_; tok_end := end_;
     pos := mkPosition ln col;
     endPos := mkPosition ln (col + Z.of_nat (String.length lex) - 1) |}.

(** ** JavaScript string primitives *)

(** [s.charAt(i)]: a one-character string, or the empty string out of range. *)
Definition charAt (s : string) (i : nat) : string := substring i 1 s.

(** [s.substring(a, b)]: the arguments are swapped when [a > b]; a negative
    argument counts as [0], which truncated subtraction on [nat] gives. *)
Definition jsSubstring (s : string) (a b : nat) : string :=
  substring (Nat.min a b) (Nat.max a b - Nat.min a b) s.

Definition NUL : string := String (ascii_of_nat 0) EmptyString.
Definition LF : string := String (ascii_of_nat 10) EmptyString.
Definition CR : string := String (ascii_of_nat 13) EmptyString.
Definition TAB : string := String (ascii_of_nat 9) EmptyString.
Definition DQUOTE : string := String (ascii_of_nat 34) EmptyString.

(** ** Datums and groups *)

(** A [Datum] is a token or a group; the [Group] class holds its elements
    and the location its private constructor computes from them. *)
Inductive Datum (K : Type) : Type :=
| DToken (t : Token K)
| DGroup (g : Group K)
with Group (K : Type) : Type :=
| mkGroup (elements : list (Datum K)) (location : Location).

Arguments DToken {K} t.
Arguments DGroup {K} g.
Arguments mkGroup {K} elements location.

Definition elements {K} (g : Group K) : list (Datum K) :=
  match g with mkGroup els _ => els end.

Definition location {K} (g : Group K) : Location :=
  match g with mkGroup _ loc => loc end.

Definition isToken {K} (d : Datum K) : bool :=
  match d with DToken _ => true | DGroup _ => false end.

Definition isGroup {K} (d : Datum K) : bool := negb (isToken d).

(** [firstToken()]: the first element when it is a token, else the first
    token of that element.  [None] stands for the [TypeError] that reading
    [elements[0]] of an empty group raises. *)
Fixpoint firstToken {K} (g : Group K) : option (Token K) :=
  match g with
  | mkGroup els _ =>
      match els with
      | [] => None
      | DToken t :: _ => Some t
      | DGroup g' :: _ => firstToken g'
      end
  end.

(** [lastToken()], on the last element. *)
Fixpoint lastToken {K} (g : Group K) : option (Token K) :=
  match g with
  | mkGroup els _ =>
      (fix go (l : list (Datum K)) : option (Token K) :=
         match l with
         | [] => None
         | [DToken t] => Some t
         | [DGroup g'] => lastToken g'
         | _ :: l' => go l'
         end) els
  end.

Definition firstTokenOf {K} (d : Datum K) : option (Token K) :=
  match d with DToken t => Some t | DGroup g => firstToken g end.

Definition lastTokenOf {K} (d : Datum K) : option (Token K) :=
  match d with DToken t => Some t | DGroup g => lastToken g end.

(** The private constructor [new Group(elements)]:
    [location = new Location(firstPos(), lastPos())], both the [pos] of a
    token. *)
Definition newGroup {K} (els : list (Datum K)) : option (Group K) :=
  match hd_error els, last (map Some els) None with
  | Some f, Some l =>
      match firstTokenOf f, lastTokenOf l with
      | Some ft, Some lt => Some (mkGroup els (mkLocation (pos ft) (pos lt)))
      | _, _ => None
      end
  | _, _ => None
  end.

(** ** The scanner generation *)

Module Scanner.

(** The enumeration the tokenizer and [grouping.ts] are written against. *)
Inductive TokenType : Type :=
| LEFT_PAREN | RIGHT_PAREN | LEFT_BRACKET | RIGHT_BRACKET
| APOSTROPHE | BACKTICK | COMMA | COMMA_AT
| QUOTE | QUASIQUOTE | UNQUOTE | UNQUOTE_SPLICING
| DOT | TRIPLE_DOT
| HASH
| NUMBER | BOOLEAN | STRING
| SYMBOL
| EOF.

Definition TokenType_eqb (a b : TokenType) : bool :=
  match a, b with
  | LEFT_PAREN, LEFT_PAREN | RIGHT_PAREN, RIGHT_PAREN
  | LEFT_BRACKET, LEFT_BRACKET | RIGHT_BRACKET, RIGHT_BRACKET
  | APOSTROPHE, APOSTROPHE | BACKTICK, BACKTICK | COMMA, COMMA
  | COMMA_AT, COMMA_AT | QUOTE, QUOTE | QUASIQUOTE, QUASIQUOTE
  | UNQUOTE, UNQUOTE | UNQUOTE_SPLICING, UNQUOTE_SPLICING
  | DOT, DOT | TRIPLE_DOT, TRIPLE_DOT | HASH, HASH | NUMBER, NUMBER
  | BOOLEAN, BOOLEAN | STRING, STRING | SYMBOL, SYMBOL | EOF, EOF => true
  | _, _ => false
  end.

(** The [KEYWORDS] map of the tokenizer, in source order. *)
Definition KEYWORDS : list (string * TokenType) :=
  [ (".", DOT); ("...", TRIPLE_DOT); ("quote", QUOTE);
    ("quasiquote", QUASIQUOTE); ("unquote", UNQUOTE);
    ("unquote-splicing", UNQUOTE_SPLICING) ]%string.

Fixpoint KEYWORDS_get (m : list (string * TokenType)) (k : string)
  : option TokenType :=
  match m with
  | [] => None
  | (k', v) :: rest => if String.eqb k' k then Some v else KEYWORDS_get rest k
  end.

Inductive TokenizerError : Type :=
| UnexpectedCharacterError (ln col : Z) (c : string)
| UnexpectedEOFError (ln col : Z).

Record Tokenizer : Type := mkTokenizer {
  source : string;
  tokens : list (Token TokenType);
  start : nat;
  current : nat;
  t_line : Z;
  t_col : Z
}.

(** [new Tokenizer(source)] *)
Definition newTokenizer (src : string) : Tokenizer :=
  {| source := src; tokens := []; start := 0; current := 0;
     t_line := 1; t_col := 0 |}.

Definition T := M Tokenizer TokenizerError.

Definition isAtEnd (t : Tokenizer) : bool :=
  String.length (source t) <=? current t.

Definition peek (t : Tokenizer) : string :=
  if isAtEnd t then NUL else charAt (source t) (current t).

Definition peekNext (t : Tokenizer) : string :=
  if String.length (source t) <=? current t + 1 then NUL
  else charAt (source t) (current t + 1).

Definition peekPrev (t : Tokenizer) : string :=
  if current t =? 0 then NUL else charAt (source t) (current t - 1).

Definition isDigit (c : string) : bool :=
  String.leb "0" c && String.leb c "9".

Definition isSpecialSyntax (c : string) : bool :=
  String.eqb c "(" || String.eqb c ")" || String.eqb c "[" ||
  String.eqb c "]" || String.eqb c ";" || String.eqb c "|".

Definition isWhitespace (c : string) : bool :=
  String.eqb c " " || String.eqb c NUL || String.eqb c LF ||
  String.eqb c CR || String.eqb c TAB.

Definition isValidSymbol (c : string) : bool :=
  negb (isWhitespace c) && negb (isSpecialSyntax c).

(** [advance()]: [col++], then the character at [current++]. *)
Definition advance : T string :=
  fun t =>
    Ok (charAt (source t) (current t))
       {| source := source t; tokens := tokens t; start := start t;
          current := S (current t); t_line := t_line t;
          t_col := (t_col t + 1)%Z |}.

(** [jump()] *)
Definition jump : T unit :=
  modify (fun t =>
    {| source := source t; tokens := tokens t; start := current t;
       current := S (current t); t_line := t_line t;
       t_col := (t_col t + 1)%Z |}).

Definition setStart : T unit :=
  modify (fun t =>
    {| source := source t; tokens := tokens t; start := current t;
       current := current t; t_line := t_line t; t_col := t_col t |}).

(** [this.line++; this.col = 0] *)
Definition newLine : T unit :=
  modify (fun t =>
    {| source := source t; tokens := tokens t; start := start t;
       current := current t; t_line := (t_line t + 1)%Z; t_col := 0%Z |}).

Definition pushToken (tok : Token TokenType) : T unit :=
  modify (fun t =>
    {| source := source t; tokens := tokens t ++ [tok]; start := start t;
       current := current t; t_line := t_line t; t_col := t_col t |}).

(** [addToken(type, literal = null)] *)
Definition addToken (ty : TokenType) (lit : Literal) : T unit :=
  t <- gets (fun t => t) ;;
  pushToken (newToken ty (jsSubstring (source t) (start t) (current t)) lit
               (start t) (current t) (t_line t) (t_col t)).

(** [match(expected)] *)
Definition match_ (expected : string) : T bool :=
  fun t =>
    if isAtEnd t then Ok false t
    else if negb (String.eqb (charAt (source t) (current t)) expected)
         then Ok false t
         else Ok true
                {| source := source t; tokens := tokens t; start := start t;
                   current := S (current t); t_line := t_line t;
                   t_col := t_col t |}.

(** [checkKeyword()] *)
Definition checkKeyword (t : Tokenizer) : TokenType :=
  let text := jsSubstring (source t) (start t) (current t) in
  let text :=
    if String.eqb (charAt text 0) "|"
    then jsSubstring (source t) (start t + 1) (current t - 1)
    else text in
  match KEYWORDS_get KEYWORDS text with
  | Some ty => ty
  | None => SYMBOL
  end.

(** The [while] loop of [comment()]. *)
Fixpoint comment_loop (fuel : nat) : T unit :=
  match fuel with
  | O => outOfFuel
  | S fuel' =>
      t <- gets (fun t => t) ;;
      if negb (String.eqb (peek t) "|" && String.eqb (peekNext t) "#")
         && negb (isAtEnd t)
      then (if String.eqb (peek t) LF then newLine else ret tt) ;;;
           _ <- advance ;;
           comment_loop fuel'
      else ret tt
  end.

Definition comment : T unit :=
  n <- gets (fun t => String.length (source t)) ;;
  comment_loop (S n) ;;;
  t <- gets (fun t => t) ;;
  if isAtEnd t then throw (UnexpectedEOFError (t_line t) (t_col t))
  else jump ;;; jump.

(** The [while] loop of [symbolToken()]. *)
Fixpoint symbolToken_loop (fuel : nat) : T unit :=
  match fuel with
  | O => outOfFuel
  | S fuel' =>
      c <- gets peek ;;
      if isValidSymbol c then _ <- advance ;; symbolToken_loop fuel'
      else ret tt
  end.

Definition symbolToken : T unit :=
  n <- gets (fun t => String.length (source t)) ;;
  symbolToken_loop (S n) ;;;
  ty <- gets checkKeyword ;;
  addToken ty LNull.

(** The [while] loop shared by [symbolTokenLoose()] (closing ["|"]) and
    [stringToken()] (closing double quote). *)
Fixpoint until_loop (close : string) (fuel : nat) : T unit :=
  match fuel with
  | O => outOfFuel
  | S fuel' =>
      t <- gets (fun t => t) ;;
      if negb (String.eqb (peek t) close) && negb (isAtEnd t)
      then (if String.eqb (peek t) LF then newLine else ret tt) ;;;
           _ <- advance ;;
           until_loop close fuel'
      else ret tt
  end.

Definition symbolTokenLoose : T unit :=
  jump ;;;
  n <- gets (fun t => String.length (source t)) ;;
  until_loop "|" (S n) ;;;
  t <- gets (fun t => t) ;;
  if isAtEnd t then throw (UnexpectedEOFError (t_line t) (t_col t))
  else addToken (checkKeyword t) LNull ;;; jump.

(** The [while] loop of [symbolNumberToken()], on the two flags
    [validNumber] and [hasDot]. *)
Fixpoint symbolNumberToken_loop (fuel : nat) (validNumber hasDot : bool)
  : T (bool * bool) :=
  match fuel with
  | O => outOfFuel
  | S fuel' =>
      t <- gets (fun t => t) ;;
      if isValidSymbol (peek t) then
        let c := peek t in
        let '(validNumber', hasDot') :=
          if negb (isDigit c) then
            if String.eqb c "." then
              if hasDot then (false, hasDot)
              else if isDigit (peekNext t) || isWhitespace (peekNext t)
                   then (validNumber, true)
                   else (false, hasDot)
            else (false, hasDot)
          else (validNumber, hasDot) in
        _ <- advance ;;
        symbolNumberToken_loop fuel' validNumber' hasDot'
      else ret (validNumber, hasDot)
  end.

Definition symbolNumberToken : T unit :=
  first <- gets peekPrev ;;
  n <- gets (fun t => String.length (source t)) ;;
  flags <- symbolNumberToken_loop (S n) true (String.eqb first ".") ;;
  t <- gets (fun t => t) ;;
  let lexeme := jsSubstring (source t) (start t) (current t) in
  let validNumber :=
    if String.eqb lexeme "." || String.eqb lexeme "-" ||
       String.eqb lexeme "-."
    then false else fst flags in
  if validNumber then addToken NUMBER (LNumber lexeme)
  else addToken (checkKeyword t) LNull.

Definition stringToken : T unit :=
  n <- gets (fun t => String.length (source t)) ;;
  until_loop DQUOTE (S n) ;;;
  t <- gets (fun t => t) ;;
  if isAtEnd t then throw (UnexpectedEOFError (t_line t) (t_col t))
  else
    _ <- advance ;;
    t <- gets (fun t => t) ;;
    addToken STRING
      (LString (jsSubstring (source t) (start t + 1) (current t - 1))).

Definition booleanToken : T unit :=
  p <- gets peekPrev ;;
  addToken BOOLEAN (LBoolean (String.eqb p "t")).

(** The line-comment loop of [scanToken()]. *)
Fixpoint lineComment_loop (fuel : nat) : T unit :=
  match fuel with
  | O => outOfFuel
  | S fuel' =>
      t <- gets (fun t => t) ;;
      if negb (String.eqb (peek t) LF) && negb (isAtEnd t)
      then _ <- advance ;; lineComment_loop fuel'
      else ret tt
  end.

(** [scanToken()] *)
Definition scanToken : T unit :=
  c <- advance ;;
  if String.eqb c "(" then addToken LEFT_PAREN LNull
  else if String.eqb c ")" then addToken RIGHT_PAREN LNull
  else if String.eqb c "[" then addToken LEFT_BRACKET LNull
  else if String.eqb c "]" then addToken RIGHT_BRACKET LNull
  else if String.eqb c "'" then addToken APOSTROPHE LNull
  else if String.eqb c "`" then addToken BACKTICK LNull
  else if String.eqb c "," then
    m <- match_ "@" ;;
    if m then addToken COMMA_AT LNull else addToken COMMA LNull
  else if String.eqb c "#" then
    mt <- match_ "t" ;;
    mtf <- (if mt then ret true else match_ "f") ;;
    if mtf then booleanToken
    else
      mp <- match_ "|" ;;
      if mp then comment else addToken HASH LNull
  else if String.eqb c ";" then
    n <- gets (fun t => String.length (source t)) ;;
    lineComment_loop (S n)
  else if String.eqb c " " || String.eqb c CR || String.eqb c TAB then ret tt
  else if String.eqb c LF then newLine
  else if String.eqb c DQUOTE then stringToken
  else if String.eqb c "|" then symbolTokenLoose
  else if isDigit c || String.eqb c "-" || String.eqb c "." then
    symbolNumberToken
  else if isValidSymbol c then symbolToken
  else
    t <- gets (fun t => t) ;;
    throw (UnexpectedCharacterError (t_line t) (t_col t) c).

Fixpoint scanTokens_loop (fuel : nat) : T unit :=
  match fuel with
  | O => outOfFuel
  | S fuel' =>
      e <- gets isAtEnd ;;
      if e then ret tt
      else setStart ;;; scanToken ;;; scanTokens_loop fuel'
  end.

(** [scanTokens()] *)
Definition scanTokens : T (list (Token TokenType)) :=
  n <- gets (fun t => String.length (source t)) ;;
  scanTokens_loop (S n) ;;;
  t <- gets (fun t => t) ;;
  pushToken (newToken EOF EmptyString LNull (start t) (current t) (t_line t) (t_col t)) ;;;
  gets tokens.

(** *** The [Group] class of [ast-generator/grouping.ts] *)

Inductive GroupError : Type :=
| EmptyGroup      (* [Error("Empty group.")] *)
| InvalidGroup    (* [Error("Invalid group.")] *)
| GroupTypeError. (* a [TypeError] of the runtime *)

Definition matchingParentheses (lParen rParen : Token TokenType) : bool :=
  (TokenType_eqb (type lParen) LEFT_PAREN &&
   TokenType_eqb (type rParen) RIGHT_PAREN) ||
  (TokenType_eqb (type lParen) LEFT_BRACKET &&
   TokenType_eqb (type rParen) RIGHT_BRACKET).

Definition isDataType (token : Token TokenType) : bool :=
  TokenType_eqb (type token) SYMBOL || TokenType_eqb (type token) NUMBER ||
  TokenType_eqb (type token) STRING || TokenType_eqb (type token) BOOLEAN.

Definition construct (els : list (Datum TokenType))
  : GroupError + Group TokenType :=
  match newGroup els with
  | Some g => inr g
  | None => inl GroupTypeError
  end.

(** [Group.build(elements)] *)
Definition Group_build (els : list (Datum TokenType))
  : GroupError + Group TokenType :=
  match els with
  | [] => inl EmptyGroup
  | [onlyElement] =>
      match onlyElement with
      | DGroup g => inr g
      | DToken t => if negb (isDataType t) then inl InvalidGroup
                    else construct els
      end
  | firstElement :: _ =>
      match firstElement, last (map Some els) None with
      | DToken f, Some (DToken l) =>
          if matchingParentheses f l then construct els
          else inl InvalidGroup
      | _, _ => inl InvalidGroup
      end
  end.

(** [isParenthesized()] *)
Definition isParenthesized (g : Group TokenType) : bool :=
  match hd_error (elements g) with
  | Some (DToken f) =>
      TokenType_eqb (type f) LEFT_PAREN || TokenType_eqb (type f) LEFT_BRACKET
  | _ => false
  end.

(** [unwrap()]: [elements.slice(1, elements.length - 1)] when
    parenthesized. *)
Definition unwrap (g : Group TokenType) : list (Datum TokenType) :=
  if isParenthesized g then removelast (tl (elements g)) else elements g.

(** [length()] *)
Definition Group_length (g : Group TokenType) : nat :=
  List.length (unwrap g).

End Scanner.

(** ** The parser generation *)

Module Parser.

(** The enumeration of [transpiler/types/tokens/token-type.ts]. *)
Inductive TokenType : Type :=
| LEFT_PAREN | RIGHT_PAREN | LEFT_BRACKET | RIGHT_BRACKET | DOT
| HASH_SEMICOLON
| IDENTIFIER | NUMBER | BOOLEAN | STRING
| IF | LET | COND | ELSE | DEFINE | LAMBDA
| APOSTROPHE | BACKTICK | COMMA | COMMA_AT
| QUOTE | QUASIQUOTE | UNQUOTE | UNQUOTE_SPLICING
| SET | BEGIN | DELAY
| IMPORT | EXPORT
| JS_IMPORT | JS_EXPORT
| HASH_VECTOR | VECTOR
| EOF.

Definition Tok := Token TokenType.
Definition Dat := Datum TokenType.
Definition Grp := Group TokenType.

(** [enum QuoteMode] *)
Inductive QuoteMode : Type := NONE | QUOTE_MODE | QUASIQUOTE_MODE.

Definition isNONE (q : QuoteMode) : bool :=
  match q with NONE => true | _ => false end.

(** The [chapter] field: a number, [Infinity] by default. *)
Inductive Chapter : Type := Finite (n : Z) | Infinity.

(** [this.chapter < chapter] *)
Definition chapter_ltb (c : Chapter) (k : Z) : bool :=
  match c with Finite n => (n <? k)%Z | Infinity => false end.

Definition BASIC_CHAPTER : Z := 1.
Definition QUOTING_CHAPTER : Z := 2.
Definition VECTOR_CHAPTER : Z := 3.
Definition MUTABLE_CHAPTER : Z := 3.

(** *** AST nodes

    [Atomic.*] and [Extended.*] of [types/nodes/scheme-node-types]: each
    node holds its location and the fields its constructor receives, in
    the order of the constructor calls of the parser. *)
#[warnings="-register-all"]
Inductive Expression : Type :=
| Atomic_NumericLiteral (loc : Location) (value : Literal)
| Atomic_BooleanLiteral (loc : Location) (value : Literal)
| Atomic_StringLiteral (loc : Location) (value : Literal)
| Atomic_Identifier (loc : Location) (name : string)
| Atomic_Symbol (loc : Location) (value : string)
| Atomic_Nil (loc : Location)
| Atomic_Sequence (loc : Location) (expressions : list Expression)
| Atomic_Lambda (loc : Location) (body : Expression)
    (params : list Expression) (rest : option Expression)
| Atomic_Definition (loc : Location) (name value : Expression)
| Atomic_Conditional (loc : Location) (test consequent alternate : Expression)
| Atomic_Application (loc : Location) (operator : Expression)
    (operands : list Expression)
| Atomic_Reassignment (loc : Location) (name value : Expression)
| Atomic_Import (loc : Location) (src : Expression)
    (identifiers : list Expression) (is_js : bool)
| Atomic_Export (loc : Location) (definition : Expression) (is_js : bool)
| Atomic_Vector (loc : Location) (elems : list Expression)
| Atomic_SpliceMarker (loc : Location) (value : Expression)
| Extended_List (loc : Location) (elems : list Expression)
    (terminator : option Expression)
| Extended_FunctionDefinition (loc : Location) (name body : Expression)
    (params : list Expression) (rest : option Expression)
| Extended_Let (loc : Location) (identifiers values : list Expression)
    (body : Expression)
| Extended_Cond (loc : Location) (predicates consequents : list Expression)
    (catchall : option Expression)
| Extended_Begin (loc : Location) (expressions : list Expression)
| Extended_Delay (loc : Location) (expression : Expression).

(** The [location] field of a node. *)
Definition expr_location (e : Expression) : Location :=
  match e with
  | Atomic_NumericLiteral l _ | Atomic_BooleanLiteral l _
  | Atomic_StringLiteral l _ | Atomic_Identifier l _ | Atomic_Symbol l _
  | Atomic_Nil l | Atomic_Sequence l _ | Atomic_Lambda l _ _ _
  | Atomic_Definition l _ _ | Atomic_Conditional l _ _ _
  | Atomic_Application l _ _ | Atomic_Reassignment l _ _
  | Atomic_Import l _ _ _ | Atomic_Export l _ _ | Atomic_Vector l _
  | Atomic_SpliceMarker l _ | Extended_List l _ _
  | Extended_FunctionDefinition l _ _ _ _ | Extended_Let l _ _ _
  | Extended_Cond l _ _ _ | Extended_Begin l _ | Extended_Delay l _ => l
  end.

(** Lexicographic order on positions. *)
Definition pos_leb (p q : Position) : bool :=
  (line p <? line q)%Z || ((line p =? line q)%Z && (column p <=? column q)%Z).

Definition pos_min (p q : Position) : Position := if pos_leb p q then p else q.
Definition pos_max (p q : Position) : Position := if pos_leb p q then q else p.

(** Modelled from the spec: [Location.merge] of [types/location], which is
    not among the sources.  The merged span is the union of the two spans,
    the smallest span that covers both. *)
Definition merge (a b : Location) : Location :=
  mkLocation (pos_min (loc_start a) (loc_start b))
             (pos_max (loc_end a) (loc_end b)).

(** *** Errors of [parser-error]

    The [source] text every error receives is the constant field of the
    parser and is left out.  A position read off a datum that is not a
    token ([undefined] at run time) is [None]. *)
Inductive ParserError : Type :=
| UnexpectedFormError (p : option Position) (form : Dat)
| ExpectedFormError (p : option Position) (form : Dat) (expected : string)
| UnexpectedEOFError (p : Position)
| DisallowedTokenError (p : Position) (token : Tok) (chapter : Chapter)
| UnsupportedTokenError (p : Position) (token : Tok)
| JsTypeError.  (* a [TypeError] raised by the runtime *)

(** *** The [Group] class of [types/tokens/group]

    This class is not among the sources.  [isParenthesized], [unwrap] and
    [length] are those of its earlier version in
    [ast-generator/grouping.ts], read over this generation's token
    types. *)
Definition isParenthesized (g : Grp) : bool :=
  match hd_error (elements g) with
  | Some (DToken f) =>
      match type f with LEFT_PAREN | LEFT_BRACKET => true | _ => false end
  | _ => false
  end.

Definition unwrap (g : Grp) : list Dat :=
  if isParenthesized g then removelast (tl (elements g)) else elements g.

Definition Group_length (g : Grp) : nat := List.length (unwrap g).

(** Modelled from the spec: [Group.isSingleIdentifier] is not among the
    sources.  It holds of "a Group that, per invariant, represents a single
    wrapped token": an unparenthesized group of one token. *)
Definition isSingleIdentifier (g : Grp) : option Tok :=
  if isParenthesized g then None
  else match elements g with
       | [DToken t] => Some t
       | _ => None
       end.

Definition isDataType (token : Tok) : bool :=
  match type token with
  | IDENTIFIER | NUMBER | STRING | BOOLEAN => true
  | _ => false
  end.

Definition isShortAffector (token : Tok) : bool :=
  match type token with
  | APOSTROPHE | BACKTICK | COMMA | COMMA_AT | HASH_VECTOR => true
  | _ => false
  end.

Definition matchingParentheses (lParen rParen : Tok) : bool :=
  match type lParen, type rParen with
  | LEFT_PAREN, RIGHT_PAREN | LEFT_BRACKET, RIGHT_BRACKET => true
  | _, _ => false
  end.

Definition construct (els : list Dat) : ParserError + Grp :=
  match newGroup els with
  | Some g => inr g
  | None => inl JsTypeError
  end.

(** Modelled from the spec: [Group.build] of [types/tokens/group] is not
    among the sources.  A group is never empty; a single group is returned
    as it is and a single data token is wrapped; an affector token with
    its one target forms an unparenthesized group; every other group must
    open and close with a matching delimiter pair.  A violation is an
    expected-form error at the first element; the empty list has none and
    is a runtime error. *)
Definition Group_build (els : list Dat) : ParserError + Grp :=
  match els with
  | [] => inl JsTypeError
  | [DGroup g] => inr g
  | [DToken t] =>
      if isDataType t then construct els
      else inl (ExpectedFormError (Some (pos t)) (DToken t) "<data>")
  | firstElement :: _ =>
      let generic :=
        match firstElement, last (map Some els) None with
        | DToken f, Some (DToken l) =>
            if matchingParentheses f l then construct els
            else inl (ExpectedFormError (Some (pos f)) firstElement
                        "matching parentheses")
        | _, _ =>
            inl (ExpectedFormError
                   (option_map (@pos _) (firstTokenOf firstElement))
                   firstElement "matching parentheses")
        end in
      match els with
      | [DToken a; _] => if isShortAffector a then construct els else generic
      | _ => generic
      end
  end.

(** *** The parser object *)

Record SchemeParser : Type := mkSchemeParser {
  source : string;
  tokens : list Tok;
  chapter : Chapter;
  current : nat;
  quoteMode : QuoteMode
}.

(** [new SchemeParser(source, tokens, chapter = Infinity)] *)
Definition newSchemeParser (src : string) (toks : list Tok)
    (ch : option Chapter) : SchemeParser :=
  {| source := src; tokens := toks;
     chapter := match ch with Some c => c | None => Infinity end;
     current := 0; quoteMode := NONE |}.

Definition P := M SchemeParser ParserError.

Definition setQuoteMode (q : QuoteMode) : P unit :=
  modify (fun p =>
    {| source := source p; tokens := tokens p; chapter := chapter p;
       current := current p; quoteMode := q |}).

Definition isAtEnd (p : SchemeParser) : bool :=
  List.length (tokens p) <=? current p.

(** [peek()]: [None] is [undefined]. *)
Definition peek (p : SchemeParser) : option Tok :=
  nth_error (tokens p) (current p).

(** [advance()]: the token before the cursor once it has moved;
    [undefined] (here a [TypeError] at its first use) on an empty token
    array. *)
Definition advance : P Tok :=
  fun p =>
    let p' :=
      if isAtEnd p then p
      else {| source := source p; tokens := tokens p; chapter := chapter p;
              current := S (current p); quoteMode := quoteMode p |} in
    match current p' with
    | O => Throw JsTypeError p'
    | S i => match nth_error (tokens p') i with
             | Some t => Ok t p'
             | None => Throw JsTypeError p'
             end
    end.

(** [validateChapter(c, chapter)] *)
Definition validateChapter (c : Tok) (ch : Z) : P unit :=
  p <- gets (fun p => p) ;;
  if chapter_ltb (chapter p) ch
  then throw (DisallowedTokenError (pos c) c (chapter p))
  else ret tt.

(** [toLocation(token)] *)
Definition toLocation (token : Tok) : Location :=
  mkLocation (pos token) (endPos token).

(** [grouping()] wraps [Group.build]: an [ExpectedFormError] is thrown
    again with the parser's source, every other error as it is. *)
Definition liftBuild (r : ParserError + Grp) : P Grp :=
  match r with
  | inr g => ret g
  | inl e => throw e
  end.

(** [affect(affector, target)] *)
Definition affect (affector : Tok) (target : Dat) : P Grp :=
  liftBuild (Group_build [DToken affector; target]).

(** The loop [do { x = m() } while (!x)]. *)
Fixpoint untilSome {A} (fuel : nat) (m : P (option A)) : P A :=
  match fuel with
  | O => outOfFuel
  | S fuel' =>
      x <- m ;;
      match x with
      | Some a => ret a
      | None => untilSome fuel' m
      end
  end.

(** What [grouping()] does once its loop has ended. *)
Definition grouping_finish (els : list Dat) : P (option Grp) :=
  match els with
  | [] => ret None
  | _ => g <- liftBuild (Group_build els) ;; ret (Some g)
  end.

(** The [do ... while (inList)] loop of [grouping()], on the local
    variables [elements] and [inList]; [grouping(c)] and [grouping()] are
    the recursive calls. *)
Fixpoint grouping_loop (fuel : nat) (els : list Dat) (inList : bool)
  : P (list Dat) :=
  match fuel with
  | O => outOfFuel
  | S fuel' =>
      let grouping (openparen : option Tok) : P (option Grp) :=
        match openparen with
        | Some o =>
            r <- grouping_loop fuel' [DToken o] true ;; grouping_finish r
        | None => r <- grouping_loop fuel' [] false ;; grouping_finish r
        end in
      let continue (els' : list Dat) (inList' : bool) : P (list Dat) :=
        if inList' then grouping_loop fuel' els' inList' else ret els' in
      c <- advance ;;
      match type c with
      | LEFT_PAREN | LEFT_BRACKET =>
          innerGroup <- grouping (Some c) ;;
          match innerGroup with
          | Some g => continue (els ++ [DGroup g]) inList
          | None => throw JsTypeError
          end
      | RIGHT_PAREN | RIGHT_BRACKET =>
          if negb inList
          then throw (UnexpectedFormError (Some (pos c)) (DToken c))
          else continue (els ++ [DToken c]) false
      | APOSTROPHE | BACKTICK | COMMA | COMMA_AT | HASH_VECTOR =>
          nextGrouping <- untilSome fuel' (grouping None) ;;
          g <- affect c (DGroup nextGrouping) ;;
          continue (els ++ [DGroup g]) inList
      | QUOTE | QUASIQUOTE | UNQUOTE | UNQUOTE_SPLICING
      | IDENTIFIER | NUMBER | BOOLEAN | STRING | DOT
      | DEFINE | IF | ELSE | COND | LAMBDA | LET
      | SET | BEGIN | DELAY | IMPORT | EXPORT | JS_IMPORT | JS_EXPORT =>
          continue (els ++ [DToken c]) inList
      | HASH_SEMICOLON =>
          _ <- untilSome fuel' (grouping None) ;;
          continue els inList
      | EOF => throw (UnexpectedEOFError (pos c))
      | VECTOR => throw (UnexpectedFormError (Some (pos c)) (DToken c))
      end
  end.

(** [grouping(openparen?)] *)
Definition grouping (fuel : nat) (openparen : option Tok) : P (option Grp) :=
  match openparen with
  | Some o => r <- grouping_loop fuel [DToken o] true ;; grouping_finish r
  | None => r <- grouping_loop fuel [] false ;; grouping_finish r
  end.

(** *** From datums to expressions

    The methods below call [this.parseExpression] on parts of their
    argument; [parseExpression] is tied to them, with its fuel, after the
    section. *)

(** [elements[i]] where the next step dereferences it: an index out of
    range gives [undefined] and the dereference a [TypeError]. *)
Definition at_ (l : list Dat) (i : nat) : P Dat :=
  match nth_error l i with
  | Some d => ret d
  | None => throw JsTypeError
  end.

(** [a.at(0)!.location.merge(a.at(-1)!.location)] *)
Definition spanOf (l : list Expression) : P Location :=
  match l, last (map Some l) None with
  | f :: _, Some z => ret (merge (expr_location f) (expr_location z))
  | _, _ => throw JsTypeError
  end.

(** The verifier [destructureList] and its callers default to. *)
Definition noVerifier (_ : Dat) : P unit := ret tt.

(** The verifier of formal parameters in [parseLambda] and
    [parseDefinition]. *)
Definition identifierVerifier (formal : Dat) : P unit :=
  match formal with
  | DGroup _ => throw (ExpectedFormError None formal "<identifier>")
  | DToken t =>
      match type t with
      | IDENTIFIER => ret tt
      | _ => throw (ExpectedFormError (Some (pos t)) formal "<identifier>")
      end
  end.

(** [parseToken(token)] *)
Definition parseToken (token : Tok) : P Expression :=
  match type token with
  | IDENTIFIER =>
      q <- gets quoteMode ;;
      ret (if isNONE q
           then Atomic_Identifier (toLocation token) (lexeme token)
           else Atomic_Symbol (toLocation token) (lexeme token))
  | NUMBER => ret (Atomic_NumericLiteral (toLocation token) (literal token))
  | BOOLEAN => ret (Atomic_BooleanLiteral (toLocation token) (literal token))
  | STRING => ret (Atomic_StringLiteral (toLocation token) (literal token))
  | _ =>
      q <- gets quoteMode ;;
      if negb (isNONE q)
      then ret (Atomic_Symbol (toLocation token) (lexeme token))
      else throw (UnexpectedFormError (Some (pos token)) (DToken token))
  end.

Section Methods.
Variable parseExpression : Dat -> P Expression.

(** [this.parseExpression(x)] where [x] may be [undefined]. *)
Definition parseExpression' (x : option Dat) : P Expression :=
  match x with
  | Some d => parseExpression d
  | None => throw JsTypeError
  end.

(** [destructureList(list, verifier)] *)
Definition destructureList (lst : list Dat) (verifier : Dat -> P unit)
  : P (list Expression * option Expression) :=
  match lst with
  | [] => ret ([], None)
  | [x] =>
      verifier x ;;;
      e <- parseExpression x ;;
      ret ([e], None)
  | _ =>
      let n := List.length lst in
      match nth_error lst (n - 2), nth_error lst (n - 1) with
      | Some potentialDot, Some cdrElement =>
          let isDot :=
            match potentialDot with
            | DToken t => match type t with DOT => true | _ => false end
            | DGroup _ => false
            end in
          if isDot then
            let listElements := firstn (n - 2) lst in
            verifier cdrElement ;;;
            forEachM verifier listElements ;;;
            es <- mapM parseExpression listElements ;;
            cdr <- parseExpression cdrElement ;;
            ret (es, Some cdr)
          else
            forEachM verifier lst ;;;
            es <- mapM parseExpression lst ;;
            ret (es, None)
      | _, _ => throw JsTypeError
      end
  end.

(** The list node a quote-family affector leaves inside a quotation:
    the symbol [name] at the affector, then the parsed target. *)
Definition quotedList (affector : Tok) (name : string)
    (target : option Dat) : P Expression :=
  innerGroup <- parseExpression' target ;;
  let newSymbol := Atomic_Symbol (toLocation affector) name in
  let newLocation :=
    merge (expr_location newSymbol) (expr_location innerGroup) in
  ret (Extended_List newLocation [newSymbol; innerGroup] None).

(** [parseVector(group)] *)
Definition parseVector (group : Grp) : P Expression :=
  match nth_error (unwrap group) 1 with
  | Some (DGroup elems) =>
      convertedElements <- mapM parseExpression (unwrap elems) ;;
      ret (Atomic_Vector (location group) convertedElements)
  | _ => throw JsTypeError
  end.

(** [parseAffectorGroup(group)] *)
Definition parseAffectorGroup (group : Grp) : P Expression :=
  let target := nth_error (unwrap group) 1 in
  match nth_error (unwrap group) 0 with
  | None => throw JsTypeError
  | Some (DGroup g) => throw (UnexpectedFormError None (DGroup g))
  | Some (DToken affector) =>
      match type affector with
      | APOSTROPHE | QUOTE =>
          validateChapter affector QUOTING_CHAPTER ;;;
          q <- gets quoteMode ;;
          if negb (isNONE q) then quotedList affector "quote" target
          else
            setQuoteMode QUOTE_MODE ;;;
            quotedExpression <- parseExpression' target ;;
            setQuoteMode NONE ;;;
            ret quotedExpression
      | BACKTICK | QUASIQUOTE =>
          validateChapter affector QUOTING_CHAPTER ;;;
          q <- gets quoteMode ;;
          if negb (isNONE q) then quotedList affector "quasiquote" target
          else
            setQuoteMode QUASIQUOTE_MODE ;;;
            quasiquotedExpression <- parseExpression' target ;;
            setQuoteMode NONE ;;;
            ret quasiquotedExpression
      | COMMA | UNQUOTE =>
          validateChapter affector QUOTING_CHAPTER ;;;
          preUnquoteMode <- gets quoteMode ;;
          match preUnquoteMode with
          | NONE => throw (UnsupportedTokenError (pos affector) affector)
          | QUOTE_MODE => quotedList affector "unquote" target
          | QUASIQUOTE_MODE =>
              setQuoteMode NONE ;;;
              unquotedExpression <- parseExpression' target ;;
              setQuoteMode preUnquoteMode ;;;
              ret unquotedExpression
          end
      | COMMA_AT | UNQUOTE_SPLICING =>
          validateChapter affector QUOTING_CHAPTER ;;;
          preUnquoteSplicingMode <- gets quoteMode ;;
          match preUnquoteSplicingMode with
          | NONE =>
              throw (UnexpectedFormError (Some (pos affector))
                       (DToken affector))
          | QUOTE_MODE => quotedList affector "unquote-splicing" target
          | QUASIQUOTE_MODE =>
              throw (UnsupportedTokenError (pos affector) affector)
          end
      | HASH_VECTOR =>
          validateChapter affector VECTOR_CHAPTER ;;;
          preVectorQuoteMode <- gets quoteMode ;;
          setQuoteMode QUOTE_MODE ;;;
          vector <- parseVector group ;;
          setQuoteMode preVectorQuoteMode ;;;
          ret vector
      | _ =>
          throw (UnexpectedFormError (Some (pos affector))
                   (DToken affector))
      end
  end.

(** [parseQuotedGroup(group)] *)
Definition parseQuotedGroup (group : Grp) : P Expression :=
  match unwrap group with
  | [] => ret (Atomic_Nil (location group))
  | [x] =>
      e <- parseExpression x ;;
      ret (Extended_List (location group) [e] None)
  | groupElements =>
      r <- destructureList groupElements noVerifier ;;
      ret (Extended_List (location group) (fst r) (snd r))
  end.

(** The body of a lambda, a function definition or a let: the single
    expression, or the sequence of them. *)
Definition bodyOf (convertedBody : list Expression) : P Expression :=
  match convertedBody with
  | [b] => ret b
  | _ =>
      newLocation <- spanOf convertedBody ;;
      ret (Atomic_Sequence newLocation convertedBody)
  end.

(** [parseLambda(group)] *)
Definition parseLambda (group : Grp) : P Expression :=
  if Group_length group <? 3 then
    throw (ExpectedFormError (Some (loc_start (location group)))
             (DGroup group)
             "(lambda (<identifier>* . <rest-identifier>?) <body>+) | (lambda <rest-identifer> <body>+)")
  else
    let elems := unwrap group in
    formals <- at_ elems 1 ;;
    let body := skipn 2 elems in
    r <- match formals with
         | DToken t =>
             match type t with
             | IDENTIFIER =>
                 ret ([], Some (Atomic_Identifier (toLocation t) (lexeme t)))
             | _ => throw (ExpectedFormError (Some (pos t)) formals
                             "<rest-identifier>")
             end
         | DGroup g => destructureList (unwrap g) identifierVerifier
         end ;;
    convertedBody <- mapM parseExpression body ;;
    if List.length convertedBody <? 1 then
      throw (ExpectedFormError (Some (loc_start (location group)))
               (DGroup group) "(lambda ... <body>+)")
    else
      b <- bodyOf convertedBody ;;
      ret (Atomic_Lambda (location group) b (fst r) (snd r)).

(** [parseDefinition(group)] *)
Definition parseDefinition (group : Grp) : P Expression :=
  if Group_length group <? 3 then
    throw (ExpectedFormError (Some (loc_start (location group)))
             (DGroup group)
             "(define <identifier> <expr>) | (define (<identifier> <formals>) <body>+)")
  else
    let elems := unwrap group in
    identifier <- at_ elems 1 ;;
    let expr := skipn 2 elems in
    match identifier with
    | DGroup ig =>
        let identifierElements := unwrap ig in
        functionName <- at_ identifierElements 0 ;;
        let formals := skipn 1 identifierElements in
        match functionName with
        | DGroup fg =>
            throw (ExpectedFormError (Some (loc_start (location fg)))
                     functionName "<identifier>")
        | DToken fn =>
            match type fn with
            | IDENTIFIER =>
                let convertedIdentifier :=
                  Atomic_Identifier (toLocation fn) (lexeme fn) in
                r <- destructureList formals identifierVerifier ;;
                if List.length expr <? 1 then
                  throw (ExpectedFormError
                           (Some (loc_start (location group)))
                           (DGroup group) "(define ... <body>+)")
                else
                  convertedBody <- mapM parseExpression expr ;;
                  b <- bodyOf convertedBody ;;
                  ret (Extended_FunctionDefinition (location group)
                         convertedIdentifier b (fst r) (snd r))
            | _ => throw (ExpectedFormError (Some (pos fn)) functionName
                            "<identifier>")
            end
        end
    | DToken it =>
        match type it with
        | IDENTIFIER =>
            let convertedIdentifier :=
              Atomic_Identifier (toLocation it) (lexeme it) in
            if List.length expr <? 1 then
              throw (ExpectedFormError (Some (loc_start (location group)))
                       (DGroup group) "(define ... <body>+)")
            else if 1 <? List.length expr then
              throw (ExpectedFormError (Some (loc_start (location group)))
                       (DGroup group) "(define <identifier> <expr>)")
            else
              convertedExpr <- parseExpression' (nth_error expr 0) ;;
              ret (Atomic_Definition (location group) convertedIdentifier
                     convertedExpr)
        | _ => throw (ExpectedFormError (Some (pos it)) identifier
                        "<identifier>")
        end
    end.

(** [parseConditional(group)] *)
Definition parseConditional (group : Grp) : P Expression :=
  if (Group_length group <? 3) || (4 <? Group_length group) then
    throw (ExpectedFormError (Some (loc_start (location group)))
             (DGroup group) "(if <pred> <cons> <alt>?)")
  else
    let elems := unwrap group in
    let alternate :=
      if 3 <? Group_length group then nth_error elems 3 else None in
    convertedTest <- parseExpression' (nth_error elems 1) ;;
    convertedConsequent <- parseExpression' (nth_error elems 2) ;;
    convertedAlternate <-
      match alternate with
      | Some a => parseExpression a
      | None => ret (Atomic_Identifier (location group) "undefined")
      end ;;
    ret (Atomic_Conditional (location group) convertedTest
           convertedConsequent convertedAlternate).

(** [parseApplication(group)] *)
Definition parseApplication (group : Grp) : P Expression :=
  if Group_length group <? 1 then
    throw (ExpectedFormError (Some (loc_start (location group)))
             (DGroup group) "(<func> <args>*)")
  else
    let elems := unwrap group in
    let operands := skipn 1 elems in
    convertedOperator <- parseExpression' (nth_error elems 0) ;;
    convertedOperands <- mapM parseExpression operands ;;
    ret (Atomic_Application (location group) convertedOperator
           convertedOperands).

(** One turn of the loop over the bindings of [parseLet]. *)
Definition parseBinding (bindingElement : Dat)
  : P (Expression * Expression) :=
  match bindingElement with
  | DToken t =>
      throw (ExpectedFormError (Some (pos t)) bindingElement
               "(<identifier> <value>)")
  | DGroup bg =>
      if negb (Group_length bg =? 2) then
        throw (ExpectedFormError (Some (loc_start (location bg)))
                 bindingElement "(<identifier> <value>)")
      else
        identifier <- at_ (unwrap bg) 0 ;;
        match identifier with
        | DGroup ig =>
            throw (ExpectedFormError (Some (loc_start (location ig)))
                     identifier "<identifier>")
        | DToken it =>
            match type it with
            | IDENTIFIER =>
                v <- parseExpression' (nth_error (unwrap bg) 1) ;;
                ret (Atomic_Identifier (toLocation it) (lexeme it), v)
            | _ => throw (ExpectedFormError (Some (pos it)) identifier
                            "<identifier>")
            end
        end
  end.

(** [parseLet(group)] *)
Definition parseLet (group : Grp) : P Expression :=
  if Group_length group <? 3 then
    throw (ExpectedFormError (Some (loc_start (location group)))
             (DGroup group) "(let ((<identifier> <value>)*) <body>+)")
  else
    let elems := unwrap group in
    bindings <- at_ elems 1 ;;
    let body := skipn 2 elems in
    match bindings with
    | DToken t =>
        throw (ExpectedFormError (Some (pos t)) bindings
                 "((<identifier> <value>)*)")
    | DGroup bs =>
        converted <- mapM parseBinding (unwrap bs) ;;
        let convertedIdentifiers := map fst converted in
        let convertedValues := map snd converted in
        convertedBody <- mapM parseExpression body ;;
        if List.length convertedBody <? 1 then
          throw (ExpectedFormError (Some (loc_start (location group)))
                   (DGroup group) "(let ... <body>+)")
        else
          b <- bodyOf convertedBody ;;
          ret (Extended_Let (location group) convertedIdentifiers
                 convertedValues b)
    end.

(** [group.firstToken()] as the subject of an error. *)
Definition firstTokenError {A} (g : Grp) (expected : string) : P A :=
  match firstToken g with
  | Some ft => throw (ExpectedFormError (Some (pos ft)) (DToken ft) expected)
  | None => throw JsTypeError
  end.

Definition isElseToken (d : Dat) : bool :=
  match d with
  | DToken t => match type t with ELSE => true | _ => false end
  | DGroup _ => false
  end.

(** One turn of the loop over the clauses before the last one in
    [parseExtendedCond]: the test and the consequent. *)
Definition parseClause (clause : Dat) : P (Expression * Expression) :=
  match clause with
  | DToken t =>
      throw (ExpectedFormError (Some (pos t)) clause "(<pred> <body>*)")
  | DGroup cg =>
      match unwrap cg with
      | [] => firstTokenError cg "(<pred> <body>*)"
      | test :: consequent =>
          if isElseToken test then
            throw (ExpectedFormError
                     (option_map (@pos _) (firstTokenOf test)) test
                     "<predicate>")
          else
            convertedTest <- parseExpression test ;;
            consequentExpressions <- mapM parseExpression consequent ;;
            match consequentExpressions with
            | [] => ret (convertedTest, convertedTest)
            | [c] => ret (convertedTest, c)
            | _ =>
                consequentLocation <- spanOf consequentExpressions ;;
                ret (convertedTest,
                     Atomic_Sequence consequentLocation
                       consequentExpressions)
            end
      end
  end.

(** [parseExtendedCond(group)] *)
Definition parseExtendedCond (group : Grp) : P Expression :=
  if Group_length group <? 2 then
    throw (ExpectedFormError (Some (loc_start (location group)))
             (DGroup group) "(cond (<pred> <body>*)* (else <val>)?)")
  else
    let allClauses := skipn 1 (unwrap group) in
    let clauses := removelast allClauses in
    lastClause <- at_ allClauses (List.length allClauses - 1) ;;
    converted <- mapM parseClause clauses ;;
    let convertedClauses := map fst converted in
    let convertedConsequents := map snd converted in
    match lastClause with
    | DToken t =>
        throw (ExpectedFormError (Some (pos t)) lastClause
                 "(<pred> <body>+) | (else <val>)")
    | DGroup lg =>
        if Group_length lg <? 2 then
          firstTokenError lg "(<pred> <body>+) | (else <val>)"
        else
          test <- at_ (unwrap lg) 0 ;;
          let consequent := skipn 1 (unwrap lg) in
          let isElse := isElseToken test in
          if isElse && negb (List.length consequent =? 1) then
            throw (ExpectedFormError (Some (loc_start (location lg)))
                     lastClause "(else <val>)")
          else if List.length consequent <? 1 then
            throw (ExpectedFormError (Some (loc_start (location lg)))
                     lastClause "(<pred> <body>+)")
          else
            consequentExpressions <- mapM parseExpression consequent ;;
            lastConsequent <- bodyOf consequentExpressions ;;
            if isElse then
              ret (Extended_Cond (location group) convertedClauses
                     convertedConsequents (Some lastConsequent))
            else
              lastTest <- parseExpression test ;;
              ret (Extended_Cond (location group)
                     (convertedClauses ++ [lastTest])
                     (convertedConsequents ++ [lastConsequent]) None)
    end.

(** [parseSet(group)] *)
Definition parseSet (group : Grp) : P Expression :=
  if negb (Group_length group =? 3) then
    throw (ExpectedFormError (Some (loc_start (location group)))
             (DGroup group) "(set! <identifier> <expr>)")
  else
    let elems := unwrap group in
    identifier <- at_ elems 1 ;;
    match identifier with
    | DGroup ig =>
        throw (ExpectedFormError (Some (loc_start (location ig)))
                 identifier "<identifier>")
    | DToken it =>
        match type it with
        | IDENTIFIER =>
            convertedExpr <- parseExpression' (nth_error elems 2) ;;
            ret (Atomic_Reassignment (location group)
                   (Atomic_Identifier (toLocation it) (lexeme it))
                   convertedExpr)
        | _ => throw (ExpectedFormError (Some (pos it)) identifier
                        "<identifier>")
        end
    end.

(** [parseBegin(group)] *)
Definition parseBegin (group : Grp) : P Expression :=
  if Group_length group <? 2 then
    throw (ExpectedFormError (Some (loc_start (location group)))
             (DGroup group) "(begin <body>+)")
  else
    convertedExpressions <- mapM parseExpression (skipn 1 (unwrap group)) ;;
    ret (Extended_Begin (location group) convertedExpressions).

(** [parseDelay(group)] *)
Definition parseDelay (group : Grp) : P Expression :=
  if negb (Group_length group =? 2) then
    throw (ExpectedFormError (Some (loc_start (location group)))
             (DGroup group) "(delay <expr>)")
  else
    convertedExpr <- parseExpression' (nth_error (unwrap group) 1) ;;
    ret (Extended_Delay (location group) convertedExpr).

(** One turn of the loop over the names of [parseImport]. *)
Definition importIdentifier (identifierElement : Dat) : P Expression :=
  match identifierElement with
  | DGroup ig =>
      throw (ExpectedFormError (Some (loc_start (location ig)))
               identifierElement "<identifier>")
  | DToken it =>
      match type it with
      | IDENTIFIER => ret (Atomic_Identifier (toLocation it) (lexeme it))
      | _ => throw (ExpectedFormError (Some (pos it)) identifierElement
                      "<identifier>")
      end
  end.

(** [parseImport(group, is_js = false)] *)
Definition parseImport (group : Grp) (is_js : bool) : P Expression :=
  if negb (Group_length group =? 3) then
    firstTokenError group
      (if is_js
       then "(js-import " ++ DQUOTE ++ "<source>" ++ DQUOTE ++ " (<identifier>*))"
       else "(import " ++ DQUOTE ++ "<source>" ++ DQUOTE ++ " (<identifier>*))")
  else
    let elems := unwrap group in
    src <- at_ elems 1 ;;
    identifiers <- at_ elems 2 ;;
    match src with
    | DGroup sg =>
        throw (ExpectedFormError (Some (loc_start (location sg))) src
                 (DQUOTE ++ "<source>" ++ DQUOTE))
    | DToken st =>
        match type st with
        | STRING =>
            match identifiers with
            | DToken t =>
                throw (ExpectedFormError (Some (pos t)) identifiers
                         "(<identifier>*)")
            | DGroup ig =>
                convertedIdentifiers <- mapM importIdentifier (unwrap ig) ;;
                ret (Atomic_Import (location group)
                       (Atomic_StringLiteral (toLocation st) (literal st))
                       convertedIdentifiers is_js)
            end
        | _ => throw (ExpectedFormError (Some (pos st)) src (DQUOTE ++ "<source>" ++ DQUOTE))
        end
    end.

(** [parseExport(group, is_js = false)] *)
Definition parseExport (group : Grp) (is_js : bool) : P Expression :=
  if negb (Group_length group =? 2) then
    firstTokenError group
      (if is_js then "(js-export (<definition>))"
       else "(export (<definition>))")
  else
    definition <- at_ (unwrap group) 1 ;;
    match definition with
    | DToken t =>
        throw (ExpectedFormError (Some (pos t)) definition "(<definition>)")
    | DGroup dg =>
        convertedDefinition <- parseExpression definition ;;
        match convertedDefinition with
        | Atomic_Definition _ _ _
        | Extended_FunctionDefinition _ _ _ _ _ =>
            ret (Atomic_Export (location group) convertedDefinition is_js)
        | _ =>
            throw (ExpectedFormError (Some (loc_start (location dg)))
                     definition "(<definition>)")
        end
    end.

(** [parseNormalGroup(group)] *)
Definition parseNormalGroup (group : Grp) : P Expression :=
  match unwrap group with
  | [] =>
      throw (ExpectedFormError (Some (loc_start (location group)))
               (DGroup group) "non-empty group")
  | DToken firstElement :: _ =>
      match type firstElement with
      | LAMBDA =>
          validateChapter firstElement BASIC_CHAPTER ;;; parseLambda group
      | DEFINE =>
          validateChapter firstElement BASIC_CHAPTER ;;;
          parseDefinition group
      | IF =>
          validateChapter firstElement BASIC_CHAPTER ;;;
          parseConditional group
      | LET =>
          validateChapter firstElement BASIC_CHAPTER ;;; parseLet group
      | COND =>
          validateChapter firstElement BASIC_CHAPTER ;;;
          parseExtendedCond group
      | QUOTE | APOSTROPHE | QUASIQUOTE | BACKTICK
      | UNQUOTE | COMMA | UNQUOTE_SPLICING | COMMA_AT =>
          validateChapter firstElement QUOTING_CHAPTER ;;;
          parseAffectorGroup group
      | BEGIN =>
          validateChapter firstElement MUTABLE_CHAPTER ;;; parseBegin group
      | DELAY =>
          validateChapter firstElement MUTABLE_CHAPTER ;;; parseDelay group
      | SET =>
          validateChapter firstElement MUTABLE_CHAPTER ;;; parseSet group
      | IMPORT =>
          validateChapter firstElement BASIC_CHAPTER ;;;
          parseImport group false
      | JS_IMPORT =>
          validateChapter firstElement BASIC_CHAPTER ;;;
          parseImport group true
      | EXPORT =>
          validateChapter firstElement BASIC_CHAPTER ;;;
          parseExport group false
      | JS_EXPORT =>
          validateChapter firstElement BASIC_CHAPTER ;;;
          parseExport group true
      | VECTOR =>
          validateChapter firstElement VECTOR_CHAPTER ;;;
          parseAffectorGroup group
      | _ => parseApplication group
      end
  | DGroup _ :: _ => parseApplication group
  end.

(** [parseGroup(group)] *)
Definition parseGroup (group : Grp) : P Expression :=
  if negb (isParenthesized group) then parseAffectorGroup group
  else
    q <- gets quoteMode ;;
    match q with
    | NONE => parseNormalGroup group
    | QUOTE_MODE | QUASIQUOTE_MODE => parseQuotedGroup group
    end.

(** The body of [parseExpression(expr)]. *)
Definition parseExpression_body (expr : Dat) : P Expression :=
  match expr with
  | DToken t => parseToken t
  | DGroup g =>
      match isSingleIdentifier g with
      | Some t => parseToken t
      | None => parseGroup g
      end
  end.

End Methods.

(** [parseExpression(expr)]: one unit of fuel for each nested call. *)
Fixpoint parseExpression (fuel : nat) (expr : Dat) : P Expression :=
  match fuel with
  | O => outOfFuel
  | S fuel' => parseExpression_body (parseExpression fuel') expr
  end.

(** The [while] loop of [parse()], on the local [topElements]. *)
Fixpoint parse_loop (fuel : nat) (topElements : list Expression)
  : P (list Expression) :=
  match fuel with
  | O => outOfFuel
  | S fuel' =>
      p <- gets (fun p => p) ;;
      if isAtEnd p then ret topElements
      else
        match peek p with
        | None => throw JsTypeError
        | Some t =>
            match type t with
            | EOF => ret topElements
            | _ =>
                currentElement <- grouping fuel' None ;;
                match currentElement with
                | None => parse_loop fuel' topElements
                | Some g =>
                    convertedElement <- parseExpression fuel' (DGroup g) ;;
                    parse_loop fuel' (topElements ++ [convertedElement])
                end
            end
        end
  end.

(** [parse()] *)
Definition parse (fuel : nat) : P (list Expression) := parse_loop fuel [].

End Parser.

(** ** Definitions the statements are written with *)

Module ScannerSpec.
Import Scanner.

(** The character the scanner sees at index [i]: the NUL of [peek()] past
    the end. *)
Definition charOrNul (src : string) (i : nat) : string :=
  if String.length src <=? i then NUL else charAt src i.

(** The tokenizer is at the start of a token and the characters from its
    cursor spell [lex], followed by a character that ends a symbol (or by
    the end of the input). *)
Definition nextLexemeIs (t : Tokenizer) (lex : string) : bool :=
  (start t =? current t) &&
  String.eqb (substring (current t) (String.length lex) (source t)) lex &&
  negb (isValidSymbol (charOrNul (source t) (current t + String.length lex))).

(** The tokenizer after it has consumed [lex] and pushed one token of type
    [ty] for it. *)
Definition emitted (t : Tokenizer) (ty : TokenType) (lex : string)
  : Tokenizer :=
  {| source := source t;
     tokens := tokens t ++
       [newToken ty lex LNull (current t) (current t + String.length lex)
          (t_line t) (t_col t + Z.of_nat (String.length lex))];
     start := current t;
     current := current t + String.length lex;
     t_line := t_line t;
     t_col := (t_col t + Z.of_nat (String.length lex))%Z |}.

(** The three lexemes that start like a number and are none, with the
    token type each one gets. *)
Definition notNumbers : list (string * TokenType) :=
  [ (".", DOT); ("-", SYMBOL); ("-.", SYMBOL) ]%string.

(** *** The group invariants *)

(** The first and the last element are a matching delimiter pair. *)
Definition matchingEnds (g : Group TokenType) : bool :=
  match hd_error (elements g), last (map Some (elements g)) None with
  | Some (DToken f), Some (DToken l) => matchingParentheses f l
  | _, _ => false
  end.

Definition isAffector (t : Token TokenType) : bool :=
  match type t with
  | APOSTROPHE | BACKTICK | COMMA | COMMA_AT | HASH => true
  | _ => false
  end.

(** An unparenthesized group as the invariant is worded: an affector token
    and its one target. *)
Definition affectorAndTarget (g : Group TokenType) : bool :=
  match elements g with
  | [DToken a; _] => isAffector a
  | _ => false
  end.

(** An unparenthesized group as [Group.build] leaves it: one data token. *)
Definition singleDataToken (g : Group TokenType) : bool :=
  match elements g with
  | [DToken t] => isDataType t
  | _ => false
  end.

(** An unparenthesized group of either shape. *)
Definition oneOrAffector (g : Group TokenType) : bool :=
  singleDataToken g || affectorAndTarget g.

(** The three invariants, over the shape [unparenthesized] required of a
    group that is not parenthesized. *)
Definition GroupInvariants (unparenthesized : Group TokenType -> bool)
    (g : Group TokenType) : Prop :=
  elements g <> [] /\
  isParenthesized g = matchingEnds g /\
  (isParenthesized g = false -> unparenthesized g = true).

(** The groups among the elements handed to [Group.build] satisfy [I]. *)
Definition groupsSatisfy (I : Group TokenType -> Prop)
    (els : list (Datum TokenType)) : Prop :=
  Forall (fun d => match d with DGroup g => I g | DToken _ => True end) els.

(** A token at index [i] of a one-line source. *)
Definition tk (ty : TokenType) (lex : string) (lit : Literal) (i : nat)
  : Token TokenType :=
  newToken ty lex lit i (i + String.length lex) 1 (Z.of_nat i + 1).

(** *** Positions of characters *)





End ScannerSpec.

Module ParserSpec.
Import Parser.

(** The parser [p] with its quote mode set to [q]. *)
Definition withQuoteMode (q : QuoteMode) (p : SchemeParser) : SchemeParser :=
  {| source := source p; tokens := tokens p; chapter := chapter p;
     current := current p; quoteMode := q |}.

(** The special-form keywords and the quote-family keywords. *)
Definition isKeyword (ty : TokenType) : bool :=
  match ty with
  | IF | LET | COND | ELSE | DEFINE | LAMBDA | SET | BEGIN | DELAY
  | IMPORT | EXPORT | JS_IMPORT | JS_EXPORT
  | QUOTE | QUASIQUOTE | UNQUOTE | UNQUOTE_SPLICING => true
  | _ => false
  end.

Definition isDotToken (d : Dat) : bool :=
  match d with
  | DToken t => match type t with DOT => true | _ => false end
  | DGroup _ => false
  end.

(** The chapter a parenthesized form is gated to, by its leading
    keyword. *)
Definition formChapter (ty : TokenType) : option Z :=
  match ty with
  | LAMBDA | DEFINE | IF | LET | COND
  | IMPORT | JS_IMPORT | EXPORT | JS_EXPORT => Some BASIC_CHAPTER
  | QUOTE | APOSTROPHE | QUASIQUOTE | BACKTICK
  | UNQUOTE | COMMA | UNQUOTE_SPLICING | COMMA_AT => Some QUOTING_CHAPTER
  | BEGIN | DELAY | SET => Some MUTABLE_CHAPTER
  | VECTOR => Some VECTOR_CHAPTER
  | _ => None
  end.

(** The chapter an affector group is gated to, by its affector. *)
Definition affectorChapter (ty : TokenType) : option Z :=
  match ty with
  | QUOTE | APOSTROPHE | QUASIQUOTE | BACKTICK
  | UNQUOTE | COMMA | UNQUOTE_SPLICING | COMMA_AT => Some QUOTING_CHAPTER
  | HASH_VECTOR => Some VECTOR_CHAPTER
  | _ => None
  end.

(** A token of this generation at index [i] of a one-line source. *)
Definition tk (ty : TokenType) (lex : string) (lit : Literal) (i : nat)
  : Tok :=
  newToken ty lex lit i (i + String.length lex) 1 (Z.of_nat i + 1).

(** The tokens of the source [(let ((x 1)) x)]. *)
Definition letTokens : list Tok :=
  [ tk LEFT_PAREN "(" LNull 0; tk LET "let" LNull 1;
    tk LEFT_PAREN "(" LNull 5; tk LEFT_PAREN "(" LNull 6;
    tk IDENTIFIER "x" LNull 7; tk NUMBER "1" (LNumber "1") 9;
    tk RIGHT_PAREN ")" LNull 10; tk RIGHT_PAREN ")" LNull 11;
    tk IDENTIFIER "x" LNull 13; tk RIGHT_PAREN ")" LNull 14;
    tk EOF EmptyString LNull 15 ].

(** The tokens of the source ['x]. *)
Definition quoteTokens : list Tok :=
  [ tk APOSTROPHE "'" LNull 0; tk IDENTIFIER "x" LNull 1; tk EOF EmptyString LNull 2 ].

(** An unparenthesized group of an affector and its target, as [affect]
    builds it. *)
Definition affectorGroup (a : Tok) (target : Dat) (loc : Location) : Grp :=
  mkGroup [DToken a; target] loc.

(** The kind of error an outcome carries, if it is a failure. *)
Definition isUnsupportedToken {A} (r : Result SchemeParser ParserError A)
  : bool :=
  match r with
  | Throw (UnsupportedTokenError _ _) _ => true
  | _ => false
  end.

Definition isUnexpectedForm {A} (r : Result SchemeParser ParserError A)
  : bool :=
  match r with
  | Throw (UnexpectedFormError _ _) _ => true
  | _ => false
  end.

(** The tokens of the source [,@x]. *)
Definition spliceTokens : list Tok :=
  [ tk COMMA_AT ",@" LNull 0; tk IDENTIFIER "x" LNull 2; tk EOF EmptyString LNull 3 ].

(** The tokens of the source [`(unquote-splicing x)]. *)
Definition quasiSpliceTokens : list Tok :=
  [ tk BACKTICK "`" LNull 0; tk LEFT_PAREN "(" LNull 1;
    tk UNQUOTE_SPLICING "unquote-splicing" LNull 2;
    tk IDENTIFIER "x" LNull 19; tk RIGHT_PAREN ")" LNull 20;
    tk EOF EmptyString LNull 21 ].

(** Data that parses under [QUOTE] within [n] nested calls: tokens and
    single-token groups; parenthesized groups of such data; a
    quote-family affector on such a datum; the vector marker on a group
    of such data. *)
Fixpoint wfQuoted (n : nat) (d : Dat) : bool :=
  match n with
  | O => false
  | S n' =>
      match d with
      | DToken _ => true
      | DGroup g =>
          match isSingleIdentifier g with
          | Some _ => true
          | None =>
              if isParenthesized g then forallb (wfQuoted n') (unwrap g)
              else
                match unwrap g with
                | DToken a :: T :: _ =>
                    match type a with
                    | APOSTROPHE | QUOTE | BACKTICK | QUASIQUOTE
                    | COMMA | UNQUOTE | COMMA_AT | UNQUOTE_SPLICING =>
                        wfQuoted n' T
                    | HASH_VECTOR =>
                        match T with
                        | DGroup inner =>
                            forallb (wfQuoted n') (unwrap inner)
                        | DToken _ => false
                        end
                    | _ => false
                    end
                | _ => false
                end
          end
      end
  end.

(** A parse function that leaves the parser as it found it whenever it
    starts under [QUOTE] and returns. *)
Definition QuoteStable (pe : Dat -> P Expression) : Prop :=
  forall d p e p',
    quoteMode p = QUOTE_MODE -> pe d p = Ok e p' -> p' = p.

(** A parse function that returns on [d] under [QUOTE], leaving the
    parser as it found it. *)
Definition ReturnsQuoted (pe : Dat -> P Expression) (d : Dat) : Prop :=
  forall p,
    quoteMode p = QUOTE_MODE ->
    chapter_ltb (chapter p) VECTOR_CHAPTER = false ->
    exists e, pe d p = Ok e p.

(** The vector datums: the vector marker applied to a parenthesized
    group. *)
Definition isVectorDatum (g : Grp) : option (Tok * Grp) :=
  match elements g with
  | [DToken a; DGroup inner] =>
      match type a with
      | HASH_VECTOR => if isParenthesized inner then Some (a, inner) else None
      | _ => None
      end
  | _ => None
  end.

(** *** Laws of every parse

    [sat Pre Thr FuelOk Q m]: started in a state that satisfies [Pre], the
    computation [m] either returns a value that satisfies [Q] in a state
    that satisfies [Pre] again, or throws an error that satisfies [Thr], or
    runs out of fuel when [FuelOk] allows it. *)
Definition sat (Pre : SchemeParser -> Prop) (Thr : ParserError -> Prop)
    (FuelOk : Prop) {A} (Q : A -> Prop) (m : P A) : Prop :=
  forall p, Pre p ->
    match m p with
    | Ok a s => Q a /\ Pre s
    | Throw e _ => Thr e
    | OutOfFuel => FuelOk
    end.

Definition notDisallowed (e : ParserError) : Prop :=
  match e with
  | DisallowedTokenError _ _ _ => False
  | _ => True
  end.

(** The locations of all the nodes of an expression, the root first. *)
Fixpoint allLocations (e : Expression) : list Location :=
  let many := flat_map allLocations in
  let opt (o : option Expression) :=
    match o with Some x => allLocations x | None => [] end in
  match e with
  | Atomic_NumericLiteral l _ | Atomic_BooleanLiteral l _
  | Atomic_StringLiteral l _ | Atomic_Identifier l _ | Atomic_Symbol l _
  | Atomic_Nil l => [l]
  | Atomic_Sequence l es | Atomic_Vector l es | Extended_Begin l es =>
      l :: many es
  | Atomic_Lambda l b ps r => l :: allLocations b ++ many ps ++ opt r
  | Atomic_Definition l n v | Atomic_Reassignment l n v =>
      l :: allLocations n ++ allLocations v
  | Atomic_Conditional l t c a =>
      l :: allLocations t ++ allLocations c ++ allLocations a
  | Atomic_Application l f args => l :: allLocations f ++ many args
  | Atomic_Import l src ids _ => l :: allLocations src ++ many ids
  | Atomic_Export l d _ | Atomic_SpliceMarker l d | Extended_Delay l d =>
      l :: allLocations d
  | Extended_List l es t => l :: many es ++ opt t
  | Extended_FunctionDefinition l n b ps r =>
      l :: allLocations n ++ allLocations b ++ many ps ++ opt r
  | Extended_Let l ids vs b => l :: many ids ++ many vs ++ allLocations b
  | Extended_Cond l ps cs c => l :: many ps ++ many cs ++ opt c
  end.

(** Every node of [e] has a location that satisfies [LocOK]. *)
Definition everyNode (LocOK : Location -> Prop) (e : Expression) : Prop :=
  Forall LocOK (allLocations e).

(** The nesting depth of a datum. *)
Fixpoint depth (d : Dat) : nat :=
  match d with
  | DToken _ => 0
  | DGroup (mkGroup els _) => S (list_max (map depth els))
  end.

(** The tokens of a datum, from left to right, and the locations stored in
    its groups. *)
Fixpoint tokensOf (d : Dat) : list Tok :=
  match d with
  | DToken t => [t]
  | DGroup (mkGroup els _) => flat_map tokensOf els
  end.

Fixpoint groupLocations (d : Dat) : list Location :=
  match d with
  | DToken _ => []
  | DGroup (mkGroup els loc) => loc :: flat_map groupLocations els
  end.

(** The spans that come from the tokens [toks] and from the group
    locations [G]: the span of a token, the location of a group, or the
    merge of two such spans. *)
Inductive spanFrom (toks : list Tok) (G : Location -> Prop)
  : Location -> Prop :=
| fromToken : forall t, In t toks -> spanFrom toks G (toLocation t)
| fromGroup : forall l, G l -> spanFrom toks G l
| fromMerge : forall a b,
    spanFrom toks G a -> spanFrom toks G b -> spanFrom toks G (merge a b).

(** The location the constructor of [Group] gives a group of tokens of
    [toks]: from where one of them starts to where one of them starts. *)
Definition betweenTokens (toks : list Tok) (loc : Location) : Prop :=
  exists f l, In f toks /\ In l toks /\ loc = mkLocation (pos f) (pos l).

(** A span delimited by tokens of [toks]: the span of one of them, the
    location of a group of them, or the merge of two such spans. *)
Definition delimitedBy (toks : list Tok) : Location -> Prop :=
  spanFrom toks (betweenTokens toks).



(** The tokens of [d] are among [toks] and the locations stored in its
    groups are delimited by [toks]. *)
Definition datumWithin (toks : list Tok) (d : Dat) : Prop :=
  incl (tokensOf d) toks /\ Forall (delimitedBy toks) (groupLocations d).





(** The datum of the source [#(x 1)]. *)
Definition vectorInner : Grp :=
  mkGroup [DToken (tk LEFT_PAREN "(" LNull 1);
           DToken (tk IDENTIFIER "x" LNull 2);
           DToken (tk NUMBER "1" (LNumber "1") 4);
           DToken (tk RIGHT_PAREN ")" LNull 5)]
    (mkLocation (mkPosition 1 2) (mkPosition 1 6)).

Definition vectorGroup : Grp :=
  mkGroup [DToken (tk HASH_VECTOR "#" LNull 0); DGroup vectorInner]
    (mkLocation (mkPosition 1 1) (mkPosition 1 6)).

(** The tokens of the source [#(x 1)]. *)
Definition vectorTokens : list Tok :=
  [ tk HASH_VECTOR "#" LNull 0; tk LEFT_PAREN "(" LNull 1;
    tk IDENTIFIER "x" LNull 2; tk NUMBER "1" (LNumber "1") 4;
    tk RIGHT_PAREN ")" LNull 5; tk EOF EmptyString LNull 6 ].

End ParserSpec.

(** ** The entry points *)

Module EntryPoints.

(** What a call comes to: a value, an exception, or a model that ran out
    of fuel. *)
Inductive Outcome (E A : Type) : Type :=
| Returned (a : A)
| Raised (e : E)
| Unfinished.

Arguments Returned {E A} a.
Arguments Raised {E A} e.
Arguments Unfinished {E A}.

(** [schemeParse] of [src/parser/index.ts], over the tokenizer of the
    same directory.  [SExpressionParser] is not among the sources:
    [new SExpressionParser(source, tokens).parse()] is a function of the
    two arguments its constructor receives. *)
Module ParserIndex.
Section SExpression.
Variable R : Type.
Variable SExpressionParser_parse :
  string -> list (Token Scanner.TokenType) -> R.

Definition schemeParse (source : string)
    (chapter : option Parser.Chapter)
  : Outcome Scanner.TokenizerError R :=
  match Scanner.scanTokens (Scanner.newTokenizer source) with
  | Ok toks _ => Returned (SExpressionParser_parse source toks)
  | Throw e _ => Raised e
  | OutOfFuel => Unfinished
  end.
End SExpression.

Arguments schemeParse {R} SExpressionParser_parse source chapter.
End ParserIndex.

(** The other [schemeParse], which hands its [chapter] argument to the
    parser: [new Parser(source, tokenizer.scanTokens(), chapter).parse()].
    The tokenizer of this generation is not among the sources and is a
    parameter; the parser is [SchemeParser], whose constructor defaults
    the chapter to [Infinity]. *)
Module Index.
Section Transpiler.
Variable TokenizerError : Type.
Variable scanTokens : string -> TokenizerError + list Parser.Tok.

Definition schemeParse (fuel : nat) (source : string)
    (chapter : option Parser.Chapter)
  : TokenizerError +
    Result Parser.SchemeParser Parser.ParserError
      (list Parser.Expression) :=
  match scanTokens source with
  | inl e => inl e
  | inr toks =>
      inr (Parser.parse fuel (Parser.newSchemeParser source toks chapter))
  end.
End Transpiler.

Arguments schemeParse {TokenizerError} scanTokens fuel source chapter.
End Index.

End EntryPoints.

(** ** Identifiers of the transpiler

    [encode] and [decode] of the transpiler's index (the second part of
    [src/token-type.ts]), on strings as JavaScript has them. *)

Module Encoding.
Local Open Scope Z_scope.

(** A JavaScript string, as the sequence of its UTF-16 code units. *)
Definition JsString : Type := list Z.

(** A code unit is a number below 2^16. *)
Definition isCodeUnit (c : Z) : bool := (0 <=? c) && (c <? 65536).

Definition DOLLAR : Z := 36.

(** The class [0-9]. *)
Definition isDigit (c : Z) : bool := (48 <=? c) && (c <=? 57).

(** The class [a-zA-Z0-9]. *)
Definition isAlnum (c : Z) : bool :=
  ((97 <=? c) && (c <=? 122)) || ((65 <=? c) && (c <=? 90)) || isDigit c.

Fixpoint uintCodes (u : Decimal.uint) : JsString :=
  match u with
  | Decimal.Nil => []
  | Decimal.D0 u' => 48 :: uintCodes u'
  | Decimal.D1 u' => 49 :: uintCodes u'
  | Decimal.D2 u' => 50 :: uintCodes u'
  | Decimal.D3 u' => 51 :: uintCodes u'
  | Decimal.D4 u' => 52 :: uintCodes u'
  | Decimal.D5 u' => 53 :: uintCodes u'
  | Decimal.D6 u' => 54 :: uintCodes u'
  | Decimal.D7 u' => 55 :: uintCodes u'
  | Decimal.D8 u' => 56 :: uintCodes u'
  | Decimal.D9 u' => 57 :: uintCodes u'
  end.

(** The decimal text of a code unit, as a template literal writes it. *)
Definition numberToString (n : Z) : JsString :=
  uintCodes (N.to_uint (Z.to_N n)).

(** [encode(identifier)]: every code unit outside [a-zA-Z0-9] is replaced
    by its code in decimal between two dollar signs. *)
Definition encode (identifier : JsString) : JsString :=
  flat_map
    (fun c => if isAlnum c then [c]
              else DOLLAR :: numberToString c ++ [DOLLAR])
    identifier.

(** The longest run of digits at the head of a string, and what follows
    it: what the greedy [[0-9]+] consumes. *)
Fixpoint spanDigits (s : JsString) : JsString * JsString :=
  match s with
  | [] => ([], [])
  | c :: r =>
      if isDigit c
      then let '(ds, rest) := spanDigits r in (c :: ds, rest)
      else ([], s)
  end.

(** A match of [/\$([0-9]+)\$/] at the head of a string: the digits it
    captures. *)
Definition matchEscape (s : JsString) : option JsString :=
  match s with
  | c :: r =>
      if c =? DOLLAR then
        match spanDigits r with
        | (d :: ds, c' :: _) => if c' =? DOLLAR then Some (d :: ds) else None
        | _ => None
        end
      else None
  | [] => None
  end.

Fixpoint codesUint (ds : JsString) : Decimal.uint :=
  match ds with
  | [] => Decimal.Nil
  | d :: r =>
      let u := codesUint r in
      match d - 48 with
      | 0 => Decimal.D0 u | 1 => Decimal.D1 u | 2 => Decimal.D2 u
      | 3 => Decimal.D3 u | 4 => Decimal.D4 u | 5 => Decimal.D5 u
      | 6 => Decimal.D6 u | 7 => Decimal.D7 u | 8 => Decimal.D8 u
      | _ => Decimal.D9 u
      end
  end.

(** The Number value of a non-negative integer: the nearest double, ties
    to even; [None] is [Infinity]. *)
Definition toNumber (n : Z) : option Z :=
  if n <? 2 ^ 53 then Some n
  else
    let e := Z.log2 n - 52 in
    let q := n / 2 ^ e in
    let r := n mod 2 ^ e in
    let half := 2 ^ (e - 1) in
    let q' := if (half <? r) || ((r =? half) && Z.odd q) then q + 1 else q in
    let v := q' * 2 ^ e in
    if 2 ^ 1024 <=? v then None else Some v.

(** [parseInt(code)] on a run of decimal digits. *)
Definition parseInt (code : JsString) : option Z :=
  toNumber (Z.of_N (N.of_uint (codesUint code))).

(** [String.fromCharCode(x)]: the code unit [ToUint16(x)]. *)
Definition fromCharCode (x : option Z) : Z :=
  match x with
  | Some v => v mod 65536
  | None => 0
  end.

(** [decode(identifier)]: the global replacement scans from left to
    right; [skip] counts the code units of a match still to pass over. *)
Fixpoint decode_from (skip : nat) (s : JsString) : JsString :=
  match s with
  | [] => []
  | c :: r =>
      match skip with
      | S k => decode_from k r
      | O =>
          match matchEscape s with
          | Some code =>
              fromCharCode (parseInt code)
                :: decode_from (S (List.length code)) r
          | None => c :: decode_from 0 r
          end
      end
  end.

Definition decode (identifier : JsString) : JsString :=
  decode_from 0 identifier.

End Encoding.

(** ** Definitions for the laws of the scanner *)

Module TokenizerSpec.
Import Scanner.

(** The outcome [r] is a return that satisfies [Q] or a throw that
    satisfies [Thr]: the run has ended. *)
Definition yields {A} (Thr : TokenizerError -> Prop)
    (Q : A -> Tokenizer -> Prop)
    (r : Result Tokenizer TokenizerError A) : Prop :=
  match r with
  | Ok a t' => Q a t'
  | Throw e _ => Thr e
  | OutOfFuel => False
  end.

(** The cursor has moved forward, within the source; the tokens and the
    start of the lexeme are as they were. *)
Definition moved (t t' : Tokenizer) : Prop :=
  source t' = source t /\ tokens t' = tokens t /\ start t' = start t /\
  current t <= current t' /\
  current t' <= Nat.max (current t) (String.length (source t)).

(** A digit of the scanner, or the dot. *)
Definition digitOrDot (c : ascii) : bool :=
  isDigit (String c EmptyString) || Ascii.eqb c "."%char.

Fixpoint allDigitsOrDots (s : string) : bool :=
  match s with
  | EmptyString => true
  | String c r => digitOrDot c && allDigitsOrDots r
  end.

Fixpoint countDots (s : string) : nat :=
  match s with
  | EmptyString => 0
  | String c r => (if Ascii.eqb c "."%char then 1 else 0) + countDots r
  end.

Fixpoint hasDigit (s : string) : bool :=
  match s with
  | EmptyString => false
  | String c r => isDigit (String c EmptyString) || hasDigit r
  end.

(** The first character of a numeral. *)
Definition firstOfNumber (c : ascii) : bool :=
  isDigit (String c EmptyString) || Ascii.eqb c "-"%char
  || Ascii.eqb c "."%char.

(** What the flags [validNumber] and [hasDot] of [symbolNumberToken] say
    of the lexeme read so far. *)
Definition numberSoFar (validNumber hasDot : bool) (lex : string) : Prop :=
  validNumber = true ->
  exists c r,
    lex = String c r /\ firstOfNumber c = true /\
    allDigitsOrDots r = true /\
    countDots lex = (if hasDot then 1 else 0).

(** A decimal numeral: a digit, a minus sign or a dot, then digits and
    dots, with at most one dot and at least one digit in all. *)
Definition numberShape (s : string) : bool :=
  match s with
  | EmptyString => false
  | String c r =>
      firstOfNumber c && allDigitsOrDots r && (countDots s <=? 1) && hasDigit s
  end.

(** What holds of a token pushed while scanning [src]: its lexeme is the
    text of the source between its two offsets, which is not empty; it is
    no [EOF]; a [NUMBER] is a decimal numeral. *)
Definition tokenOf (src : string) (tk : Token TokenType) : Prop :=
  lexeme tk = substring (tok_start tk) (tok_end tk - tok_start tk) src /\
  tok_start tk < tok_end tk /\ tok_end tk <= String.length src /\
  type tk <> EOF /\
  (type tk = NUMBER -> numberShape (lexeme tk) = true).

(** Tokens in the order of the source, none overlapping another. *)
Definition inSourceOrder (toks : list (Token TokenType)) : Prop :=
  ForallOrdPairs (fun a b => tok_end a <= tok_start b) toks.

(** The errors of a scan: the end of the input inside a string, a block
    comment or a loose symbol; or the NUL character in the source. *)
Definition scanError (src : string) (e : TokenizerError) : Prop :=
  match e with
  | UnexpectedEOFError _ _ => True
  | UnexpectedCharacterError _ _ c =>
      c = NUL /\ exists i, i < String.length src /\ charAt src i = NUL
  end.

(** The tokenizer between two tokens. *)
Definition Scanned (src : string) (t : Tokenizer) : Prop :=
  source t = src /\ current t <= String.length src /\
  Forall (tokenOf src) (tokens t) /\ inSourceOrder (tokens t) /\
  Forall (fun tk => tok_end tk <= current t) (tokens t).

(** The tokenizer inside a lexeme that starts at [start t]. *)
Definition Scanning (src : string) (t : Tokenizer) : Prop :=
  source t = src /\ start t <= current t /\
  current t <= String.length src /\
  Forall (tokenOf src) (tokens t) /\ inSourceOrder (tokens t) /\
  Forall (fun tk => tok_end tk <= start t) (tokens t).

(** A source of blanks only: spaces, tabs, carriage returns, line
    breaks. *)
Definition isBlank (c : ascii) : bool :=
  Ascii.eqb c " "%char || Ascii.eqb c (ascii_of_nat 13)
  || Ascii.eqb c (ascii_of_nat 9) || Ascii.eqb c (ascii_of_nat 10).

Fixpoint allBlank (s : string) : bool :=
  match s with
  | EmptyString => true
  | String c r => isBlank c && allBlank r
  end.

(** No double quote in [src] from index [i] up to, not including, index
    [j]. *)
Definition noQuoteBetween (src : string) (i j : nat) : bool :=
  forallb (fun k => negb (String.eqb (charAt src k) DQUOTE)) (seq i (j - i)).

(** The block comment that starts at an earlier index is closed at index
    [k]: the two characters there are a bar and a hash. *)
Definition closesComment (src : string) (k : nat) : bool :=
  String.eqb (charAt src k) "|" && String.eqb (charAt src (k + 1)) "#".

(** No block comment is closed from index [i] up to, not including, index
    [j]. *)
Definition notClosedBetween (src : string) (i j : nat) : bool :=
  forallb (fun k => negb (closesComment src k)) (seq i (j - i)).

(** No line break in [src] from index [i] up to, not including, index
    [j]. *)
Definition noBreakBetween (src : string) (i j : nat) : bool :=
  forallb (fun k => negb (String.eqb (charAt src k) LF)) (seq i (j - i)).








(** The tokens a scan of [src] returns. *)
Definition scanned (src : string) : list (Token TokenType) :=
  match scanTokens (newTokenizer src) with
  | Ok toks _ => toks
  | _ => []
  end.

End TokenizerSpec.

(** ** Definitions for the laws of the forms *)

Module FormsSpec.
Import Parser ParserSpec.

(** A computation that, when it returns, leaves the parser as it found
    it. *)
Definition keeps {A} (m : P A) : Prop :=
  forall p, match m p with Ok _ s => s = p | _ => True end.


(** A parenthesized group whose elements, between the delimiters, are
    [els]. *)
Definition listOf (g : Grp) (els : list Dat) : Prop :=
  isParenthesized g = true /\ unwrap g = els.

(** A number of elements, the keyword included, that the form of the
    keyword [ty] does not take. *)
Definition wrongArity (ty : TokenType) (n : nat) : bool :=
  match ty with
  | LAMBDA | DEFINE | LET => n <? 3
  | IF => (n <? 3) || (4 <? n)
  | COND | BEGIN => n <? 2
  | SET | IMPORT | JS_IMPORT => negb (n =? 3)
  | DELAY | EXPORT | JS_EXPORT => negb (n =? 2)
  | _ => false
  end.

Definition isExpectedForm {A} (r : Result SchemeParser ParserError A)
  : bool :=
  match r with
  | Throw (ExpectedFormError _ _ _) _ => true
  | _ => false
  end.

(** The function definition that binds [name] to the lambda expression
    [lam]. *)
Definition asFunctionDefinition (loc : Location) (name : Expression)
    (lam : Expression) : Expression :=
  match lam with
  | Atomic_Lambda _ body params rest =>
      Extended_FunctionDefinition loc name body params rest
  | _ => lam
  end.

(** Tokens that [grouping] adds to a list as they are. *)
Definition isPlain (t : Tok) : bool :=
  match type t with
  | IDENTIFIER | NUMBER | BOOLEAN | STRING => true
  | _ => false
  end.

(** The opening delimiters. *)
Definition isOpening (t : Tok) : bool :=
  match type t with
  | LEFT_PAREN | LEFT_BRACKET => true
  | _ => false
  end.

(** No token the parser has read so far is the keyword [vector]. *)
Definition readClean (p : SchemeParser) : Prop :=
  Forall (fun t => type t <> VECTOR) (firstn (current p) (tokens p)).

(** A computation that keeps the token array and adds no [vector]
    keyword to the tokens read, when it returns. *)
Definition readsClean {A} (m : P A) : Prop :=
  forall p a p',
    readClean p -> m p = Ok a p' ->
    readClean p' /\ tokens p' = tokens p.

(** The parser [p] under the ceiling [c]. *)
Definition withChapter (c : Chapter) (p : SchemeParser) : SchemeParser :=
  {| source := source p; tokens := tokens p; chapter := c;
     current := current p; quoteMode := quoteMode p |}.

(** The ceiling [c'] lets through every chapter that [c] lets through. *)
Definition allowsMore (c c' : Chapter) : Prop :=
  forall k, chapter_ltb c' k = true -> chapter_ltb c k = true.

(** A computation that fares under the ceiling [c'] as it does under
    [c], unless it is stopped by the ceiling [c]. *)
Definition lifts (c c' : Chapter) {A} (m : P A) : Prop :=
  forall p, chapter p = c ->
    match m p with
    | Ok a s => chapter s = c /\ m (withChapter c' p) = Ok a (withChapter c' s)
    | Throw e s =>
        notDisallowed e -> m (withChapter c' p) = Throw e (withChapter c' s)
    | OutOfFuel => True
    end.

(** [c <= c'] on ceilings. *)
Definition chapter_leb (c c' : Chapter) : bool :=
  match c, c' with
  | _, Infinity => true
  | Finite a, Finite b => (a <=? b)%Z
  | Infinity, Finite _ => false
  end.

(** The group of a list written on one line: [els] between two
    parentheses. *)
Definition listGroup (els : list Dat) : Grp :=
  mkGroup
    (DToken (tk LEFT_PAREN "(" LNull 0) :: els
     ++ [DToken (tk RIGHT_PAREN ")" LNull (S (List.length els)))])
    (mkLocation (mkPosition 1 1)
       (mkPosition 1 (Z.of_nat (List.length els) + 2))).

(** A parser in the mode [q] under the ceiling [c], with no tokens. *)
Definition parserIn (q : QuoteMode) (c : Chapter) : SchemeParser :=
  mkSchemeParser "" [] c 0 q.

End FormsSpec.

(** ** Definitions for the end of a parse *)

Module TerminationSpec.
Import Parser ParserSpec.

(** A token array that ends with an [EOF] token, as the scanner leaves
    it. *)
Definition endsWithEOF (toks : list Tok) : bool :=
  match last (map Some toks) None with
  | Some t => match type t with EOF => true | _ => false end
  | None => false
  end.

(** The cursor of [p] has moved forward to that of [p'], short of the end
    of the tokens; nothing else has changed. *)
Definition consumed (p p' : SchemeParser) : Prop :=
  source p' = source p /\ tokens p' = tokens p /\
  chapter p' = chapter p /\ quoteMode p' = quoteMode p /\
  current p < current p' /\ current p' < List.length (tokens p).

(** The nesting of a datum is bounded by the tokens read since the cursor
    was at [c0]. *)
Definition shallow (c0 : nat) (p : SchemeParser) (d : Dat) : Prop :=
  depth d <= 2 * (current p - c0).

End TerminationSpec.

(** ** The scanner: lexemes that are not numbers *)

Module ScannerFacts.
Import Scanner ScannerSpec.

Lemma substring_S_inv : forall i n s [c r],
  substring i (S n) s = String c r ->
  charAt s i = String c EmptyString /\ substring (S i) n s = r /\
  i < String.length s.
Proof.
  induction i as [|i IH]; intros n [|a s] c r H; simpl in H; try discriminate.
  - injection H as -> <-. unfold charAt. simpl.
    repeat split; [destruct s; reflexivity | lia].
  - destruct (IH _ _ _ _ H) as (H1 & H2 & H3).
    repeat split; [exact H1 | exact H2 | simpl; lia].
Qed.

Lemma jsSubstring_span : forall s a n,
  jsSubstring s a (a + n) = substring a n s.
Proof.
  intros. unfold jsSubstring.
  rewrite Nat.min_l, Nat.max_r by lia. f_equal. lia.
Qed.

Lemma peek_charOrNul : forall t, peek t = charOrNul (source t) (current t).
Proof. reflexivity. Qed.

(** The loop of [symbolNumberToken] leaves at once when the next character
    cannot be part of a symbol. *)
Lemma symbolNumberToken_loop_stop : forall fuel t v h,
  isValidSymbol (peek t) = false ->
  symbolNumberToken_loop (S fuel) v h t = Ok (v, h) t.
Proof.
  intros fuel t v h H. simpl. unfold bind, gets. rewrite H. reflexivity.
Qed.

(** One turn of the loop: the character is consumed, with some flags. *)
Lemma symbolNumberToken_loop_step : forall fuel t v h,
  isValidSymbol (peek t) = true ->
  exists v' h',
    symbolNumberToken_loop (S fuel) v h t =
    symbolNumberToken_loop fuel v' h'
      {| source := source t; tokens := tokens t; start := start t;
         current := S (current t); t_line := t_line t;
         t_col := (t_col t + 1)%Z |}.
Proof.
  intros fuel t v h H. simpl. unfold bind at 1. unfold gets at 1.
  rewrite H.
  destruct (if negb (isDigit (peek t))
            then if String.eqb (peek t) "."
                 then if h then (false, h)
                      else if isDigit (peekNext t) || isWhitespace (peekNext t)
                           then (v, true) else (false, h)
                 else (false, h)
            else (v, h)) as [v' h'].
  exists v', h'. reflexivity.
Qed.

(** What [symbolNumberToken] does after its loop when the lexeme is one of
    the three: the flags of the loop are overridden. *)
Lemma symbolNumberToken_finish : forall src toks i n ln col lex ty v,
  In (lex, ty) notNumbers ->
  substring i n src = lex ->
  (t <- gets (fun t => t) ;;
   let lexeme := jsSubstring (source t) (start t) (current t) in
   let validNumber :=
     if String.eqb lexeme "." || String.eqb lexeme "-" ||
        String.eqb lexeme "-."
     then false else v in
   if validNumber then addToken NUMBER (LNumber lexeme)
   else addToken (checkKeyword t) LNull)
    (mkTokenizer src toks i (i + n) ln col)
  = Ok tt (mkTokenizer src (toks ++ [newToken ty lex LNull i (i + n) ln col])
             i (i + n) ln col).
Proof.
  intros src toks i n ln col lex ty v Hin Hs.
  unfold bind at 1, gets at 1. cbn [source start current].
  rewrite jsSubstring_span, Hs.
  assert (Hk : checkKeyword (mkTokenizer src toks i (i + n) ln col) = ty
               /\ (String.eqb lex "." || String.eqb lex "-" ||
                   String.eqb lex "-.") = true).
  { unfold checkKeyword. cbn [source start current].
    rewrite jsSubstring_span, Hs.
    simpl in Hin.
    destruct Hin as [E | [E | [E | []]]]; injection E as <- <-;
      split; reflexivity. }
  destruct Hk as [Hk ->]. cbv iota. rewrite Hk.
  unfold addToken, bind, gets, pushToken, modify.
  cbn [source start current tokens t_line t_col].
  rewrite jsSubstring_span, Hs. reflexivity.
Qed.

(** [symbolNumberToken] after the first character of one of the three
    lexemes has been consumed. *)
Lemma symbolNumberToken_notNumber : forall src toks i ln col lex ty,
  In (lex, ty) notNumbers ->
  substring i (String.length lex) src = lex ->
  isValidSymbol (charOrNul src (i + String.length lex)) = false ->
  symbolNumberToken (mkTokenizer src toks i (S i) ln col)
  = Ok tt (mkTokenizer src
             (toks ++ [newToken ty lex LNull i (i + String.length lex) ln
                         (col + Z.of_nat (String.length lex) - 1)])
             i (i + String.length lex) ln
             (col + Z.of_nat (String.length lex) - 1)).
Proof.
  intros src toks i ln col lex ty Hin Hs Hd.
  unfold symbolNumberToken.
  unfold bind at 1, gets at 1. unfold bind at 1, gets at 1.
  cbn [source]. unfold bind at 1.
  assert (Hloop : exists v h,
    symbolNumberToken_loop (S (String.length src)) true
      (String.eqb (peekPrev (mkTokenizer src toks i (S i) ln col)) ".")
      (mkTokenizer src toks i (S i) ln col)
    = Ok (v, h) (mkTokenizer src toks i (i + String.length lex) ln
                   (col + Z.of_nat (String.length lex) - 1))).
  { simpl in Hin.
    destruct Hin as [E | [E | [E | []]]]; injection E as <- <-;
      cbn [String.length] in *.
    - eexists _, _. rewrite symbolNumberToken_loop_stop.
      + do 2 f_equal; [lia | lia].
      + rewrite peek_charOrNul. cbn [source current].
        replace (S i) with (i + 1) by lia. exact Hd.
    - eexists _, _. rewrite symbolNumberToken_loop_stop.
      + do 2 f_equal; [lia | lia].
      + rewrite peek_charOrNul. cbn [source current].
        replace (S i) with (i + 1) by lia. exact Hd.
    - destruct (substring_S_inv _ _ _ Hs) as (_ & Hs' & _).
      destruct (substring_S_inv _ _ _ Hs') as (Hc' & _ & Hlt).
      destruct (symbolNumberToken_loop_step (String.length src)
                  (mkTokenizer src toks i (S i) ln col) true
                  (String.eqb (peekPrev (mkTokenizer src toks i (S i) ln col)) "."))
        as (v' & h' & Hstep).
      { unfold peek, isAtEnd. cbn [source current].
        destruct (Nat.leb_spec (String.length src) (S i)); [lia |].
        rewrite Hc'. reflexivity. }
      exists v', h'. rewrite Hstep. cbn [source tokens start current t_line t_col].
      destruct (String.length src) as [|m] eqn:Hlen; [lia |].
      rewrite symbolNumberToken_loop_stop.
      + do 2 f_equal; [lia | lia].
      + rewrite peek_charOrNul. cbn [source current].
        replace (S (S i)) with (i + 2) by lia. exact Hd. }
  destruct Hloop as (v & h & ->).
  cbn [fst].
  apply (symbolNumberToken_finish src toks i (String.length lex) ln
           (col + Z.of_nat (String.length lex) - 1) lex ty v Hin Hs).
Qed.

(** C8.  When the next lexeme is exactly [.], [-] or [-.], [scanToken]
    consumes it and pushes one token for it that is not a [NUMBER]: the
    bare dot is found in the keyword table and becomes the [DOT] token,
    [-] and [-.] become generic [SYMBOL] tokens. *)
Theorem scanToken_dot_minus_not_number : forall t lex ty,
  In (lex, ty) notNumbers ->
  nextLexemeIs t lex = true ->
  scanToken t = Ok tt (emitted t ty lex) /\
  ty <> NUMBER /\
  KEYWORDS_get KEYWORDS lex = (if String.eqb lex "." then Some DOT else None).
Proof.
  intros [src toks st i ln col] lex ty Hin H.
  unfold nextLexemeIs in H. cbn [source start current] in H.
  apply andb_prop in H as [H Hd]. apply andb_prop in H as [Hst H].
  apply Nat.eqb_eq in Hst. subst st.
  apply String.eqb_eq in H. apply negb_true_iff in Hd.
  split; [| simpl in Hin;
            destruct Hin as [E | [E | [E | []]]]; injection E as <- <-;
            split; (discriminate || reflexivity)].
  assert (Hc : charAt src i = "."%string \/ charAt src i = "-"%string).
  { simpl in Hin.
    destruct Hin as [E | [E | [E | []]]]; injection E as <- <-;
      destruct (substring_S_inv _ _ _ H) as (Hc & _); auto. }
  unfold scanToken, bind at 1. unfold advance.
  cbn [source current tokens start t_line t_col].
  assert (Hrun := symbolNumberToken_notNumber src toks i ln (col + 1) lex ty Hin H Hd).
  replace (emitted (mkTokenizer src toks i i ln col) ty lex)
    with (mkTokenizer src
            (toks ++ [newToken ty lex LNull i (i + String.length lex) ln
                        (col + 1 + Z.of_nat (String.length lex) - 1)])
            i (i + String.length lex) ln
            (col + 1 + Z.of_nat (String.length lex) - 1)).
  - destruct Hc as [-> | ->]; exact Hrun.
  - unfold emitted. cbn [source current tokens start t_line t_col].
    replace (col + 1 + Z.of_nat (String.length lex) - 1)%Z
      with (col + Z.of_nat (String.length lex))%Z by lia.
    reflexivity.
Qed.

Lemma scanToken_dot_minus_not_number_witness :
  scanToken (mkTokenizer "(a . b)" [] 3 3 1 3)
  = Ok tt (emitted (mkTokenizer "(a . b)" [] 3 3 1 3) DOT ".") /\
  DOT <> NUMBER /\
  KEYWORDS_get KEYWORDS "." = Some DOT.
Proof.
  apply (scanToken_dot_minus_not_number
           (mkTokenizer "(a . b)" [] 3 3 1 3) "." DOT).
  - simpl. left. reflexivity.
  - reflexivity.
Defined.

(** *** The smart constructor of groups *)

Lemma newGroup_elements : forall (els : list (Datum TokenType)) g,
  newGroup els = Some g -> elements g = els.
Proof.
  intros els g H. unfold newGroup in H.
  destruct (hd_error els); [| discriminate].
  destruct (last (map Some els) None); [| discriminate].
  destruct (firstTokenOf d); [| discriminate].
  destruct (lastTokenOf d0); [| discriminate].
  injection H as <-. reflexivity.
Qed.

Lemma construct_elements : forall els g,
  construct els = inr g -> elements g = els.
Proof.
  intros els g H. unfold construct in H.
  destruct (newGroup els) eqn:E; [| discriminate].
  injection H as <-. apply newGroup_elements. exact E.
Qed.

(** The claim as written fails: a lone number is accepted as an
    unparenthesized group of one element, and an apostrophe with its
    target is rejected. *)
Lemma build_accepts_single_data_token :
  let n := DToken (tk NUMBER "42" (LNumber "42") 0) in
  let g := mkGroup [n] (mkLocation (mkPosition 1 1) (mkPosition 1 1)) in
  Group_build [n] = inr g /\
  isParenthesized g = false /\
  List.length (elements g) = 1 /\
  affectorAndTarget g = false /\
  Group_build [DToken (tk APOSTROPHE "'" LNull 0);
               DToken (tk SYMBOL "x" LNull 1)] = inl InvalidGroup.
Proof. repeat split. Qed.

Lemma build_invariants_single : forall els g,
  groupsSatisfy (GroupInvariants singleDataToken) els ->
  Group_build els = inr g ->
  GroupInvariants singleDataToken g.
Proof.
  intros els g Hels H. unfold Group_build in H.
  destruct els as [|d [|d' els']]; [discriminate | |].
  - destruct d as [t|g'].
    + destruct (isDataType t) eqn:Hd; [| discriminate]. cbn [negb] in H.
      apply construct_elements in H.
      unfold GroupInvariants, isParenthesized, matchingEnds,
        singleDataToken.
      rewrite H. cbn [hd_error map last].
      split; [discriminate | split; [| intros _; exact Hd]].
      unfold isDataType in Hd. unfold matchingParentheses.
      destruct (type t); try discriminate Hd; reflexivity.
    + injection H as <-. inversion Hels. assumption.
  - destruct d as [f|?]; [| discriminate].
    destruct (last (map Some (DToken f :: d' :: els')) None)
      as [[l|?]|] eqn:Hl; try discriminate.
    destruct (matchingParentheses f l) eqn:Hm; [| discriminate].
    apply construct_elements in H.
    unfold GroupInvariants, isParenthesized, matchingEnds, singleDataToken.
    rewrite H, Hl. cbn [hd_error]. rewrite Hm.
    unfold matchingParentheses in Hm.
    destruct (type f); try discriminate Hm;
      repeat split; (discriminate || reflexivity).
Qed.

Lemma build_rejects_affector : forall a target,
  isAffector a = true ->
  Group_build [DToken a; target] = inl InvalidGroup.
Proof.
  intros a target Ha. unfold Group_build. cbn.
  unfold isAffector in Ha. unfold matchingParentheses.
  destruct target as [l|?]; [| reflexivity].
  destruct (type a); try discriminate Ha; reflexivity.
Qed.

Lemma invariants_weaken : forall g,
  GroupInvariants singleDataToken g -> GroupInvariants oneOrAffector g.
Proof.
  intros g (H1 & H2 & H3). repeat split; auto.
  intros Hp. unfold oneOrAffector. rewrite (H3 Hp). reflexivity.
Qed.

(** C7 (amended).  Every group [Group.build] returns satisfies: it is not
    empty; it is parenthesized exactly when its first and last elements
    are a matching delimiter pair; and when it is not parenthesized it
    holds either exactly one element, a data token (symbol, number, string
    or boolean), or exactly two, an affector token and its target.  Of the
    two, [Group.build] of [grouping.ts] only ever builds the first: it
    rejects an affector token followed by a target.  The groups among the
    elements are taken to come from [Group.build] themselves. *)
Theorem build_invariants :
  (forall els g,
     groupsSatisfy (GroupInvariants singleDataToken) els ->
     Group_build els = inr g ->
     GroupInvariants oneOrAffector g /\ GroupInvariants singleDataToken g) /\
  (forall a target,
     isAffector a = true ->
     Group_build [DToken a; target] = inl InvalidGroup).
Proof.
  split; [| exact build_rejects_affector].
  intros els g Hels H.
  pose proof (build_invariants_single els g Hels H) as Hs.
  split; [apply invariants_weaken |]; exact Hs.
Qed.

Lemma build_invariants_witness :
  let els := [DToken (tk LEFT_PAREN "(" LNull 0);
              DToken (tk SYMBOL "f" LNull 1);
              DToken (tk RIGHT_PAREN ")" LNull 2)] in
  let g := mkGroup els (mkLocation (mkPosition 1 1) (mkPosition 1 3)) in
  GroupInvariants oneOrAffector g /\ GroupInvariants singleDataToken g.
Proof.
  intros els g.
  apply (proj1 build_invariants els g).
  - repeat constructor.
  - reflexivity.
Defined.

End ScannerFacts.

(** ** The semantic parser *)

Module ParserFacts.
Import Parser ParserSpec.

Lemma withQuoteMode_same : forall p, withQuoteMode (quoteMode p) p = p.
Proof. intros []. reflexivity. Qed.

Lemma withQuoteMode_twice : forall q q' p,
  withQuoteMode q (withQuoteMode q' p) = withQuoteMode q p.
Proof. reflexivity. Qed.

Lemma validateChapter_ok : forall c ch p,
  chapter_ltb (chapter p) ch = false -> validateChapter c ch p = Ok tt p.
Proof.
  intros c ch p H. unfold validateChapter, bind, gets. rewrite H. reflexivity.
Qed.

Lemma validateChapter_throw : forall c ch p,
  chapter_ltb (chapter p) ch = true ->
  validateChapter c ch p = Throw (DisallowedTokenError (pos c) c (chapter p)) p.
Proof.
  intros c ch p H. unfold validateChapter, bind, gets. rewrite H. reflexivity.
Qed.

(** [parseToken] under a quotation never fails on anything but the four
    atom types, and yields a symbol with the lexeme. *)
Lemma parseToken_keyword : forall t p,
  isKeyword (type t) = true ->
  parseToken t p =
  if isNONE (quoteMode p)
  then Throw (UnexpectedFormError (Some (pos t)) (DToken t)) p
  else Ok (Atomic_Symbol (toLocation t) (lexeme t)) p.
Proof.
  intros t p H. unfold parseToken.
  destruct (type t); try discriminate H;
    unfold bind, gets; destruct (quoteMode p); reflexivity.
Qed.

(** C10.  A special-form keyword token parsed as a datum is a symbol with
    the token's lexeme under [QUOTE] and under [QUASIQUOTE], and an
    [UnexpectedFormError] under [NONE]. *)
Theorem keyword_token_as_datum : forall fuel t p,
  isKeyword (type t) = true ->
  (quoteMode p <> NONE ->
   parseExpression (S fuel) (DToken t) p
   = Ok (Atomic_Symbol (toLocation t) (lexeme t)) p) /\
  (quoteMode p = NONE ->
   parseExpression (S fuel) (DToken t) p
   = Throw (UnexpectedFormError (Some (pos t)) (DToken t)) p).
Proof.
  intros fuel t p H. cbn [parseExpression parseExpression_body].
  rewrite (parseToken_keyword t p H).
  split; intros Hq.
  - destruct (quoteMode p); [contradiction | reflexivity | reflexivity].
  - rewrite Hq. reflexivity.
Qed.

Lemma keyword_token_as_datum_witness :
  parseExpression 1 (DToken (tk IF "if" LNull 0))
    (withQuoteMode QUASIQUOTE_MODE (newSchemeParser "`(if)" [] None))
  = Ok (Atomic_Symbol (toLocation (tk IF "if" LNull 0)) "if")
      (withQuoteMode QUASIQUOTE_MODE (newSchemeParser "`(if)" [] None)).
Proof.
  apply (keyword_token_as_datum 0 (tk IF "if" LNull 0)
           (withQuoteMode QUASIQUOTE_MODE (newSchemeParser "`(if)" [] None))).
  - reflexivity.
  - discriminate.
Defined.

(** *** The quoting contract on identifiers *)

Lemma parseToken_identifier : forall x p,
  type x = IDENTIFIER ->
  parseToken x p =
  Ok (if isNONE (quoteMode p)
      then Atomic_Identifier (toLocation x) (lexeme x)
      else Atomic_Symbol (toLocation x) (lexeme x)) p.
Proof.
  intros x p H. unfold parseToken. rewrite H. reflexivity.
Qed.

(** An apostrophe group outside any quotation: the target is parsed under
    [QUOTE] and the mode is back to [NONE] afterwards. *)
Lemma parseAffectorGroup_quote_NONE : forall pe g a target p,
  nth_error (unwrap g) 0 = Some (DToken a) ->
  nth_error (unwrap g) 1 = Some target ->
  type a = APOSTROPHE \/ type a = QUOTE ->
  chapter_ltb (chapter p) QUOTING_CHAPTER = false ->
  quoteMode p = NONE ->
  parseAffectorGroup pe g p =
  match pe target (withQuoteMode QUOTE_MODE p) with
  | Ok e p' => Ok e (withQuoteMode NONE p')
  | Throw e p' => Throw e p'
  | OutOfFuel => OutOfFuel
  end.
Proof.
  intros pe g a target p H0 H1 Hty Hch Hq.
  unfold parseAffectorGroup. rewrite H0, H1.
  destruct Hty as [Hty | Hty]; rewrite Hty;
    unfold bind at 1; rewrite (validateChapter_ok a _ p Hch);
    unfold bind at 1, gets at 1; rewrite Hq; cbn [isNONE negb];
    unfold bind, setQuoteMode, modify, parseExpression', ret;
    fold (withQuoteMode QUOTE_MODE p);
    destruct (pe target (withQuoteMode QUOTE_MODE p)); reflexivity.
Qed.

(** The source [x] through the whole parser, under any ceiling: the token
    sequence goes through [grouping], which wraps the token, and
    [parseExpression], and leaves one identifier. *)
Lemma parse_identifier : forall fuel src x e ch,
  type x = IDENTIFIER -> type e = EOF ->
  parse (S (S (S fuel))) (newSchemeParser src [x; e] ch)
  = Ok [Atomic_Identifier (toLocation x) (lexeme x)]
      (mkSchemeParser src [x; e]
         (chapter (newSchemeParser src [x; e] ch)) 1 NONE).
Proof.
  intros fuel src [xty xl xi xs xe xp xep] [ety el ei es ee ep eep] ch Hx He.
  cbn in Hx, He. subst xty ety.
  unfold parse, newSchemeParser. destruct ch; reflexivity.
Qed.

(** The same law through the whole parser: the token sequence of ['x]
    goes through [grouping] and [parseExpression] and leaves one symbol. *)
Lemma parse_quoted_identifier : forall fuel src a x e ch,
  type a = APOSTROPHE -> type x = IDENTIFIER -> type e = EOF ->
  chapter_ltb ch QUOTING_CHAPTER = false ->
  parse (S (S (S fuel))) (newSchemeParser src [a; x; e] (Some ch))
  = Ok [Atomic_Symbol (toLocation x) (lexeme x)]
      (mkSchemeParser src [a; x; e] ch 2 NONE).
Proof.
  intros fuel src [aty al ai as_ ae ap aep] [xty xl xi xs xe xp xep]
    [ety el ei es ee ep eep] ch Ha Hx He Hch.
  cbn in Ha, Hx, He. subst aty xty ety.
  unfold parse, newSchemeParser.
  cbn -[chapter_ltb]. unfold validateChapter, bind, gets.
  cbn -[chapter_ltb]. rewrite Hch. reflexivity.
Qed.

(** C1.  With quote mode [NONE], under every chapter ceiling, an
    identifier token [x] parsed as a datum (bare, or wrapped as a
    single-token group as the grouper leaves it) is an [Identifier] node
    with the lexeme of [x]; so is the source [x] through [parse].  With
    a chapter ceiling of at least 2 the datum ['x], the apostrophe
    grouped with [x] (bare or wrapped), is a [Symbol] node with the same
    lexeme, and the mode is [NONE] again afterwards; so is the source
    ['x] through [parse]. *)
Theorem quote_mode_law :
  (forall fuel p x loc',
     type x = IDENTIFIER ->
     quoteMode p = NONE ->
     parseExpression (S fuel) (DToken x) p
     = Ok (Atomic_Identifier (toLocation x) (lexeme x)) p /\
     parseExpression (S fuel) (DGroup (mkGroup [DToken x] loc')) p
     = Ok (Atomic_Identifier (toLocation x) (lexeme x)) p) /\
  (forall fuel src x e ch,
     type x = IDENTIFIER -> type e = EOF ->
     parse (S (S (S fuel))) (newSchemeParser src [x; e] ch)
     = Ok [Atomic_Identifier (toLocation x) (lexeme x)]
         (mkSchemeParser src [x; e]
            (chapter (newSchemeParser src [x; e] ch)) 1 NONE)) /\
  (forall fuel p x a loc loc',
     type x = IDENTIFIER ->
     type a = APOSTROPHE ->
     quoteMode p = NONE ->
     chapter_ltb (chapter p) QUOTING_CHAPTER = false ->
     parseExpression (S (S fuel)) (DGroup (affectorGroup a (DToken x) loc)) p
     = Ok (Atomic_Symbol (toLocation x) (lexeme x)) p /\
     parseExpression (S (S fuel))
       (DGroup (affectorGroup a (DGroup (mkGroup [DToken x] loc')) loc)) p
     = Ok (Atomic_Symbol (toLocation x) (lexeme x)) p) /\
  (forall fuel src a x e ch,
     type a = APOSTROPHE -> type x = IDENTIFIER -> type e = EOF ->
     chapter_ltb ch QUOTING_CHAPTER = false ->
     parse (S (S (S fuel))) (newSchemeParser src [a; x; e] (Some ch))
     = Ok [Atomic_Symbol (toLocation x) (lexeme x)]
         (mkSchemeParser src [a; x; e] ch 2 NONE)).
Proof.
  assert (Hxp : forall x loc', type x = IDENTIFIER ->
            isParenthesized (mkGroup [DToken x] loc') = false).
  { intros x loc' Hx. unfold isParenthesized. cbn. rewrite Hx. reflexivity. }
  split; [| split; [exact parse_identifier
                      | split; [| exact parse_quoted_identifier]]].
  - intros fuel p x loc' Hx Hq.
    cbn [parseExpression parseExpression_body].
    unfold isSingleIdentifier. rewrite (Hxp x loc' Hx). cbn [elements].
    rewrite (parseToken_identifier x p Hx), Hq. split; reflexivity.
  - intros fuel p x a loc loc' Hx Ha Hq Hch.
    assert (Hnp : forall t, isParenthesized (affectorGroup a t loc) = false).
    { intros t. unfold isParenthesized, affectorGroup. cbn. rewrite Ha.
      reflexivity. }
    assert (Hback : withQuoteMode NONE (withQuoteMode QUOTE_MODE p) = p).
    { rewrite withQuoteMode_twice, <- Hq. apply withQuoteMode_same. }
    split.
    + change (parseExpression (S (S fuel))
                (DGroup (affectorGroup a (DToken x) loc)) p)
        with (parseExpression_body (parseExpression (S fuel))
                (DGroup (affectorGroup a (DToken x) loc)) p).
      unfold parseExpression_body, isSingleIdentifier. rewrite Hnp.
      cbn [elements affectorGroup]. unfold parseGroup. rewrite Hnp.
      cbn [negb].
      rewrite (parseAffectorGroup_quote_NONE (parseExpression (S fuel))
                 (affectorGroup a (DToken x) loc) a (DToken x) p);
        try (unfold unwrap; rewrite Hnp; reflexivity); auto.
      cbn [parseExpression parseExpression_body].
      rewrite (parseToken_identifier x _ Hx). cbn. rewrite Hback.
      reflexivity.
    + change (parseExpression (S (S fuel))
                (DGroup (affectorGroup a (DGroup (mkGroup [DToken x] loc')) loc)) p)
        with (parseExpression_body (parseExpression (S fuel))
                (DGroup (affectorGroup a (DGroup (mkGroup [DToken x] loc')) loc)) p).
      unfold parseExpression_body at 1, isSingleIdentifier. rewrite Hnp.
      cbn [elements affectorGroup]. unfold parseGroup. rewrite Hnp.
      cbn [negb].
      rewrite (parseAffectorGroup_quote_NONE (parseExpression (S fuel))
                 (affectorGroup a (DGroup (mkGroup [DToken x] loc')) loc) a
                 (DGroup (mkGroup [DToken x] loc')) p);
        try (unfold unwrap; rewrite Hnp; reflexivity); auto.
      cbn [parseExpression parseExpression_body].
      unfold isSingleIdentifier. rewrite (Hxp x loc' Hx). cbn [elements].
      rewrite (parseToken_identifier x _ Hx). cbn. rewrite Hback.
      reflexivity.
Qed.

Lemma quote_mode_law_witness :
  (parseExpression 1 (DToken (tk IDENTIFIER "x" LNull 0))
     (newSchemeParser "x" [] (Some (Finite 1)))
   = Ok (Atomic_Identifier (toLocation (tk IDENTIFIER "x" LNull 0)) "x")
       (newSchemeParser "x" [] (Some (Finite 1))) /\
   parseExpression 1
     (DGroup (mkGroup [DToken (tk IDENTIFIER "x" LNull 0)]
                (mkLocation (mkPosition 1 1) (mkPosition 1 1))))
     (newSchemeParser "x" [] (Some (Finite 1)))
   = Ok (Atomic_Identifier (toLocation (tk IDENTIFIER "x" LNull 0)) "x")
       (newSchemeParser "x" [] (Some (Finite 1)))) /\
  (parseExpression 2
     (DGroup (affectorGroup (tk APOSTROPHE "'" LNull 0)
                (DToken (tk IDENTIFIER "x" LNull 1))
                (mkLocation (mkPosition 1 1) (mkPosition 1 2))))
     (newSchemeParser "'x" quoteTokens (Some (Finite 2)))
   = Ok (Atomic_Symbol (toLocation (tk IDENTIFIER "x" LNull 1)) "x")
       (newSchemeParser "'x" quoteTokens (Some (Finite 2))) /\
   parseExpression 2
     (DGroup (affectorGroup (tk APOSTROPHE "'" LNull 0)
                (DGroup (mkGroup [DToken (tk IDENTIFIER "x" LNull 1)]
                           (mkLocation (mkPosition 1 2) (mkPosition 1 2))))
                (mkLocation (mkPosition 1 1) (mkPosition 1 2))))
     (newSchemeParser "'x" quoteTokens (Some (Finite 2)))
   = Ok (Atomic_Symbol (toLocation (tk IDENTIFIER "x" LNull 1)) "x")
       (newSchemeParser "'x" quoteTokens (Some (Finite 2)))).
Proof.
  split.
  - apply (proj1 quote_mode_law 0
             (newSchemeParser "x" [] (Some (Finite 1)))
             (tk IDENTIFIER "x" LNull 0)
             (mkLocation (mkPosition 1 1) (mkPosition 1 1)));
      reflexivity.
  - apply (proj1 (proj2 (proj2 quote_mode_law)) 0
             (newSchemeParser "'x" quoteTokens (Some (Finite 2)))
             (tk IDENTIFIER "x" LNull 1) (tk APOSTROPHE "'" LNull 0)
             (mkLocation (mkPosition 1 1) (mkPosition 1 2))
             (mkLocation (mkPosition 1 2) (mkPosition 1 2)));
      reflexivity.
Defined.

(** *** Destructuring a list *)

Section DestructureList.
Variable pe : Dat -> P Expression.
Variable verifier : Dat -> P unit.

Lemma nth_error_snoc2 : forall (pre : list Dat) d c,
  nth_error (pre ++ [d; c]) (List.length (pre ++ [d; c]) - 2) = Some d /\
  nth_error (pre ++ [d; c]) (List.length (pre ++ [d; c]) - 1) = Some c /\
  firstn (List.length (pre ++ [d; c]) - 2) (pre ++ [d; c]) = pre.
Proof.
  intros pre d c. rewrite length_app. cbn [List.length].
  replace (List.length pre + 2 - 2) with (List.length pre + 0) by lia.
  replace (List.length pre + 2 - 1) with (List.length pre + 1) by lia.
  repeat split.
  - rewrite nth_error_app2 by lia.
    replace (List.length pre + 0 - List.length pre) with 0 by lia.
    reflexivity.
  - rewrite nth_error_app2 by lia.
    replace (List.length pre + 1 - List.length pre) with 1 by lia.
    reflexivity.
  - rewrite firstn_app.
    replace (List.length pre + 0 - List.length pre) with 0 by lia.
    rewrite Nat.add_0_r, firstn_all. cbn. apply app_nil_r.
Qed.

(** On two elements or more the third case of [destructureList] runs. *)
Lemma destructureList_long : forall pre d c,
  destructureList pe (pre ++ [d; c]) verifier =
  if isDotToken d then
    verifier c ;;;
    forEachM verifier pre ;;;
    es <- mapM pe pre ;;
    cdr <- pe c ;;
    ret (es, Some cdr)
  else
    forEachM verifier (pre ++ [d; c]) ;;;
    es <- mapM pe (pre ++ [d; c]) ;;
    ret (es, None).
Proof.
  intros pre d c.
  destruct (nth_error_snoc2 pre d c) as (H2 & H1 & Hf).
  assert (E : destructureList pe (pre ++ [d; c]) verifier =
    match nth_error (pre ++ [d; c]) (List.length (pre ++ [d; c]) - 2),
          nth_error (pre ++ [d; c]) (List.length (pre ++ [d; c]) - 1) with
    | Some potentialDot, Some cdrElement =>
        if isDotToken potentialDot then
          verifier cdrElement ;;;
          forEachM verifier
            (firstn (List.length (pre ++ [d; c]) - 2) (pre ++ [d; c])) ;;;
          es <- mapM pe
            (firstn (List.length (pre ++ [d; c]) - 2) (pre ++ [d; c])) ;;
          cdr <- pe cdrElement ;;
          ret (es, Some cdr)
        else
          forEachM verifier (pre ++ [d; c]) ;;;
          es <- mapM pe (pre ++ [d; c]) ;;
          ret (es, None)
    | _, _ => throw JsTypeError
    end).
  { destruct pre as [|x [|y pre]]; reflexivity. }
  rewrite E, H2, H1, Hf. reflexivity.
Qed.

(** C2.  [destructureList] returns the empty prefix and no tail on the
    empty list; the one parsed element and no tail on a singleton; on a
    longer list it looks at the element before the last: when that is
    the [DOT] token the last element is parsed as the tail and the
    elements before the dot as the prefix, otherwise the whole list is
    the prefix and there is no tail.  So [[a; b; DOT; c]] gives the
    prefix of [a] and [b] and the tail [c]. *)
Theorem destructureList_law :
  (forall p, destructureList pe [] verifier p = Ok ([], None) p) /\
  (forall a p,
     destructureList pe [a] verifier p =
     (verifier a ;;; e <- pe a ;; ret ([e], None)) p) /\
  (forall pre d c p,
     isDotToken d = true ->
     destructureList pe (pre ++ [d; c]) verifier p =
     (verifier c ;;; forEachM verifier pre ;;;
      es <- mapM pe pre ;; cdr <- pe c ;; ret (es, Some cdr)) p) /\
  (forall pre d c p,
     isDotToken d = false ->
     destructureList pe (pre ++ [d; c]) verifier p =
     (forEachM verifier (pre ++ [d; c]) ;;;
      es <- mapM pe (pre ++ [d; c]) ;; ret (es, None)) p) /\
  (forall a b d c ea eb ec p p1 p2 p3,
     isDotToken d = true ->
     (forall x q, verifier x q = Ok tt q) ->
     pe a p = Ok ea p1 -> pe b p1 = Ok eb p2 -> pe c p2 = Ok ec p3 ->
     destructureList pe [a; b; d; c] verifier p
     = Ok ([ea; eb], Some ec) p3).
Proof.
  repeat split.
  - intros pre d c p Hd. rewrite destructureList_long, Hd. reflexivity.
  - intros pre d c p Hd. rewrite destructureList_long, Hd. reflexivity.
  - intros a b d c ea eb ec p p1 p2 p3 Hd Hv Ha Hb Hc.
    change [a; b; d; c] with ([a; b] ++ [d; c]).
    rewrite (destructureList_long [a; b] d c), Hd.
    unfold bind, ret. cbn [forEachM mapM]. unfold bind, ret.
    rewrite !Hv, Ha, Hb, Hc. reflexivity.
Qed.
End DestructureList.

Lemma destructureList_law_witness :
  let a := DToken (tk IDENTIFIER "a" LNull 1) in
  let b := DToken (tk IDENTIFIER "b" LNull 3) in
  let d := DToken (tk DOT "." LNull 5) in
  let c := DToken (tk IDENTIFIER "c" LNull 7) in
  let p := withQuoteMode QUOTE_MODE (newSchemeParser "'(a b . c)" [] None) in
  destructureList (parseExpression 1) [a; b; d; c] noVerifier p
  = Ok ([Atomic_Symbol (toLocation (tk IDENTIFIER "a" LNull 1)) "a";
         Atomic_Symbol (toLocation (tk IDENTIFIER "b" LNull 3)) "b"],
        Some (Atomic_Symbol (toLocation (tk IDENTIFIER "c" LNull 7)) "c")) p.
Proof.
  intros a b d c p.
  apply (proj2 (proj2 (proj2 (proj2
           (destructureList_law (parseExpression 1) noVerifier))))
           a b d c _ _ _ p p p p);
    reflexivity.
Defined.

(** *** The groups [affect] builds *)

(** In the parser generation an affector token and its target form an
    unparenthesized group of exactly these two elements. *)
Lemma affect_builds_pair : forall a target p g p',
  affect a target p = Ok g p' ->
  isShortAffector a = true ->
  elements g = [DToken a; target] /\ isParenthesized g = false /\ p' = p.
Proof.
  intros a target p g p' H Ha. unfold affect, Group_build in H.
  rewrite Ha in H. unfold liftBuild, construct in H.
  destruct (newGroup [DToken a; target]) as [g0|] eqn:E; [| discriminate].
  injection H as <- <-.
  unfold newGroup in E. cbn [hd_error map last] in E.
  destruct (firstTokenOf (DToken a)); [| discriminate].
  destruct (lastTokenOf target); [| discriminate].
  injection E as <-. cbn [elements]. repeat split.
  unfold isParenthesized. cbn [elements hd_error].
  unfold isShortAffector in Ha. destruct (type a); try discriminate; reflexivity.
Qed.

(** *** Chapter gating *)

Lemma parenthesized_not_single : forall g,
  isParenthesized g = true -> isSingleIdentifier g = None.
Proof. intros g H. unfold isSingleIdentifier. rewrite H. reflexivity. Qed.

(** A parenthesized form outside any quotation whose leading keyword is
    gated above the ceiling. *)
Lemma gated_form_disallowed : forall fuel p g first rest c,
  isParenthesized g = true ->
  quoteMode p = NONE ->
  unwrap g = DToken first :: rest ->
  formChapter (type first) = Some c ->
  chapter_ltb (chapter p) c = true ->
  parseExpression (S fuel) (DGroup g) p
  = Throw (DisallowedTokenError (pos first) first (chapter p)) p.
Proof.
  intros fuel p g first rest c Hp Hq Hu Hc Hlt.
  cbn [parseExpression parseExpression_body].
  rewrite (parenthesized_not_single g Hp).
  unfold parseGroup. rewrite Hp. cbn [negb].
  unfold bind at 1, gets at 1. rewrite Hq.
  unfold parseNormalGroup. rewrite Hu.
  destruct (type first); try discriminate Hc;
    injection Hc as <-; unfold bind at 1;
    rewrite (validateChapter_throw first _ p Hlt); reflexivity.
Qed.

(** An affector group, in any mode, whose affector is gated above the
    ceiling. *)
Lemma gated_affector_disallowed : forall fuel p g a c,
  isParenthesized g = false ->
  isSingleIdentifier g = None ->
  nth_error (unwrap g) 0 = Some (DToken a) ->
  affectorChapter (type a) = Some c ->
  chapter_ltb (chapter p) c = true ->
  parseExpression (S fuel) (DGroup g) p
  = Throw (DisallowedTokenError (pos a) a (chapter p)) p.
Proof.
  intros fuel p g a c Hp Hs Hu Hc Hlt.
  cbn [parseExpression parseExpression_body]. rewrite Hs.
  unfold parseGroup. rewrite Hp. cbn [negb].
  unfold parseAffectorGroup. rewrite Hu.
  destruct (type a); try discriminate Hc;
    injection Hc as <-; unfold bind at 1;
    rewrite (validateChapter_throw a _ p Hlt); reflexivity.
Qed.

(** C3.  With the chapter ceiling at 1 the source [(let ((x 1)) x)] parses
    to one [Let] node and the source ['x] raises [DisallowedTokenError];
    in general a parenthesized form led by a keyword, or an affector
    group, whose chapter exceeds the ceiling raises
    [DisallowedTokenError] at that token. *)
Theorem chapter_gating :
  (forall fuel,
     parse (8 + fuel)
       (newSchemeParser "(let ((x 1)) x)" letTokens (Some (Finite 1)))
     = Ok [Extended_Let
             (mkLocation (mkPosition 1 1) (mkPosition 1 15))
             [Atomic_Identifier
                (mkLocation (mkPosition 1 8) (mkPosition 1 8)) "x"]
             [Atomic_NumericLiteral
                (mkLocation (mkPosition 1 10) (mkPosition 1 10))
                (LNumber "1")]
             (Atomic_Identifier
                (mkLocation (mkPosition 1 14) (mkPosition 1 14)) "x")]
         (mkSchemeParser "(let ((x 1)) x)" letTokens (Finite 1) 10 NONE)) /\
  (forall fuel,
     parse (3 + fuel) (newSchemeParser "'x" quoteTokens (Some (Finite 1)))
     = Throw (DisallowedTokenError (mkPosition 1 1)
                (tk APOSTROPHE "'" LNull 0) (Finite 1))
         (mkSchemeParser "'x" quoteTokens (Finite 1) 2 NONE)) /\
  (forall fuel p g first rest c,
     isParenthesized g = true ->
     quoteMode p = NONE ->
     unwrap g = DToken first :: rest ->
     formChapter (type first) = Some c ->
     chapter_ltb (chapter p) c = true ->
     parseExpression (S fuel) (DGroup g) p
     = Throw (DisallowedTokenError (pos first) first (chapter p)) p) /\
  (forall fuel p g a c,
     isParenthesized g = false ->
     isSingleIdentifier g = None ->
     nth_error (unwrap g) 0 = Some (DToken a) ->
     affectorChapter (type a) = Some c ->
     chapter_ltb (chapter p) c = true ->
     parseExpression (S fuel) (DGroup g) p
     = Throw (DisallowedTokenError (pos a) a (chapter p)) p).
Proof.
  split; [| split; [| split]].
  - intros fuel. vm_compute. reflexivity.
  - intros fuel. vm_compute. reflexivity.
  - exact gated_form_disallowed.
  - exact gated_affector_disallowed.
Qed.

Lemma chapter_gating_witness :
  let g := mkGroup [DToken (tk LEFT_PAREN "(" LNull 0);
                    DToken (tk SET "set!" LNull 1);
                    DToken (tk IDENTIFIER "x" LNull 6);
                    DToken (tk NUMBER "1" (LNumber "1") 8);
                    DToken (tk RIGHT_PAREN ")" LNull 9)]
             (mkLocation (mkPosition 1 1) (mkPosition 1 10)) in
  let p := newSchemeParser "(set! x 1)" [] (Some (Finite 2)) in
  parseExpression 1 (DGroup g) p
  = Throw (DisallowedTokenError (mkPosition 1 2) (tk SET "set!" LNull 1)
             (Finite 2)) p.
Proof.
  intros g p.
  apply (proj1 (proj2 (proj2 chapter_gating)) 0 p g
           (tk SET "set!" LNull 1)
           [DToken (tk IDENTIFIER "x" LNull 6);
            DToken (tk NUMBER "1" (LNumber "1") 8)]
           MUTABLE_CHAPTER);
    reflexivity.
Defined.

(** *** Keywords inside a quotation *)

(** A parenthesized list inside a quotation is a quoted list, whatever
    leads it. *)
Lemma parseExpression_quoted_list : forall fuel p g,
  isParenthesized g = true ->
  quoteMode p <> NONE ->
  parseExpression (S fuel) (DGroup g) p
  = parseQuotedGroup (parseExpression fuel) g p.
Proof.
  intros fuel p g Hp Hq. cbn [parseExpression parseExpression_body].
  rewrite (parenthesized_not_single g Hp).
  unfold parseGroup. rewrite Hp. cbn [negb].
  unfold bind at 1, gets at 1.
  destruct (quoteMode p); [contradiction | reflexivity | reflexivity].
Qed.

(** The list of a keyword and one operand inside a quotation: the symbol
    of the keyword and the quoted operand, with the location of the
    list. *)
Lemma quoted_keyword_pair : forall fuel p g (k : Tok) (T : Dat),
  isParenthesized g = true ->
  unwrap g = [DToken k; T] ->
  isKeyword (type k) = true ->
  quoteMode p <> NONE ->
  parseExpression (S (S fuel)) (DGroup g) p =
  match parseExpression (S fuel) T p with
  | Ok inner p' =>
      Ok (Extended_List (location g)
            [Atomic_Symbol (toLocation k) (lexeme k); inner] None) p'
  | Throw e p' => Throw e p'
  | OutOfFuel => OutOfFuel
  end.
Proof.
  intros fuel p g k T Hp Hu Hk Hq.
  rewrite (parseExpression_quoted_list (S fuel) p g Hp Hq).
  unfold parseQuotedGroup. rewrite Hu. cbv beta iota.
  unfold bind at 1.
  pose proof (destructureList_long (parseExpression (S fuel)) noVerifier
                [] (DToken k) T) as E.
  cbn [app] in E. unfold Dat in E |- *. rewrite E. clear E.
  assert (Hdot : isDotToken (DToken k) = false).
  { unfold isDotToken. destruct (type k); try discriminate Hk; reflexivity. }
  assert (Hsym : parseExpression (S fuel) (DToken k) p
                 = Ok (Atomic_Symbol (toLocation k) (lexeme k)) p).
  { cbn [parseExpression parseExpression_body].
    rewrite (parseToken_keyword k p Hk).
    destruct (quoteMode p); [contradiction | reflexivity | reflexivity]. }
  rewrite Hdot. cbn [forEachM mapM]. unfold bind, noVerifier, ret.
  rewrite Hsym.
  destruct (parseExpression (S fuel) T p); reflexivity.
Qed.

(** *** Unquote-splicing *)

(** [parseAffectorGroup] on an unquote-splicing affector that the chapter
    ceiling admits, by quote mode. *)
Lemma parseAffectorGroup_splice : forall pe g a p,
  nth_error (unwrap g) 0 = Some (DToken a) ->
  type a = COMMA_AT \/ type a = UNQUOTE_SPLICING ->
  chapter_ltb (chapter p) QUOTING_CHAPTER = false ->
  parseAffectorGroup pe g p =
  match quoteMode p with
  | NONE => Throw (UnexpectedFormError (Some (pos a)) (DToken a)) p
  | QUOTE_MODE =>
      quotedList pe a "unquote-splicing" (nth_error (unwrap g) 1) p
  | QUASIQUOTE_MODE => Throw (UnsupportedTokenError (pos a) a) p
  end.
Proof.
  intros pe g a p H0 Hty Hch.
  unfold parseAffectorGroup. rewrite H0.
  destruct Hty as [Hty | Hty]; rewrite Hty;
    unfold bind at 1; rewrite (validateChapter_ok a _ p Hch);
    unfold bind at 1, gets at 1; destruct (quoteMode p); reflexivity.
Qed.

(** The claim as written fails twice.  Outside any quotation the source
    [,@x] raises [UnexpectedFormError], which is not the unsupported-token
    error.  And at the outer level of a quasiquote the keyword form is no
    error at all: the source [`(unquote-splicing x)] yields the list of
    two symbols. *)
Lemma splice_outside_quotation_is_unexpected_form :
  parse 3 (newSchemeParser ",@x" spliceTokens None)
  = Throw (UnexpectedFormError (Some (mkPosition 1 1))
             (DToken (tk COMMA_AT ",@" LNull 0)))
      (mkSchemeParser ",@x" spliceTokens Infinity 2 NONE) /\
  isUnsupportedToken (parse 3 (newSchemeParser ",@x" spliceTokens None))
  = false /\
  parse 9 (newSchemeParser "`(unquote-splicing x)" quasiSpliceTokens None)
  = Ok [Extended_List (mkLocation (mkPosition 1 2) (mkPosition 1 21))
          [Atomic_Symbol (mkLocation (mkPosition 1 3) (mkPosition 1 18))
             "unquote-splicing";
           Atomic_Symbol (mkLocation (mkPosition 1 20) (mkPosition 1 20))
             "x"] None]
      (mkSchemeParser "`(unquote-splicing x)" quasiSpliceTokens Infinity 5
         NONE).
Proof. repeat split; vm_compute; reflexivity. Qed.

(** C4 (amended).  The comma-at applied to a target [T], [,@T]: under a
    ceiling below 2 it raises [DisallowedTokenError] in every mode;
    otherwise it fails with [UnexpectedFormError] outside any quotation,
    yields under [QUOTE] the two-element list of the symbol
    [unquote-splicing] and the parsed [T], spanning both, and fails with
    [UnsupportedTokenError] under [QUASIQUOTE].  The keyword form
    [(unquote-splicing T)]: outside any quotation it raises
    [DisallowedTokenError] under a ceiling below 2 and
    [UnexpectedFormError] otherwise; inside a quotation, [QUOTE] and
    [QUASIQUOTE] alike, it is a quoted list as any other, the list of the
    keyword's symbol and the parsed [T], and no error of its own. *)
Theorem unquote_splicing_by_mode :
  (forall fuel p a T loc,
     type a = COMMA_AT ->
     parseExpression (S fuel) (DGroup (affectorGroup a T loc)) p =
     if chapter_ltb (chapter p) QUOTING_CHAPTER
     then Throw (DisallowedTokenError (pos a) a (chapter p)) p
     else
       match quoteMode p with
       | NONE => Throw (UnexpectedFormError (Some (pos a)) (DToken a)) p
       | QUOTE_MODE =>
           match parseExpression fuel T p with
           | Ok inner p' =>
               Ok (Extended_List
                     (merge (toLocation a) (expr_location inner))
                     [Atomic_Symbol (toLocation a) "unquote-splicing"; inner]
                     None) p'
           | Throw e p' => Throw e p'
           | OutOfFuel => OutOfFuel
           end
       | QUASIQUOTE_MODE => Throw (UnsupportedTokenError (pos a) a) p
       end) /\
  (forall fuel p g k rest,
     isParenthesized g = true ->
     unwrap g = DToken k :: rest ->
     type k = UNQUOTE_SPLICING ->
     quoteMode p = NONE ->
     parseExpression (S fuel) (DGroup g) p =
     if chapter_ltb (chapter p) QUOTING_CHAPTER
     then Throw (DisallowedTokenError (pos k) k (chapter p)) p
     else Throw (UnexpectedFormError (Some (pos k)) (DToken k)) p) /\
  (forall fuel p g k T,
     isParenthesized g = true ->
     unwrap g = [DToken k; T] ->
     type k = UNQUOTE_SPLICING ->
     quoteMode p <> NONE ->
     parseExpression (S (S fuel)) (DGroup g) p =
     match parseExpression (S fuel) T p with
     | Ok inner p' =>
         Ok (Extended_List (location g)
               [Atomic_Symbol (toLocation k) (lexeme k); inner] None) p'
     | Throw e p' => Throw e p'
     | OutOfFuel => OutOfFuel
     end).
Proof.
  split; [| split].
  - intros fuel p a T loc Ha.
    assert (Hnp : isParenthesized (affectorGroup a T loc) = false).
    { unfold isParenthesized, affectorGroup. cbn. rewrite Ha. reflexivity. }
    assert (Hns : isSingleIdentifier (affectorGroup a T loc) = None).
    { unfold isSingleIdentifier. rewrite Hnp. reflexivity. }
    assert (Hu : unwrap (affectorGroup a T loc) = [DToken a; T])
      by (unfold unwrap; rewrite Hnp; reflexivity).
    destruct (chapter_ltb (chapter p) QUOTING_CHAPTER) eqn:Hch.
    + apply (gated_affector_disallowed fuel p _ a QUOTING_CHAPTER); auto.
      * rewrite Hu. reflexivity.
      * rewrite Ha. reflexivity.
    + cbn [parseExpression parseExpression_body]. rewrite Hns.
      unfold parseGroup. rewrite Hnp. cbn [negb].
      rewrite (parseAffectorGroup_splice (parseExpression fuel)
                 (affectorGroup a T loc) a p);
        [| rewrite Hu; reflexivity | auto | exact Hch].
      rewrite Hu. cbn [nth_error].
      destruct (quoteMode p); reflexivity.
  - intros fuel p g k rest Hp Hu Hk Hq.
    destruct (chapter_ltb (chapter p) QUOTING_CHAPTER) eqn:Hch.
    + apply (gated_form_disallowed fuel p g k rest QUOTING_CHAPTER); auto.
      rewrite Hk. reflexivity.
    + cbn [parseExpression parseExpression_body].
      rewrite (parenthesized_not_single g Hp).
      unfold parseGroup. rewrite Hp. cbn [negb].
      unfold bind at 1, gets at 1. rewrite Hq.
      unfold parseNormalGroup. rewrite Hu, Hk.
      unfold bind at 1. rewrite (validateChapter_ok k _ p Hch).
      rewrite (parseAffectorGroup_splice (parseExpression fuel) g k p);
        [| rewrite Hu; reflexivity | auto | exact Hch].
      rewrite Hq. reflexivity.
  - intros fuel p g k T Hp Hu Hk Hq.
    apply quoted_keyword_pair; auto. rewrite Hk. reflexivity.
Qed.

Lemma unquote_splicing_by_mode_witness :
  (let a := tk COMMA_AT ",@" LNull 1 in
   let T := DToken (tk IDENTIFIER "x" LNull 3) in
   let loc := mkLocation (mkPosition 1 2) (mkPosition 1 4) in
   let p := withQuoteMode QUOTE_MODE (newSchemeParser "',@x" [] None) in
   parseExpression 2 (DGroup (affectorGroup a T loc)) p
   = Ok (Extended_List
           (mkLocation (mkPosition 1 2) (mkPosition 1 4))
           [Atomic_Symbol (toLocation a) "unquote-splicing";
            Atomic_Symbol (toLocation (tk IDENTIFIER "x" LNull 3)) "x"]
           None) p) /\
  (let k := tk UNQUOTE_SPLICING "unquote-splicing" LNull 2 in
   let x := tk IDENTIFIER "x" LNull 19 in
   let g := mkGroup [DToken (tk LEFT_PAREN "(" LNull 1); DToken k;
                     DToken x; DToken (tk RIGHT_PAREN ")" LNull 20)]
              (mkLocation (mkPosition 1 2) (mkPosition 1 21)) in
   let p := withQuoteMode QUASIQUOTE_MODE
              (newSchemeParser "`(unquote-splicing x)" [] None) in
   parseExpression 2 (DGroup g) p
   = Ok (Extended_List (mkLocation (mkPosition 1 2) (mkPosition 1 21))
           [Atomic_Symbol (toLocation k) "unquote-splicing";
            Atomic_Symbol (toLocation x) "x"] None) p).
Proof.
  split.
  - intros a T loc p.
    apply (proj1 unquote_splicing_by_mode 1 p a T loc eq_refl).
  - intros k x g p.
    apply (proj2 (proj2 unquote_splicing_by_mode) 0 p g k (DToken x));
      [reflexivity | reflexivity | reflexivity | discriminate].
Defined.

(** *** Vectors *)

Lemma bind_Ok_inv : forall {A B} (m : P A) (k : A -> P B) p b p',
  bind m k p = Ok b p' ->
  exists a p1, m p = Ok a p1 /\ k a p1 = Ok b p'.
Proof.
  intros A B m k p b p' H. unfold bind in H.
  destruct (m p) as [a p1| |]; try discriminate. eauto.
Qed.

Lemma withQuoteMode_id : forall [q p], quoteMode p = q -> withQuoteMode q p = p.
Proof. intros q [] H. cbn in H. subst. reflexivity. Qed.

Lemma parseToken_state : forall t p e p',
  parseToken t p = Ok e p' -> p' = p.
Proof.
  intros t p e p' H. unfold parseToken in H.
  destruct (type t); unfold bind, gets, ret in H;
    try (injection H as _ <-; reflexivity);
    destruct (negb (isNONE (quoteMode p)));
    try discriminate H; injection H as _ <-; reflexivity.
Qed.

Lemma parseToken_quoted : forall t p,
  quoteMode p <> NONE -> exists e, parseToken t p = Ok e p.
Proof.
  intros t p H. unfold parseToken.
  destruct (type t); unfold bind, gets, ret;
    destruct (quoteMode p); try contradiction; cbn; eauto.
Qed.

Lemma mapM_stable : forall (pe : Dat -> P Expression) l [p es p'],
  (forall d e q, pe d p = Ok e q -> q = p) ->
  mapM pe l p = Ok es p' ->
  p' = p /\ Forall2 (fun d e => pe d p = Ok e p) l es.
Proof.
  intros pe l p es p' Hst. revert es.
  induction l as [|d l IH]; intros es H; cbn in H.
  - injection H as <- <-. split; [reflexivity | constructor].
  - apply bind_Ok_inv in H as (e & p1 & He & H).
    apply bind_Ok_inv in H as (es' & p2 & Hes & H).
    injection H as <- <-.
    assert (p1 = p) by (eapply Hst; eauto). subst p1.
    destruct (IH _ Hes) as [-> HF].
    split; [reflexivity | constructor; assumption].
Qed.

Lemma mapM_Forall2 : forall (pe : Dat -> P Expression) [l p es],
  Forall2 (fun d e => pe d p = Ok e p) l es ->
  mapM pe l p = Ok es p.
Proof.
  intros pe l p es H. induction H as [|d e l es Hd _ IH]; cbn.
  - reflexivity.
  - unfold bind. rewrite Hd, IH. reflexivity.
Qed.

Lemma mapM_returns : forall (pe : Dat -> P Expression) [l p],
  Forall (fun d => exists e, pe d p = Ok e p) l ->
  exists es, mapM pe l p = Ok es p /\
             Forall2 (fun d e => pe d p = Ok e p) l es.
Proof.
  intros pe l p H. induction H as [|d l [e Hd] _ [es [IH HF]]].
  - exists []. split; [reflexivity | constructor].
  - exists (e :: es). split.
    + cbn. unfold bind. rewrite Hd, IH. reflexivity.
    + constructor; assumption.
Qed.

Lemma forEachM_noVerifier : forall l p, forEachM noVerifier l p = Ok tt p.
Proof.
  induction l as [|d l IH]; intros p; cbn; [reflexivity |].
  unfold bind. cbn. apply IH.
Qed.

Lemma split_last_two : forall (l : list Dat),
  2 <= List.length l -> exists pre d c, l = pre ++ [d; c].
Proof.
  intros l H.
  destruct (exists_last (l := l)) as (l1 & c & ->);
    [destruct l; [cbn in H; lia | discriminate] |].
  rewrite length_app in H. cbn in H.
  destruct (exists_last (l := l1)) as (pre & d & ->);
    [destruct l1; [cbn in H; lia | discriminate] |].
  exists pre, d, c. rewrite <- app_assoc. reflexivity.
Qed.

Ltac inv_bind H :=
  let a := fresh "a" in
  let q := fresh "q" in
  let Ha := fresh "Hm" in
  apply bind_Ok_inv in H; destruct H as (a & q & Ha & H).

Lemma validateChapter_Ok_inv : forall c ch p u p',
  validateChapter c ch p = Ok u p' ->
  p' = p /\ chapter_ltb (chapter p) ch = false.
Proof.
  intros c ch p u p' H. unfold validateChapter, bind, gets in H.
  destruct (chapter_ltb (chapter p) ch); [discriminate |].
  injection H as _ <-. auto.
Qed.

Lemma gets_Ok_inv : forall {A} (f : SchemeParser -> A) p a p',
  @gets SchemeParser ParserError A f p = Ok a p' -> a = f p /\ p' = p.
Proof. intros A f p a p' H. injection H as <- <-. auto. Qed.

Lemma quotedList_stable : forall pe a name target p e p',
  QuoteStable pe -> quoteMode p = QUOTE_MODE ->
  quotedList pe a name target p = Ok e p' -> p' = p.
Proof.
  intros pe a name target p e p' Hst Hq H. unfold quotedList in H.
  inv_bind H. injection H as _ <-.
  destruct target as [T|]; [| discriminate]. eapply Hst; eauto.
Qed.

Lemma parseVector_stable : forall pe g p e p',
  QuoteStable pe -> quoteMode p = QUOTE_MODE ->
  parseVector pe g p = Ok e p' -> p' = p.
Proof.
  intros pe g p e p' Hst Hq H. unfold parseVector in H.
  destruct (nth_error (unwrap g) 1) as [[t|inner]|]; try discriminate.
  inv_bind H. injection H as _ <-.
  eapply mapM_stable; [| eassumption].
  intros d e' q' Hd. eapply Hst; eauto.
Qed.

Lemma destructureList_stable : forall pe l p r p',
  QuoteStable pe -> quoteMode p = QUOTE_MODE ->
  destructureList pe l noVerifier p = Ok r p' -> p' = p.
Proof.
  intros pe l p r p' Hst Hq H.
  assert (Hmap : forall l' es q', mapM pe l' p = Ok es q' -> q' = p).
  { intros l' es q' Hm. eapply mapM_stable; [| eassumption].
    intros d e' q'' Hd. eapply Hst; eauto. }
  destruct l as [|x [|y l]].
  - injection H as _ <-. reflexivity.
  - unfold destructureList in H. inv_bind H. injection Hm as _ <-.
    inv_bind H. injection H as _ <-. eapply Hst; eauto.
  - destruct (split_last_two (x :: y :: l)) as (pre & d & c & E);
      [cbn; lia |].
    rewrite E, destructureList_long in H.
    destruct (isDotToken d).
    + inv_bind H. injection Hm as _ <-.
      inv_bind H. rewrite forEachM_noVerifier in Hm. injection Hm as _ <-.
      inv_bind H. apply Hmap in Hm. subst.
      inv_bind H. injection H as _ <-. eapply Hst; eauto.
    + inv_bind H. rewrite forEachM_noVerifier in Hm. injection Hm as _ <-.
      inv_bind H. injection H as _ <-. eapply Hmap; eauto.
Qed.

Lemma parseQuotedGroup_stable : forall pe g p e p',
  QuoteStable pe -> quoteMode p = QUOTE_MODE ->
  parseQuotedGroup pe g p = Ok e p' -> p' = p.
Proof.
  intros pe g p e p' Hst Hq H. unfold parseQuotedGroup in H.
  destruct (unwrap g) as [|x [|y l]].
  - injection H as _ <-. reflexivity.
  - inv_bind H. injection H as _ <-. eapply Hst; eauto.
  - inv_bind H. injection H as _ <-.
    eapply destructureList_stable; eauto.
Qed.

Lemma parseAffectorGroup_stable : forall pe g p e p',
  QuoteStable pe -> quoteMode p = QUOTE_MODE ->
  parseAffectorGroup pe g p = Ok e p' -> p' = p.
Proof.
  intros pe g p e p' Hst Hq H. unfold parseAffectorGroup in H.
  destruct (nth_error (unwrap g) 0) as [[a|g']|]; try discriminate.
  destruct (type a); try discriminate H;
    inv_bind H; apply validateChapter_Ok_inv in Hm as [-> _];
    inv_bind H; apply gets_Ok_inv in Hm as [-> ->]; rewrite Hq in H;
    cbn [isNONE negb] in H;
    try (eapply quotedList_stable; eassumption).
  inv_bind H. unfold setQuoteMode, modify in Hm. injection Hm as _ <-.
  fold (withQuoteMode QUOTE_MODE p) in H.
  rewrite (withQuoteMode_id Hq) in H.
  inv_bind H. apply parseVector_stable in Hm; auto. subst.
  inv_bind H. unfold setQuoteMode, modify in Hm. injection Hm as _ <-.
  injection H as _ <-. apply withQuoteMode_id. exact Hq.
Qed.

Lemma parseExpression_body_stable : forall pe,
  QuoteStable pe -> QuoteStable (parseExpression_body pe).
Proof.
  intros pe Hst d p e p' Hq H. unfold parseExpression_body in H.
  destruct d as [t|g]; [eapply parseToken_state; eauto |].
  destruct (isSingleIdentifier g); [eapply parseToken_state; eauto |].
  unfold parseGroup in H.
  destruct (isParenthesized g); cbn [negb] in H.
  - inv_bind H. apply gets_Ok_inv in Hm as [-> ->]. rewrite Hq in H.
    eapply parseQuotedGroup_stable; eauto.
  - eapply parseAffectorGroup_stable; eauto.
Qed.

(** Under [QUOTE] a successful [parseExpression] leaves the parser, and so
    the mode, as it found it. *)
Lemma parseExpression_stable : forall n, QuoteStable (parseExpression n).
Proof.
  induction n as [|n IH].
  - intros d p e p' _ H. discriminate H.
  - apply (parseExpression_body_stable (parseExpression n) IH).
Qed.

Lemma chapter_vector_quoting : forall c,
  chapter_ltb c VECTOR_CHAPTER = false ->
  chapter_ltb c QUOTING_CHAPTER = false.
Proof.
  intros [n|] H; [| reflexivity]. unfold chapter_ltb in *.
  apply Z.ltb_ge in H. apply Z.ltb_ge.
  unfold VECTOR_CHAPTER, QUOTING_CHAPTER in *. lia.
Qed.

Lemma forallb_returns : forall n l,
  (forall d, wfQuoted n d = true -> ReturnsQuoted (parseExpression n) d) ->
  forallb (wfQuoted n) l = true ->
  forall p, quoteMode p = QUOTE_MODE ->
    chapter_ltb (chapter p) VECTOR_CHAPTER = false ->
    Forall (fun d => exists e, parseExpression n d p = Ok e p) l.
Proof.
  intros n l IH Hl p Hq Hch. apply Forall_forall. intros d Hd.
  apply IH; auto. rewrite forallb_forall in Hl. auto.
Qed.

Lemma destructureList_returns : forall (pe : Dat -> P Expression) [l p],
  Forall (fun d => exists e, pe d p = Ok e p) l ->
  2 <= List.length l ->
  exists r, destructureList pe l noVerifier p = Ok r p.
Proof.
  intros pe l p HF Hlen.
  destruct (split_last_two l Hlen) as (pre & d & c & ->).
  rewrite destructureList_long.
  destruct (isDotToken d).
  - apply Forall_app in HF as [Hpre Hdc].
    destruct (mapM_returns pe Hpre) as (es & Hes & _).
    assert (Hc : exists e, pe c p = Ok e p)
      by (inversion Hdc as [|? ? _ Hc']; inversion Hc'; assumption).
    destruct Hc as [ec Hc].
    exists (es, Some ec). unfold bind. cbn [noVerifier ret].
    rewrite forEachM_noVerifier, Hes, Hc. reflexivity.
  - destruct (mapM_returns pe HF) as (es & Hes & _).
    exists (es, None). unfold bind.
    rewrite forEachM_noVerifier, Hes. reflexivity.
Qed.

(** Under [QUOTE], with the vector chapter admitted, [parseExpression]
    returns on every datum that [wfQuoted] accepts within the fuel. *)
Lemma parseExpression_returns_quoted : forall n d,
  wfQuoted n d = true -> ReturnsQuoted (parseExpression n) d.
Proof.
  induction n as [|n IH]; intros d Hwf p Hq Hch; [discriminate |].
  assert (Hnn : quoteMode p <> NONE) by (rewrite Hq; discriminate).
  assert (Hch2 := chapter_vector_quoting _ Hch).
  cbn [wfQuoted] in Hwf. cbn [parseExpression parseExpression_body].
  destruct d as [t|g]; [apply parseToken_quoted; assumption |].
  unfold parseExpression_body.
  destruct (isSingleIdentifier g); [apply parseToken_quoted; assumption |].
  unfold parseGroup.
  destruct (isParenthesized g) eqn:Hp; cbn [negb].
  - unfold bind at 1, gets at 1. rewrite Hq.
    pose proof (forallb_returns n (unwrap g) IH Hwf p Hq Hch) as HF.
    unfold parseQuotedGroup.
    destruct (unwrap g) as [|x [|y l]] eqn:Hu.
    + eexists. reflexivity.
    + inversion HF as [|? ? [e He] _]. subst.
      eexists. unfold bind. rewrite He. reflexivity.
    + destruct (destructureList_returns (parseExpression n) HF) as [r Hr];
        [cbn; lia |].
      eexists. unfold bind. rewrite Hr. reflexivity.
  - unfold parseAffectorGroup.
    destruct (unwrap g) as [|[a|g'] [|T l]] eqn:Hu; try discriminate Hwf.
    cbn [nth_error].
    assert (Hquoted : forall name, wfQuoted n T = true ->
              exists e, quotedList (parseExpression n) a name (Some T) p
                        = Ok e p).
    { intros name HT. destruct (IH T HT p Hq Hch) as [e He].
      eexists. unfold quotedList, bind, parseExpression'. rewrite He.
      reflexivity. }
    destruct (type a); try discriminate Hwf;
      unfold bind at 1;
      try rewrite (validateChapter_ok a QUOTING_CHAPTER p Hch2);
      try rewrite (validateChapter_ok a VECTOR_CHAPTER p Hch);
      unfold bind at 1, gets at 1; rewrite Hq; cbn [isNONE negb];
      try (apply Hquoted; assumption).
    destruct T as [t|inner]; [discriminate |].
    pose proof (forallb_returns n (unwrap inner) IH Hwf p Hq Hch) as HF.
    destruct (mapM_returns (parseExpression n) HF) as (es & Hes & _).
    eexists. unfold bind, setQuoteMode, modify.
    fold (withQuoteMode QUOTE_MODE p). rewrite (withQuoteMode_id Hq).
    unfold parseVector. rewrite Hu. cbn [nth_error]. unfold bind.
    rewrite Hes. unfold ret. fold (withQuoteMode QUOTE_MODE p).
    rewrite (withQuoteMode_id Hq). reflexivity.
Qed.

Lemma isVectorDatum_inv : forall [g a inner],
  isVectorDatum g = Some (a, inner) ->
  elements g = [DToken a; DGroup inner] /\ type a = HASH_VECTOR /\
  isParenthesized inner = true.
Proof.
  intros g a inner H. unfold isVectorDatum in H.
  destruct (elements g) as [|[a'|?] [|[?|inner'] [|? ?]]]; try discriminate.
  destruct (type a') eqn:Ha; try discriminate.
  destruct (isParenthesized inner') eqn:Hi; try discriminate.
  injection H as <- <-. auto.
Qed.

(** A vector datum, once the vector chapter is admitted: the elements of
    the inner group are parsed under [QUOTE], and the mode the call
    started in is put back. *)
Lemma vector_run : forall fuel p g [a inner],
  isVectorDatum g = Some (a, inner) ->
  chapter_ltb (chapter p) VECTOR_CHAPTER = false ->
  parseExpression (S fuel) (DGroup g) p =
  match mapM (parseExpression fuel) (unwrap inner)
          (withQuoteMode QUOTE_MODE p) with
  | Ok es q' =>
      Ok (Atomic_Vector (location g) es) (withQuoteMode (quoteMode p) q')
  | Throw e q' => Throw e q'
  | OutOfFuel => OutOfFuel
  end.
Proof.
  intros fuel p g a inner Hv Hch.
  destruct (isVectorDatum_inv Hv) as (Hel & Ha & _).
  assert (Hnp : isParenthesized g = false).
  { unfold isParenthesized. rewrite Hel. cbn. rewrite Ha. reflexivity. }
  assert (Hu : unwrap g = [DToken a; DGroup inner]).
  { unfold unwrap. rewrite Hnp. exact Hel. }
  cbn [parseExpression parseExpression_body].
  unfold isSingleIdentifier. rewrite Hnp, Hel.
  unfold parseGroup. rewrite Hnp. cbn [negb].
  unfold parseAffectorGroup. rewrite Hu. cbn [nth_error]. rewrite Ha.
  unfold bind at 1. rewrite (validateChapter_ok a _ p Hch).
  unfold bind at 1, gets at 1. unfold bind at 1.
  unfold setQuoteMode at 1, modify at 1.
  fold (withQuoteMode QUOTE_MODE p).
  unfold bind at 1, parseVector. rewrite Hu. cbn [nth_error].
  unfold bind at 1.
  destruct (mapM (parseExpression fuel) (unwrap inner)
              (withQuoteMode QUOTE_MODE p)); reflexivity.
Qed.

(** The claim as written fails under a ceiling below 3: the source
    [#(x 1)] under the ceiling 2, which lets quotations through, raises
    [DisallowedTokenError] at the vector marker and yields no [Vector]
    node.  The group is the one [grouping] builds from the tokens. *)
Lemma vector_below_its_chapter :
  parse 9 (newSchemeParser "#(x 1)" vectorTokens (Some (Finite 2)))
  = Throw (DisallowedTokenError (mkPosition 1 1)
             (tk HASH_VECTOR "#" LNull 0) (Finite 2))
      (mkSchemeParser "#(x 1)" vectorTokens (Finite 2) 5 NONE) /\
  grouping 8 None (newSchemeParser "#(x 1)" vectorTokens (Some (Finite 2)))
  = Ok (Some vectorGroup)
      (mkSchemeParser "#(x 1)" vectorTokens (Finite 2) 5 NONE) /\
  isVectorDatum vectorGroup
  = Some (tk HASH_VECTOR "#" LNull 0, vectorInner).
Proof. repeat split; vm_compute; reflexivity. Qed.

(** C5 (amended).  For every vector datum and every ambient quote mode.
    Under a ceiling below the vector chapter, 3, parsing the vector
    raises [DisallowedTokenError] at the marker.  Under a ceiling of at
    least 3 it parses each element of the inner group under [QUOTE]
    (identifiers become symbols), returns the [Vector] node of the parsed
    elements, and leaves the parser in the ambient mode; and it does
    return whenever the elements are data that [wfQuoted] accepts. *)
Theorem vector_law : forall fuel p g a inner,
  isVectorDatum g = Some (a, inner) ->
  (chapter_ltb (chapter p) VECTOR_CHAPTER = true ->
   parseExpression (S fuel) (DGroup g) p
   = Throw (DisallowedTokenError (pos a) a (chapter p)) p) /\
  (chapter_ltb (chapter p) VECTOR_CHAPTER = false ->
   let q := withQuoteMode QUOTE_MODE p in
   (forall v p',
      parseExpression (S fuel) (DGroup g) p = Ok v p' ->
      p' = p /\
      exists es,
        v = Atomic_Vector (location g) es /\
        Forall2 (fun d e => parseExpression fuel d q = Ok e q)
          (unwrap inner) es) /\
   (forall es,
      Forall2 (fun d e => parseExpression fuel d q = Ok e q)
        (unwrap inner) es ->
      parseExpression (S fuel) (DGroup g) p
      = Ok (Atomic_Vector (location g) es) p) /\
   (forallb (wfQuoted fuel) (unwrap inner) = true ->
    exists es,
      parseExpression (S fuel) (DGroup g) p
      = Ok (Atomic_Vector (location g) es) p) /\
   (forall x,
      type x = IDENTIFIER ->
      parseExpression (S fuel) (DToken x) q
      = Ok (Atomic_Symbol (toLocation x) (lexeme x)) q)).
Proof.
  intros fuel p g a inner Hv. split.
  { intros Hlt. destruct (isVectorDatum_inv Hv) as (Hel & Ha & _).
    assert (Hnp : isParenthesized g = false).
    { unfold isParenthesized. rewrite Hel. cbn. rewrite Ha. reflexivity. }
    apply (gated_affector_disallowed fuel p g a VECTOR_CHAPTER); auto.
    - unfold isSingleIdentifier. rewrite Hnp, Hel. reflexivity.
    - unfold unwrap. rewrite Hnp, Hel. reflexivity.
    - rewrite Ha. reflexivity. }
  intros Hch q.
  assert (Hqm : quoteMode q = QUOTE_MODE) by reflexivity.
  assert (Hback : withQuoteMode (quoteMode p) q = p)
    by (unfold q; rewrite withQuoteMode_twice; apply withQuoteMode_same).
  pose proof (vector_run fuel p g Hv Hch) as Hrun. fold q in Hrun.
  assert (HB : forall es,
     Forall2 (fun d e => parseExpression fuel d q = Ok e q)
       (unwrap inner) es ->
     parseExpression (S fuel) (DGroup g) p
     = Ok (Atomic_Vector (location g) es) p).
  { intros es HF. rewrite Hrun, (mapM_Forall2 _ HF), Hback. reflexivity. }
  assert (Hst : forall d e q0, parseExpression fuel d q = Ok e q0 -> q0 = q).
  { intros d e q0 Hd. eapply (parseExpression_stable fuel); eauto. }
  split; [| split; [| split]].
  - intros v p' H. rewrite Hrun in H.
    destruct (mapM (parseExpression fuel) (unwrap inner) q)
      as [es q'| |] eqn:Hm; try discriminate.
    injection H as <- <-.
    destruct (mapM_stable (parseExpression fuel) (unwrap inner) Hst Hm)
      as [-> HF].
    split; [exact Hback | exists es; auto].
  - exact HB.
  - intros Hwf.
    assert (Hchq : chapter_ltb (chapter q) VECTOR_CHAPTER = false)
      by exact Hch.
    pose proof (forallb_returns fuel (unwrap inner)
                  (parseExpression_returns_quoted fuel) Hwf q Hqm Hchq)
      as HF.
    destruct (mapM_returns (parseExpression fuel) HF) as (es & _ & HF2).
    exists es. apply HB. exact HF2.
  - intros x Hx. cbn [parseExpression parseExpression_body].
    rewrite (parseToken_identifier x q Hx). reflexivity.
Qed.

Lemma vector_law_witness :
  (let p := newSchemeParser "#(x 1)" [] None in
   parseExpression 2 (DGroup vectorGroup) p
   = Ok (Atomic_Vector (location vectorGroup)
           [Atomic_Symbol (toLocation (tk IDENTIFIER "x" LNull 2)) "x";
            Atomic_NumericLiteral
              (toLocation (tk NUMBER "1" (LNumber "1") 4)) (LNumber "1")])
       p) /\
  (let p := newSchemeParser "#(x 1)" [] (Some (Finite 2)) in
   parseExpression 2 (DGroup vectorGroup) p
   = Throw (DisallowedTokenError (mkPosition 1 1)
              (tk HASH_VECTOR "#" LNull 0) (Finite 2)) p).
Proof.
  split; intros p.
  - apply (proj1 (proj2 (proj2 (vector_law 1 p vectorGroup
                                  (tk HASH_VECTOR "#" LNull 0) vectorInner
                                  eq_refl) eq_refl))).
    repeat constructor.
  - apply (proj1 (vector_law 1 p vectorGroup
                    (tk HASH_VECTOR "#" LNull 0) vectorInner eq_refl)).
    reflexivity.
Defined.

End ParserFacts.

(** ** Laws of every parse *)

Module ParserLaws.
Import Parser ParserSpec ParserFacts.

Section Laws.
Variable Pre : SchemeParser -> Prop.
Variable Thr : ParserError -> Prop.
Variable FuelOk : Prop.
Variable LocOK : Location -> Prop.
Variables Parent Child : Dat -> Prop.

Hypothesis Pre_mode : forall q p, Pre p -> Pre (withQuoteMode q p).
Hypothesis Thr_other : forall e, notDisallowed e -> Thr e.
Hypothesis validate_sat : forall c ch,
  sat Pre Thr FuelOk (fun _ => True) (validateChapter c ch).
Hypothesis LocOK_merge : forall a b, LocOK a -> LocOK b -> LocOK (merge a b).
Hypothesis Parent_token : forall t, Parent (DToken t) -> LocOK (toLocation t).
Hypothesis Child_token : forall t, Child (DToken t) -> LocOK (toLocation t).
Hypothesis Parent_group : forall g,
  Parent (DGroup g) -> LocOK (location g) /\ Forall Child (elements g).
Hypothesis Child_group : forall g,
  Child (DGroup g) -> LocOK (location g) /\ Forall Child (elements g).

Local Abbreviation holds := (sat Pre Thr FuelOk).
Local Abbreviation EOK := (everyNode LocOK).
Local Abbreviation GOK g := (LocOK (location g) /\ Forall Child (elements g)).

(** *** The monad *)

Lemma sat_ret : forall {A} (Q : A -> Prop) a, Q a -> holds Q (ret a).
Proof. intros A Q a H p Hp. cbn. auto. Qed.

Lemma sat_throw : forall {A} (Q : A -> Prop) e,
  notDisallowed e -> holds Q (throw e).
Proof. intros A Q e H p Hp. cbn. auto. Qed.

Lemma sat_bind : forall {A B} (Q : A -> Prop) (R : B -> Prop) m k,
  holds Q m -> (forall a, Q a -> holds R (k a)) -> holds R (bind m k).
Proof.
  intros A B Q R m k Hm Hk p Hp. unfold bind.
  specialize (Hm p Hp). destruct (m p) as [a s| |]; auto.
  destruct Hm as [Ha Hs]. apply (Hk a Ha s Hs).
Qed.

Lemma sat_weaken : forall {A} (Q Q' : A -> Prop) m,
  (forall a, Q a -> Q' a) -> holds Q m -> holds Q' m.
Proof.
  intros A Q Q' m HQ Hm p Hp. specialize (Hm p Hp).
  destruct (m p); auto. destruct Hm. auto.
Qed.

Lemma sat_gets : forall {A} (f : SchemeParser -> A),
  holds (fun _ => True) (gets f).
Proof. intros A f p Hp. cbn. auto. Qed.

Lemma sat_setQuoteMode : forall q, holds (fun _ => True) (setQuoteMode q).
Proof. intros q p Hp. cbn. split; [exact I | apply (Pre_mode q p Hp)]. Qed.

Lemma sat_mapM : forall {A B} (Q : B -> Prop) (f : A -> P B) l,
  (forall x, In x l -> holds Q (f x)) -> holds (Forall Q) (mapM f l).
Proof.
  intros A B Q f l. induction l as [|x l IH]; intros H.
  - apply sat_ret. constructor.
  - cbn [mapM]. apply (sat_bind Q); [apply H; left; reflexivity |].
    intros y Hy. apply (sat_bind (Forall Q)).
    + apply IH. intros z Hz. apply H. right. exact Hz.
    + intros ys Hys. apply sat_ret. constructor; assumption.
Qed.

Lemma sat_forEachM : forall {A} (f : A -> P unit) l,
  (forall x, In x l -> holds (fun _ => True) (f x)) ->
  holds (fun _ => True) (forEachM f l).
Proof.
  intros A f l. induction l as [|x l IH]; intros H.
  - apply sat_ret. exact I.
  - cbn [forEachM]. apply (sat_bind (fun _ => True));
      [apply H; left; reflexivity |].
    intros _ _. apply IH. intros z Hz. apply H. right. exact Hz.
Qed.

(** *** Parts of a group *)

Lemma Forall_tl : forall {A} (Q : A -> Prop) l, Forall Q l -> Forall Q (tl l).
Proof. intros A Q l H. destruct H; [constructor | assumption]. Qed.

Lemma Forall_removelast : forall {A} (Q : A -> Prop) l,
  Forall Q l -> Forall Q (removelast l).
Proof.
  intros A Q l H. induction H as [|x l Hx Hl IH]; [constructor |].
  cbn. destruct l; [constructor | constructor; assumption].
Qed.

Lemma Forall_skipn' : forall {A} (Q : A -> Prop) n l,
  Forall Q l -> Forall Q (skipn n l).
Proof.
  intros A Q n. induction n as [|n IH]; intros l H; [exact H |].
  destruct H; [constructor | cbn; auto].
Qed.

Lemma Forall_firstn' : forall {A} (Q : A -> Prop) n l,
  Forall Q l -> Forall Q (firstn n l).
Proof.
  intros A Q n. induction n as [|n IH]; intros l H; [constructor |].
  destruct H; [constructor | cbn; constructor; auto].
Qed.

Lemma Forall_nth_error : forall {A} (Q : A -> Prop) l n x,
  Forall Q l -> nth_error l n = Some x -> Q x.
Proof.
  intros A Q l n x H E. rewrite Forall_forall in H.
  apply H. eapply nth_error_In. exact E.
Qed.

Lemma Forall_unwrap : forall g,
  Forall Child (elements g) -> Forall Child (unwrap g).
Proof.
  intros g H. unfold unwrap.
  destruct (isParenthesized g); [| exact H].
  apply Forall_removelast, Forall_tl. exact H.
Qed.

Lemma isSingleIdentifier_Child : forall g t,
  Forall Child (elements g) -> isSingleIdentifier g = Some t ->
  LocOK (toLocation t).
Proof.
  intros g t H E. unfold isSingleIdentifier in E.
  destruct (isParenthesized g); [discriminate |].
  destruct (elements g) as [|[t'|?] [|? ?]]; try discriminate.
  injection E as <-. inversion H. auto.
Qed.

Lemma sat_at : forall l i, Forall Child l -> holds Child (at_ l i).
Proof.
  intros l i H. unfold at_.
  destruct (nth_error l i) eqn:E.
  - apply sat_ret. eapply Forall_nth_error; eauto.
  - apply sat_throw. exact I.
Qed.

(** *** Locations of nodes *)

Lemma EOK_location : forall e, EOK e -> LocOK (expr_location e).
Proof.
  intros e H. unfold everyNode in H.
  destruct e; cbn in H |- *; inversion H; assumption.
Qed.

Lemma EOK_many : forall es,
  Forall EOK es -> Forall LocOK (flat_map allLocations es).
Proof. intros es H. apply Forall_flat_map. exact H. Qed.

Lemma EOK_opt : forall (o : option Expression),
  (forall e, o = Some e -> EOK e) ->
  Forall LocOK (match o with Some x => allLocations x | None => [] end).
Proof. intros [e|] H; [apply H; reflexivity | constructor]. Qed.

(** *** The methods of the parser *)

Variable pe : Dat -> P Expression.
Hypothesis pe_sat : forall d, Child d -> holds EOK (pe d).

Ltac sat_go :=
  repeat match goal with
  | |- sat _ _ _ _ (ret _) => apply sat_ret
  | |- sat _ _ _ _ (throw _) => apply sat_throw; exact I
  | |- sat _ _ _ _ (bind (gets _) _) =>
      eapply sat_bind; [apply sat_gets | intros ? _]
  | |- sat _ _ _ _ (bind (validateChapter _ _) _) =>
      eapply sat_bind; [apply validate_sat | intros ? _]
  | |- sat _ _ _ _ (bind (setQuoteMode _) _) =>
      eapply sat_bind; [apply sat_setQuoteMode | intros ? _]
  | |- sat _ _ _ _ (if ?b then _ else _) => destruct b
  end.

Ltac node :=
  unfold everyNode in *; cbn [allLocations];
  repeat first
    [ assumption
    | apply Forall_nil
    | apply EOK_many
    | apply EOK_opt
    | apply Forall_cons
    | apply Forall_app; split ].

Lemma sat_parseToken : forall t,
  LocOK (toLocation t) -> holds EOK (parseToken t).
Proof.
  intros t H. unfold parseToken.
  destruct (type t); sat_go;
    try match goal with |- context [isNONE ?q] => destruct q end; node.
Qed.

Lemma sat_parseExpression' : forall x,
  (forall d, x = Some d -> Child d) -> holds EOK (parseExpression' pe x).
Proof.
  intros [d|] H; cbn; [apply pe_sat, H; reflexivity | sat_go].
Qed.

Lemma sat_noVerifier : forall d, holds (fun _ => True) (noVerifier d).
Proof. intros d. apply sat_ret. exact I. Qed.

Lemma sat_identifierVerifier : forall d,
  holds (fun _ => True) (identifierVerifier d).
Proof.
  intros [t|g]; cbn; [destruct (type t) |]; sat_go; exact I.
Qed.

Lemma sat_mapM_pe : forall l,
  Forall Child l -> holds (Forall EOK) (mapM pe l).
Proof.
  intros l H. apply sat_mapM. intros x Hx. apply pe_sat.
  rewrite Forall_forall in H. auto.
Qed.

Lemma sat_destructureList : forall l verifier,
  Forall Child l ->
  (forall d, holds (fun _ => True) (verifier d)) ->
  holds (fun r => Forall EOK (fst r) /\ (forall e, snd r = Some e -> EOK e))
    (destructureList pe l verifier).
Proof.
  intros l verifier Hl Hv. unfold destructureList.
  destruct l as [|x [|y l']].
  - apply sat_ret. split; [constructor | discriminate].
  - eapply sat_bind; [apply Hv | intros _ _].
    eapply sat_bind; [apply pe_sat; inversion Hl; assumption |].
    intros e He. apply sat_ret. cbn. split; [auto | discriminate].
  - set (l := x :: y :: l') in *.
    destruct (nth_error l (List.length l - 2)) as [d|] eqn:E2;
      [| sat_go].
    destruct (nth_error l (List.length l - 1)) as [c|] eqn:E1;
      [| sat_go].
    assert (Hc : Child c) by (eapply Forall_nth_error; eauto).
    destruct (match d with
              | DToken t => match type t with DOT => true | _ => false end
              | DGroup _ => false
              end).
    + eapply sat_bind; [apply Hv | intros _ _].
      eapply sat_bind;
        [apply sat_forEachM; intros; apply Hv | intros _ _].
      eapply sat_bind; [apply sat_mapM_pe, Forall_firstn', Hl |].
      intros es Hes.
      eapply sat_bind; [apply pe_sat, Hc |].
      intros e He. apply sat_ret. cbn. split; [exact Hes |].
      intros e' E. injection E as <-. exact He.
    + eapply sat_bind;
        [apply sat_forEachM; intros; apply Hv | intros _ _].
      eapply sat_bind; [apply sat_mapM_pe, Hl |].
      intros es Hes. apply sat_ret. cbn. split; [exact Hes | discriminate].
Qed.

Lemma sat_quotedList : forall a name target,
  LocOK (toLocation a) ->
  (forall d, target = Some d -> Child d) ->
  holds EOK (quotedList pe a name target).
Proof.
  intros a name target Ha Ht. unfold quotedList.
  eapply sat_bind; [apply sat_parseExpression', Ht |].
  intros e He. apply sat_ret.
  pose proof (EOK_location e He) as Hl.
  assert (LocOK (merge (toLocation a) (expr_location e)))
    by (apply LocOK_merge; assumption).
  node.
Qed.

Lemma sat_parseVector : forall g, GOK g -> holds EOK (parseVector pe g).
Proof.
  intros g [Hloc Hel]. unfold parseVector.
  destruct (nth_error (unwrap g) 1) as [[t|inner]|] eqn:E; try (sat_go; fail).
  assert (Hi : Child (DGroup inner))
    by (eapply Forall_nth_error; [apply Forall_unwrap, Hel | exact E]).
  apply Child_group in Hi as [_ Hi].
  eapply sat_bind; [apply sat_mapM_pe, Forall_unwrap, Hi |].
  intros es Hes. apply sat_ret. node.
Qed.

Lemma sat_parseAffectorGroup : forall g,
  GOK g -> holds EOK (parseAffectorGroup pe g).
Proof.
  intros g Hg. pose proof Hg as [Hloc Hel]. unfold parseAffectorGroup.
  assert (Ht : forall d, nth_error (unwrap g) 1 = Some d -> Child d).
  { intros d E. eapply Forall_nth_error; [apply Forall_unwrap, Hel | exact E]. }
  destruct (nth_error (unwrap g) 0) as [[a|g']|] eqn:E0; try (sat_go; fail).
  assert (Ha : LocOK (toLocation a)).
  { apply Child_token. eapply Forall_nth_error;
      [apply Forall_unwrap, Hel | exact E0]. }
  destruct (type a); sat_go;
    try (apply sat_quotedList; assumption);
    try (match goal with
         | |- sat _ _ _ _ (match ?q with NONE => _ | _ => _ end) =>
             destruct q; sat_go; try (apply sat_quotedList; assumption)
         end);
    try (eapply sat_bind; [apply sat_parseExpression', Ht | intros ? ?];
         sat_go; assumption).
  eapply sat_bind; [apply sat_parseVector, Hg | intros ? ?].
  sat_go. assumption.
Qed.

Lemma sat_parseQuotedGroup : forall g,
  GOK g -> holds EOK (parseQuotedGroup pe g).
Proof.
  intros g [Hloc Hel]. unfold parseQuotedGroup.
  pose proof (Forall_unwrap g Hel) as Hu.
  destruct (unwrap g) as [|x [|y l]].
  - apply sat_ret. node.
  - eapply sat_bind; [apply pe_sat; inversion Hu; assumption |].
    intros e He. apply sat_ret. node.
  - eapply sat_bind; [apply sat_destructureList;
                      [exact Hu | apply sat_noVerifier] |].
    intros [es o] [Hes Ho]. apply sat_ret. cbn [fst snd] in *. node.
Qed.

Lemma last_Some_In : forall {A} (l : list A) z,
  last (map Some l) None = Some z -> In z l.
Proof.
  intros A l z. induction l as [|x l IH]; [discriminate |].
  destruct l as [|y l]; cbn.
  - intros E. injection E as <-. auto.
  - intros E. right. apply IH. exact E.
Qed.

Lemma sat_spanOf : forall l, Forall EOK l -> holds LocOK (spanOf l).
Proof.
  intros l H. unfold spanOf.
  destruct l as [|f l']; [sat_go |].
  destruct (last (map Some (f :: l')) None) as [z|] eqn:E; [| sat_go].
  apply sat_ret. apply LocOK_merge; apply EOK_location.
  - inversion H; assumption.
  - rewrite Forall_forall in H. apply H. apply last_Some_In. exact E.
Qed.

Lemma sat_bodyOf : forall l, Forall EOK l -> holds EOK (bodyOf l).
Proof.
  intros l H. unfold bodyOf.
  assert (Hseq : holds EOK (newLocation <- spanOf l ;;
                             ret (Atomic_Sequence newLocation l))).
  { eapply sat_bind; [apply sat_spanOf, H |].
    intros loc Hloc. apply sat_ret. node. }
  destruct l as [|b [|b' l']]; try exact Hseq.
  apply sat_ret. inversion H; assumption.
Qed.

Local Abbreviation formalsOK :=
  (fun r : list Expression * option Expression =>
     Forall EOK (fst r) /\ (forall e, snd r = Some e -> EOK e)).

Ltac child_of H E :=
  eapply Forall_nth_error; [apply Forall_unwrap, H | exact E].

Lemma sat_identifier : forall t,
  LocOK (toLocation t) -> EOK (Atomic_Identifier (toLocation t) (lexeme t)).
Proof. intros t H. node. Qed.

Lemma sat_parseLambda : forall g, GOK g -> holds EOK (parseLambda pe g).
Proof.
  intros g [Hloc Hel]. unfold parseLambda.
  pose proof (Forall_unwrap g Hel) as Hu.
  sat_go.
  eapply sat_bind; [apply sat_at, Hu | intros formals Hf].
  apply (sat_bind formalsOK).
  - destruct formals as [t|fg].
    + apply Child_token in Hf.
      destruct (type t); sat_go; cbn [fst snd]; split;
        try constructor; intros e E; injection E as <-;
        apply sat_identifier, Hf.
    + apply Child_group in Hf as [_ Hf].
      apply sat_destructureList;
        [apply Forall_unwrap, Hf | apply sat_identifierVerifier].
  - intros [ps r] [Hps Hr]. cbn [fst snd] in *.
    eapply sat_bind; [apply sat_mapM_pe, Forall_skipn', Hu |].
    intros body Hbody. sat_go.
    eapply sat_bind; [apply sat_bodyOf, Hbody |].
    intros b Hb. apply sat_ret. node.
Qed.

Lemma sat_parseDefinition : forall g,
  GOK g -> holds EOK (parseDefinition pe g).
Proof.
  intros g [Hloc Hel]. unfold parseDefinition.
  pose proof (Forall_unwrap g Hel) as Hu.
  sat_go.
  eapply sat_bind; [apply sat_at, Hu | intros identifier Hi].
  destruct identifier as [it|ig].
  - apply Child_token in Hi.
    destruct (type it); sat_go.
    eapply sat_bind.
    + apply sat_parseExpression'. intros d E.
      eapply Forall_nth_error; [apply Forall_skipn', Hu | exact E].
    + intros v Hv. apply sat_ret.
      pose proof (sat_identifier it Hi). node.
  - apply Child_group in Hi as [_ Hi].
    pose proof (Forall_unwrap ig Hi) as Hiu.
    eapply sat_bind; [apply sat_at, Hiu | intros functionName Hfn].
    destruct functionName as [fn|fg]; [| sat_go].
    apply Child_token in Hfn.
    destruct (type fn); sat_go.
    apply (sat_bind formalsOK).
    + apply sat_destructureList;
        [apply Forall_skipn', Hiu | apply sat_identifierVerifier].
    + intros [ps r] [Hps Hr]. cbn [fst snd] in *. sat_go.
      eapply sat_bind; [apply sat_mapM_pe, Forall_skipn', Hu |].
      intros body Hbody.
      eapply sat_bind; [apply sat_bodyOf, Hbody |].
      intros b Hb. apply sat_ret.
      pose proof (sat_identifier fn Hfn). node.
Qed.

Lemma sat_parseConditional : forall g,
  GOK g -> holds EOK (parseConditional pe g).
Proof.
  intros g [Hloc Hel]. unfold parseConditional.
  pose proof (Forall_unwrap g Hel) as Hu.
  assert (Hn : forall i d, nth_error (unwrap g) i = Some d -> Child d)
    by (intros i d E; eapply Forall_nth_error; eauto).
  sat_go.
  eapply sat_bind; [apply sat_parseExpression', Hn | intros t Ht].
  eapply sat_bind; [apply sat_parseExpression', Hn | intros c Hc].
  apply (sat_bind EOK).
  - destruct (if 3 <? Group_length g then nth_error (unwrap g) 3 else None)
      as [a|] eqn:E.
    + apply pe_sat. destruct (3 <? Group_length g); [| discriminate].
      eapply Hn; eauto.
    + apply sat_ret. node.
  - intros a Ha. apply sat_ret. node.
Qed.

Lemma sat_parseApplication : forall g,
  GOK g -> holds EOK (parseApplication pe g).
Proof.
  intros g [Hloc Hel]. unfold parseApplication.
  pose proof (Forall_unwrap g Hel) as Hu.
  sat_go.
  eapply sat_bind.
  - apply sat_parseExpression'. intros d E. eapply Forall_nth_error; eauto.
  - intros f Hf.
    eapply sat_bind; [apply sat_mapM_pe, Forall_skipn', Hu |].
    intros args Hargs. apply sat_ret. node.
Qed.

Lemma sat_parseBinding : forall d,
  Child d -> holds (fun r => EOK (fst r) /\ EOK (snd r)) (parseBinding pe d).
Proof.
  intros [t|bg] Hd; unfold parseBinding; [sat_go |].
  apply Child_group in Hd as [_ Hd].
  pose proof (Forall_unwrap bg Hd) as Hu.
  sat_go.
  eapply sat_bind; [apply sat_at, Hu | intros identifier Hi].
  destruct identifier as [it|ig]; [| sat_go].
  apply Child_token in Hi.
  destruct (type it); sat_go.
  eapply sat_bind.
  - apply sat_parseExpression'. intros d E. eapply Forall_nth_error; eauto.
  - intros v Hv. apply sat_ret. cbn [fst snd].
    split; [apply sat_identifier, Hi | exact Hv].
Qed.

Lemma Forall_fst_snd : forall (l : list (Expression * Expression)),
  Forall (fun r => EOK (fst r) /\ EOK (snd r)) l ->
  Forall EOK (map fst l) /\ Forall EOK (map snd l).
Proof.
  intros l H. induction H as [|[a b] l [Ha Hb] _ [IH1 IH2]]; cbn.
  - split; constructor.
  - split; constructor; assumption.
Qed.

Lemma sat_parseLet : forall g, GOK g -> holds EOK (parseLet pe g).
Proof.
  intros g [Hloc Hel]. unfold parseLet.
  pose proof (Forall_unwrap g Hel) as Hu.
  sat_go.
  eapply sat_bind; [apply sat_at, Hu | intros bindings Hb].
  destruct bindings as [t|bs]; [sat_go |].
  apply Child_group in Hb as [_ Hb].
  pose proof (Forall_unwrap bs Hb) as Hbu.
  eapply sat_bind.
  - apply sat_mapM. intros x Hx. apply sat_parseBinding.
    rewrite Forall_forall in Hbu. auto.
  - intros converted Hconv. apply Forall_fst_snd in Hconv as [Hids Hvals].
    eapply sat_bind; [apply sat_mapM_pe, Forall_skipn', Hu |].
    intros body Hbody. sat_go.
    eapply sat_bind; [apply sat_bodyOf, Hbody |].
    intros b Hb'. apply sat_ret. node.
Qed.

Lemma sat_firstTokenError : forall {A} (Q : A -> Prop) g expected,
  holds Q (firstTokenError g expected).
Proof.
  intros A Q g expected. unfold firstTokenError.
  destruct (firstToken g); sat_go.
Qed.

Lemma sat_parseClause : forall d,
  Child d -> holds (fun r => EOK (fst r) /\ EOK (snd r)) (parseClause pe d).
Proof.
  intros [t|cg] Hd; unfold parseClause; [sat_go |].
  apply Child_group in Hd as [_ Hd].
  pose proof (Forall_unwrap cg Hd) as Hu.
  destruct (unwrap cg) as [|test consequent];
    [apply sat_firstTokenError |].
  inversion Hu as [|? ? Ht Hc]; subst.
  sat_go.
  eapply sat_bind; [apply pe_sat, Ht | intros ct Hct].
  eapply sat_bind; [apply sat_mapM_pe, Hc | intros ces Hces].
  destruct ces as [|c [|c' ces']].
  - apply sat_ret. cbn [fst snd]. auto.
  - apply sat_ret. cbn [fst snd]. inversion Hces. auto.
  - eapply sat_bind; [apply sat_spanOf, Hces | intros loc Hl].
    apply sat_ret. cbn [fst snd]. split; [exact Hct | node].
Qed.

Lemma sat_parseExtendedCond : forall g,
  GOK g -> holds EOK (parseExtendedCond pe g).
Proof.
  intros g [Hloc Hel]. unfold parseExtendedCond.
  pose proof (Forall_unwrap g Hel) as Hu.
  pose proof (Forall_skipn' Child 1 _ Hu) as Hall.
  sat_go.
  eapply sat_bind; [apply sat_at, Hall | intros lastClause Hlast].
  eapply sat_bind.
  { apply sat_mapM. intros x Hx. apply sat_parseClause.
    pose proof (Forall_removelast Child _ Hall) as Hr.
    rewrite Forall_forall in Hr. auto. }
  intros converted Hconv. apply Forall_fst_snd in Hconv as [Hcl Hco].
  destruct lastClause as [t|lg]; [sat_go |].
  apply Child_group in Hlast as [_ Hlast].
  pose proof (Forall_unwrap lg Hlast) as Hlu.
  destruct (Group_length lg <? 2); [apply sat_firstTokenError |].
  eapply sat_bind; [apply sat_at, Hlu | intros test Htest].
  sat_go.
  eapply sat_bind; [apply sat_mapM_pe, Forall_skipn', Hlu |].
  intros ces Hces.
  eapply sat_bind; [apply sat_bodyOf, Hces | intros lastConsequent Hlc].
  sat_go.
  - node.
  - eapply sat_bind; [apply pe_sat, Htest | intros lastTest Hlt].
    apply sat_ret.
    assert (Forall EOK (map fst converted ++ [lastTest]))
      by (apply Forall_app; split; [assumption | repeat constructor; assumption]).
    assert (Forall EOK (map snd converted ++ [lastConsequent]))
      by (apply Forall_app; split; [assumption | repeat constructor; assumption]).
    node.
Qed.

Lemma sat_parseSet : forall g, GOK g -> holds EOK (parseSet pe g).
Proof.
  intros g [Hloc Hel]. unfold parseSet.
  pose proof (Forall_unwrap g Hel) as Hu.
  sat_go.
  eapply sat_bind; [apply sat_at, Hu | intros identifier Hi].
  destruct identifier as [it|ig]; [| sat_go].
  apply Child_token in Hi.
  destruct (type it); sat_go.
  eapply sat_bind.
  - apply sat_parseExpression'. intros d E. eapply Forall_nth_error; eauto.
  - intros v Hv. apply sat_ret. pose proof (sat_identifier it Hi). node.
Qed.

Lemma sat_parseBegin : forall g, GOK g -> holds EOK (parseBegin pe g).
Proof.
  intros g [Hloc Hel]. unfold parseBegin.
  pose proof (Forall_unwrap g Hel) as Hu.
  sat_go.
  eapply sat_bind; [apply sat_mapM_pe, Forall_skipn', Hu |].
  intros es Hes. apply sat_ret. node.
Qed.

Lemma sat_parseDelay : forall g, GOK g -> holds EOK (parseDelay pe g).
Proof.
  intros g [Hloc Hel]. unfold parseDelay.
  pose proof (Forall_unwrap g Hel) as Hu.
  sat_go.
  eapply sat_bind.
  - apply sat_parseExpression'. intros d E. eapply Forall_nth_error; eauto.
  - intros v Hv. apply sat_ret. node.
Qed.

Lemma sat_importIdentifier : forall d,
  Child d -> holds EOK (importIdentifier d).
Proof.
  intros [it|ig] Hd; unfold importIdentifier; [| sat_go].
  apply Child_token in Hd.
  destruct (type it); sat_go. apply sat_identifier, Hd.
Qed.

Lemma sat_parseImport : forall g is_js,
  GOK g -> holds EOK (parseImport g is_js).
Proof.
  intros g is_js [Hloc Hel]. unfold parseImport.
  pose proof (Forall_unwrap g Hel) as Hu.
  destruct (negb (Group_length g =? 3)); [apply sat_firstTokenError |].
  eapply sat_bind; [apply sat_at, Hu | intros src Hsrc].
  eapply sat_bind; [apply sat_at, Hu | intros identifiers Hids].
  destruct src as [st|sg]; [| sat_go].
  apply Child_token in Hsrc.
  destruct (type st); sat_go.
  destruct identifiers as [t|ig]; [sat_go |].
  apply Child_group in Hids as [_ Hids].
  pose proof (Forall_unwrap ig Hids) as Hiu.
  eapply sat_bind.
  - apply sat_mapM. intros x Hx. apply sat_importIdentifier.
    rewrite Forall_forall in Hiu. auto.
  - intros ids Hids'. apply sat_ret. node.
Qed.

Lemma sat_parseExport : forall g is_js,
  GOK g -> holds EOK (parseExport pe g is_js).
Proof.
  intros g is_js [Hloc Hel]. unfold parseExport.
  pose proof (Forall_unwrap g Hel) as Hu.
  destruct (negb (Group_length g =? 2)); [apply sat_firstTokenError |].
  eapply sat_bind; [apply sat_at, Hu | intros definition Hd].
  destruct definition as [t|dg]; [sat_go |].
  eapply sat_bind; [apply pe_sat, Hd | intros e He].
  destruct e; sat_go; node.
Qed.

Lemma sat_parseNormalGroup : forall g,
  GOK g -> holds EOK (parseNormalGroup pe g).
Proof.
  intros g Hg. unfold parseNormalGroup.
  destruct (unwrap g) as [|[firstElement|fg] rest]; [sat_go | |];
    [| apply sat_parseApplication, Hg].
  destruct (type firstElement); sat_go;
    first [ apply sat_parseLambda, Hg
          | apply sat_parseDefinition, Hg
          | apply sat_parseConditional, Hg
          | apply sat_parseLet, Hg
          | apply sat_parseExtendedCond, Hg
          | apply sat_parseAffectorGroup, Hg
          | apply sat_parseBegin, Hg
          | apply sat_parseDelay, Hg
          | apply sat_parseSet, Hg
          | apply sat_parseImport, Hg
          | apply sat_parseExport, Hg
          | apply sat_parseApplication, Hg ].
Qed.

Lemma sat_parseGroup : forall g, GOK g -> holds EOK (parseGroup pe g).
Proof.
  intros g Hg. unfold parseGroup.
  destruct (negb (isParenthesized g)); [apply sat_parseAffectorGroup, Hg |].
  sat_go.
  match goal with
  | |- sat _ _ _ _ (match ?q with NONE => _ | _ => _ end) => destruct q
  end; [apply sat_parseNormalGroup | apply sat_parseQuotedGroup
        | apply sat_parseQuotedGroup]; exact Hg.
Qed.

(** The body of [parseExpression] keeps what the recursive calls keep. *)
Lemma sat_parseExpression_body : forall d,
  Parent d -> holds EOK (parseExpression_body pe d).
Proof.
  intros [t|g] Hd; unfold parseExpression_body.
  - apply sat_parseToken, Parent_token, Hd.
  - apply Parent_group in Hd.
    destruct (isSingleIdentifier g) as [t|] eqn:E.
    + apply sat_parseToken.
      eapply isSingleIdentifier_Child; [apply Hd | exact E].
    + apply sat_parseGroup, Hd.
Qed.

End Laws.

(** *** Enough fuel *)

Lemma depth_elements : forall (g : Grp) c,
  In c (elements g) -> depth c < depth (DGroup g).
Proof.
  intros [els loc] c H. cbn [elements] in H. cbn [depth].
  apply Nat.lt_succ_r.
  assert (Hm : list_max (map depth els) <= list_max (map depth els))
    by reflexivity.
  rewrite list_max_le in Hm. rewrite Forall_forall in Hm.
  apply Hm. apply in_map. exact H.
Qed.

Lemma validateChapter_returns_or_throws : forall c ch p,
  match validateChapter c ch p with
  | Ok _ s => s = p
  | Throw _ _ => True
  | OutOfFuel => False
  end.
Proof.
  intros c ch p. unfold validateChapter, bind, gets.
  destruct (chapter_ltb (chapter p) ch); cbn; auto.
Qed.

(** [parseExpression] never runs out of a fuel that exceeds the nesting
    depth of the datum: it returns or throws. *)
Theorem parseExpression_enough_fuel : forall n d p,
  depth d < n -> parseExpression n d p <> OutOfFuel.
Proof.
  assert (H : forall n d, depth d < n ->
            sat (fun _ => True) (fun _ => True) False
              (everyNode (fun _ => True)) (parseExpression n d)).
  { induction n as [|n IH]; intros d Hd; [lia |].
    apply (sat_parseExpression_body (fun _ => True) (fun _ => True) False
             (fun _ => True) (fun d => depth d < S n) (fun d => depth d < n));
      auto.
    - intros c ch p _. pose proof (validateChapter_returns_or_throws c ch p).
      destruct (validateChapter c ch p); auto.
    - intros g Hg. split; [exact I |]. apply Forall_forall. intros c Hc.
      apply depth_elements in Hc. lia.
    - intros g Hg. split; [exact I |]. apply Forall_forall. intros c Hc.
      apply depth_elements in Hc. lia. }
  intros n d p Hd E. specialize (H n d Hd p I). rewrite E in H. exact H.
Qed.

(** *** No ceiling *)

Local Abbreviation unlimited :=
  (sat (fun p => chapter p = Infinity) notDisallowed True).

Lemma parseExpression_unlimited_sat : forall n d,
  unlimited (everyNode (fun _ => True)) (parseExpression n d).
Proof.
  induction n as [|n IH]; intros d; [intros p _; exact I |].
  apply (sat_parseExpression_body (fun p => chapter p = Infinity)
           notDisallowed True (fun _ => True)
           (fun _ => True) (fun _ => True)); auto.
  - intros c ch p Hp.
    rewrite validateChapter_ok by (rewrite Hp; reflexivity).
    cbn. auto.
  - intros g _. split; [exact I | apply Forall_forall; auto].
  - intros g _. split; [exact I | apply Forall_forall; auto].
Qed.

(** Under the default ceiling [Infinity] no call of [parseExpression]
    raises [DisallowedTokenError]. *)
Theorem parseExpression_unlimited : forall n d p,
  chapter p = Infinity ->
  match parseExpression n d p with
  | Throw e _ => notDisallowed e
  | _ => True
  end.
Proof.
  intros n d p Hp. pose proof (parseExpression_unlimited_sat n d p Hp) as H.
  destruct (parseExpression n d p); auto.
Qed.

Lemma unlimited_step : forall {A B} (m : P A) (k : A -> P B),
  unlimited (fun _ => True) m ->
  (forall a, unlimited (fun _ => True) (k a)) ->
  unlimited (fun _ => True) (bind m k).
Proof.
  intros A B m k Hm Hk.
  apply (sat_bind _ _ _ (fun _ => True)); auto.
Qed.

Lemma unlimited_any : forall {A} (Q : A -> Prop) m,
  unlimited Q m -> unlimited (fun _ => True) m.
Proof.
  intros A Q m H. eapply sat_weaken; [| exact H]. auto.
Qed.

Lemma unlimited_advance : unlimited (fun _ => True) advance.
Proof.
  intros p Hp. unfold advance.
  destruct (isAtEnd p); cbn [current tokens].
  - destruct (current p); [exact I |].
    destruct (nth_error (tokens p) n); cbn; auto.
  - destruct (nth_error (tokens p) (current p)); cbn; auto.
Qed.

Lemma unlimited_liftBuild : forall els,
  unlimited (fun _ => True) (liftBuild (Group_build els)).
Proof.
  intros els p Hp. unfold liftBuild.
  destruct (Group_build els) as [e|g] eqn:E; cbn; [| auto].
  unfold Group_build, construct in E.
  repeat match type of E with
         | match ?x with _ => _ end = _ => destruct x
         | (if ?b then _ else _) = _ => destruct b
         | (let _ := _ in _) = _ => cbv zeta in E
         end;
    try discriminate E; injection E as <-; exact I.
Qed.

Lemma unlimited_untilSome : forall {A} n (m : P (option A)),
  unlimited (fun _ => True) m -> unlimited (fun _ => True) (untilSome n m).
Proof.
  intros A n m Hm. induction n as [|n IH]; [intros p _; exact I |].
  cbn [untilSome]. apply unlimited_step; [exact Hm |].
  intros [a|]; [apply sat_ret; exact I | exact IH].
Qed.

Lemma unlimited_grouping_finish : forall els,
  unlimited (fun _ => True) (grouping_finish els).
Proof.
  intros els. unfold grouping_finish.
  destruct els; [apply sat_ret; exact I |].
  apply unlimited_step; [apply unlimited_liftBuild |].
  intros g. apply sat_ret. exact I.
Qed.

Lemma unlimited_grouping_loop : forall fuel els inList,
  unlimited (fun _ => True) (grouping_loop fuel els inList).
Proof.
  induction fuel as [|fuel IH]; intros els inList; [intros p _; exact I |].
  cbn [grouping_loop].
  assert (Hg : forall o,
    unlimited (fun _ => True)
      match o with
      | Some o' =>
          r <- grouping_loop fuel [DToken o'] true ;; grouping_finish r
      | None => r <- grouping_loop fuel [] false ;; grouping_finish r
      end).
  { intros [o|]; (apply unlimited_step;
                  [apply IH | intros r; apply unlimited_grouping_finish]). }
  assert (Hc : forall els' (b : bool),
    unlimited (fun _ => True)
      (if b then grouping_loop fuel els' b else ret els')).
  { intros els' [|]; [apply IH | apply sat_ret; exact I]. }
  assert (Hthrow : forall e, notDisallowed e ->
    unlimited (fun _ : list Dat => True) (throw e)).
  { intros e He. apply sat_throw; auto. }
  apply unlimited_step; [apply unlimited_advance |].
  intros c.
  destruct (type c);
    first
      [ apply (Hc _ inList)
      | apply Hthrow; exact I
      | apply unlimited_step;
        [ apply (Hg (Some c))
        | intros [g|]; [apply (Hc _ inList) | apply Hthrow; exact I] ]
      | destruct (negb inList); [apply Hthrow; exact I | apply (Hc _ false)]
      | apply unlimited_step;
        [ apply unlimited_untilSome, (Hg None)
        | intros g; apply unlimited_step;
          [ apply unlimited_liftBuild | intros g'; apply (Hc _ inList) ] ]
      | apply unlimited_step;
        [ apply unlimited_untilSome, (Hg None)
        | intros g; apply (Hc _ inList) ] ].
Qed.

Lemma unlimited_grouping : forall fuel o,
  unlimited (fun _ => True) (grouping fuel o).
Proof.
  intros fuel [o|]; (apply unlimited_step;
    [apply unlimited_grouping_loop | intros r; apply unlimited_grouping_finish]).
Qed.

Lemma unlimited_parse_loop : forall fuel top,
  unlimited (fun _ => True) (parse_loop fuel top).
Proof.
  induction fuel as [|fuel IH]; intros top; [intros p _; exact I |].
  cbn [parse_loop].
  apply unlimited_step; [apply sat_gets |].
  intros p. destruct (isAtEnd p); [apply sat_ret; exact I |].
  destruct (peek p) as [t|]; [| apply sat_throw; auto; exact I].
  assert (Hrest : unlimited (fun _ => True)
    (currentElement <- grouping fuel None ;;
     match currentElement with
     | None => parse_loop fuel top
     | Some g =>
         convertedElement <- parseExpression fuel (DGroup g) ;;
         parse_loop fuel (top ++ [convertedElement])
     end)).
  { apply unlimited_step; [apply unlimited_grouping |].
    intros [g|]; [| apply IH].
    apply unlimited_step;
      [eapply unlimited_any, parseExpression_unlimited_sat |].
    intros e. apply IH. }
  destruct (type t); try exact Hrest. apply sat_ret. exact I.
Qed.

(** Under the default ceiling [Infinity] no parse raises
    [DisallowedTokenError], whatever the tokens and the fuel. *)
Theorem parse_unlimited : forall fuel src toks,
  match parse fuel (newSchemeParser src toks None) with
  | Throw e _ => notDisallowed e
  | _ => True
  end.
Proof.
  intros fuel src toks.
  pose proof (unlimited_parse_loop fuel [] (newSchemeParser src toks None)
                eq_refl) as H.
  unfold parse. destruct (parse_loop fuel [] _); auto.
Qed.

(** *** Where spans come from *)

Lemma delimitedBy_merge : forall toks a b,
  delimitedBy toks a -> delimitedBy toks b -> delimitedBy toks (merge a b).
Proof. intros toks a b Ha Hb. apply fromMerge; assumption. Qed.

Lemma delimitedBy_token : forall toks t,
  In t toks -> delimitedBy toks (toLocation t).
Proof. intros toks t H. apply fromToken, H. Qed.

Lemma datumWithin_group : forall toks (g : Grp),
  datumWithin toks (DGroup g) ->
  delimitedBy toks (location g) /\ Forall (datumWithin toks) (elements g).
Proof.
  intros toks [els loc] [Hin Hloc]. cbn [tokensOf groupLocations] in *.
  cbn [location elements]. inversion Hloc as [|? ? Hl Hrest]; subst.
  split; [exact Hl |].
  apply Forall_forall. intros c Hc. split.
  - intros t Ht. apply Hin. apply in_flat_map. eauto.
  - rewrite Forall_forall in Hrest |- *. intros l Hl'.
    apply Hrest. apply in_flat_map. eauto.
Qed.

Lemma parseExpression_spans_sat : forall (Pre : SchemeParser -> Prop) toks,
  (forall q p, Pre p -> Pre (withQuoteMode q p)) ->
  forall n d,
    datumWithin toks d ->
    sat Pre (fun _ => True) True
      (everyNode (delimitedBy toks)) (parseExpression n d).
Proof.
  intros Pre toks HPre.
  induction n as [|n IH]; intros d Hd; [intros p _; exact I |].
  apply (sat_parseExpression_body Pre (fun _ => True) True
           (delimitedBy toks) (datumWithin toks) (datumWithin toks)); auto.
  - intros c ch p Hp.
    pose proof (validateChapter_returns_or_throws c ch p) as H.
    destruct (validateChapter c ch p); auto. subst. auto.
  - apply delimitedBy_merge.
  - intros t [Ht _]. apply delimitedBy_token, Ht. left. reflexivity.
  - intros t [Ht _]. apply delimitedBy_token, Ht. left. reflexivity.
  - apply datumWithin_group.
  - apply datumWithin_group.
Qed.

(** Every node of a parsed expression has a span delimited by tokens of the
    datum it was parsed from: the span of one of them, a span from the
    start of one of them to the start of one of them, or a merge of such
    spans. *)
Theorem parseExpression_spans : forall toks n d p e p',
  datumWithin toks d ->
  parseExpression n d p = Ok e p' ->
  everyNode (delimitedBy toks) e.
Proof.
  intros toks n d p e p' Hd E.
  pose proof (parseExpression_spans_sat (fun _ => True) toks
                (fun _ _ _ => I) n d Hd p I) as H.
  rewrite E in H. apply H.
Qed.






(** *** The spans of a whole parse *)

Section WholeParse.
Variable toks : list Tok.

Local Abbreviation sameTokens :=
  (sat (fun p => tokens p = toks) (fun _ => True) True).












End WholeParse.

(** *** The span of a node *)




Section Located.
Variable pe : Dat -> P Expression.














End Located.

Section Root.
Variable pe : Dat -> P Expression.
Variable rec : QuoteMode -> Dat -> option Location.
Hypothesis pe_rec : forall d p e p',
  pe d p = Ok e p' -> rec (quoteMode p) d = Some (expr_location e).






End Root.












End ParserLaws.

(** ** The entry points and the chapter ceiling *)

Module EntryFacts.
Import Parser ParserSpec ParserFacts EntryPoints.
Local Open Scope string_scope.

(** C9.  [schemeParse] of [src/parser/index.ts] never hands its [chapter]
    argument on: whatever the S-expression parser does with the source
    and its tokens, the ceiling has no effect on the result, so a ceiling
    of 1 gives what no ceiling gives. *)
Theorem ParserIndex_schemeParse_ignores_chapter :
  forall (R : Type) (sexpr : string -> list (Token Scanner.TokenType) -> R)
         (source : string) (c1 c2 : option Chapter),
    ParserIndex.schemeParse sexpr source c1
    = ParserIndex.schemeParse sexpr source c2.
Proof. reflexivity. Qed.

(** On the source ['x] that entry point hands the S-expression parser the
    same tokens under a ceiling of 1 and under none. *)
Lemma ParserIndex_schemeParse_quote :
  forall (R : Type) (sexpr : string -> list (Token Scanner.TokenType) -> R),
    ParserIndex.schemeParse sexpr "'x" (Some (Finite 1))
    = Returned (sexpr "'x"
        [newToken Scanner.APOSTROPHE "'" LNull 0 1 1 1;
         newToken Scanner.SYMBOL "x" LNull 1 2 1 2;
         newToken Scanner.EOF EmptyString LNull 1 2 1 2]) /\
    ParserIndex.schemeParse sexpr "'x" None
    = ParserIndex.schemeParse sexpr "'x" (Some (Finite 1)).
Proof. intros R sexpr. split; reflexivity. Qed.

(** Through that entry point an omitted ceiling lets every chapter-gated
    form through: no parse raises [DisallowedTokenError]. *)
Lemma Index_schemeParse_unlimited :
  forall (E : Type) (scan : string -> E + list Tok) fuel source,
    match Index.schemeParse scan fuel source None with
    | inr (Throw e _) => notDisallowed e
    | _ => True
    end.
Proof.
  intros E scan fuel source. unfold Index.schemeParse.
  destruct (scan source) as [e|toks]; [exact I |].
  apply ParserLaws.parse_unlimited.
Qed.

Lemma validateChapter_Infinity : forall c ch p,
  chapter p = Infinity -> validateChapter c ch p = Ok tt p.
Proof.
  intros c ch p H. apply validateChapter_ok. rewrite H. reflexivity.
Qed.

(** The sibling entry point does hand the ceiling on, and an omitted
    ceiling is [Infinity], under which no gate closes: with the tokens
    of ['x], a ceiling of 1 raises [DisallowedTokenError] and no ceiling
    gives the symbol. *)
Lemma Index_schemeParse_applies_chapter :
  forall (E : Type) (scan : string -> E + list Tok) fuel source toks ch,
    scan source = inr toks ->
    Index.schemeParse scan fuel source ch
    = inr (parse fuel (newSchemeParser source toks ch)) /\
    chapter (newSchemeParser source toks ch)
    = match ch with Some c => c | None => Infinity end /\
    (scan "'x" = inr quoteTokens ->
     Index.schemeParse scan 3 "'x" (Some (Finite 1))
     = inr (Throw (DisallowedTokenError (mkPosition 1 1)
                     (tk APOSTROPHE "'" LNull 0) (Finite 1))
              (mkSchemeParser "'x" quoteTokens (Finite 1) 2 NONE)) /\
     Index.schemeParse scan 3 "'x" None
     = inr (Ok [Atomic_Symbol
                  (mkLocation (mkPosition 1 2) (mkPosition 1 2)) "x"]
              (mkSchemeParser "'x" quoteTokens Infinity 2 NONE))).
Proof.
  intros E scan fuel source toks ch Hs.
  unfold Index.schemeParse. rewrite Hs.
  split; [reflexivity | split; [reflexivity |]].
  intros Hq. rewrite Hq. split; vm_compute; reflexivity.
Qed.

End EntryFacts.

(** ** Encoding and decoding identifiers *)

Module EncodingFacts.
Import Encoding.
Local Open Scope Z_scope.

Lemma uintCodes_digits : forall u,
  Forall (fun c => isDigit c = true) (uintCodes u).
Proof. induction u; cbn; constructor; auto. Qed.

Lemma codesUint_uintCodes : forall u, codesUint (uintCodes u) = u.
Proof. induction u; cbn; rewrite ?IHu; reflexivity. Qed.

Lemma uintCodes_nonempty : forall u, u <> Decimal.Nil -> uintCodes u <> [].
Proof. intros [] H; cbn; congruence. Qed.

Lemma numberToString_nonempty : forall n, numberToString n <> [].
Proof.
  intros n. apply uintCodes_nonempty. unfold N.to_uint.
  destruct (Z.to_N n); [discriminate |].
  apply DecimalPos.Unsigned.to_uint_nonnil.
Qed.

Lemma spanDigits_run : forall ds c rest,
  Forall (fun d => isDigit d = true) ds ->
  isDigit c = false ->
  spanDigits (ds ++ c :: rest) = (ds, c :: rest).
Proof.
  induction ds as [|d ds IH]; intros c rest Hds Hc; cbn.
  - rewrite Hc. reflexivity.
  - inversion Hds as [|? ? Hd Hds']; subst.
    rewrite Hd, (IH c rest Hds' Hc). reflexivity.
Qed.

Lemma decode_from_skip : forall pre rest,
  decode_from (List.length pre) (pre ++ rest) = decode_from 0 rest.
Proof.
  induction pre as [|c pre IH]; intros rest; [reflexivity |].
  cbn [List.length app decode_from]. apply IH.
Qed.

Lemma parseInt_numberToString : forall c,
  isCodeUnit c = true -> fromCharCode (parseInt (numberToString c)) = c.
Proof.
  intros c H. unfold isCodeUnit in H. apply andb_prop in H as [Hlo Hhi].
  apply Z.leb_le in Hlo. apply Z.ltb_lt in Hhi.
  unfold parseInt, numberToString.
  rewrite codesUint_uintCodes, DecimalN.Unsigned.of_to, Z2N.id by lia.
  unfold toNumber.
  assert (H53 : (c <? 2 ^ 53) = true) by (apply Z.ltb_lt; lia).
  rewrite H53. cbn [fromCharCode]. apply Z.mod_small. lia.
Qed.

(** What [decode] does to one escape at the head of a string. *)
Lemma decode_escape : forall c rest,
  isCodeUnit c = true ->
  decode_from 0 (DOLLAR :: numberToString c ++ DOLLAR :: rest)
  = c :: decode_from 0 rest.
Proof.
  intros c rest Hc.
  pose proof (numberToString_nonempty c) as Hne.
  pose proof (uintCodes_digits (N.to_uint (Z.to_N c))) as Hds.
  fold (numberToString c) in Hds.
  cbn [decode_from matchEscape].
  change (DOLLAR =? DOLLAR) with true. cbv iota.
  rewrite (spanDigits_run (numberToString c) DOLLAR rest Hds eq_refl).
  destruct (numberToString c) as [|d ds] eqn:E; [contradiction |].
  change (DOLLAR =? DOLLAR) with true. cbv iota.
  rewrite <- E, (parseInt_numberToString c Hc). f_equal.
  replace (S (List.length (numberToString c)))
    with (List.length (numberToString c ++ [DOLLAR]))
    by (rewrite length_app; cbn; lia).
  replace (numberToString c ++ DOLLAR :: rest)
    with ((numberToString c ++ [DOLLAR]) ++ rest)
    by (rewrite <- app_assoc; reflexivity).
  apply decode_from_skip.
Qed.

Lemma isAlnum_not_dollar : forall c, isAlnum c = true -> (c =? DOLLAR) = false.
Proof.
  intros c H. unfold isAlnum, isDigit, DOLLAR in *.
  apply Z.eqb_neq. intros ->. discriminate H.
Qed.

(** [decode] undoes [encode]: an identifier of any code units, encoded
    and then decoded, is the identifier again. *)
Theorem decode_encode : forall s,
  forallb isCodeUnit s = true -> decode (encode s) = s.
Proof.
  unfold decode. induction s as [|c s IH]; intros Hs; [reflexivity |].
  cbn [forallb] in Hs. apply andb_prop in Hs as [Hc Hs'].
  cbn [encode flat_map]. fold (encode s).
  destruct (isAlnum c) eqn:Ea.
  - cbn [app decode_from matchEscape].
    rewrite (isAlnum_not_dollar c Ea), (IH Hs'). reflexivity.
  - replace ((DOLLAR :: numberToString c ++ [DOLLAR]) ++ encode s)
      with (DOLLAR :: numberToString c ++ DOLLAR :: encode s)
      by (cbn; rewrite <- app_assoc; reflexivity).
    rewrite (decode_escape c (encode s) Hc), (IH Hs'). reflexivity.
Qed.

(** The identifier [a-b!$]. *)
Lemma decode_encode_witness :
  decode (encode [97; 45; 98; 33; 36]) = [97; 45; 98; 33; 36].
Proof. apply (decode_encode [97; 45; 98; 33; 36]). reflexivity. Defined.

Lemma isDigit_isAlnum : forall c, isDigit c = true -> isAlnum c = true.
Proof. intros c H. unfold isAlnum. rewrite H. apply orb_true_r. Qed.

(** An encoded identifier holds letters, digits and dollar signs only;
    and an identifier of letters and digits only is encoded as itself. *)
Theorem encode_alphabet :
  (forall s,
     forallb (fun c => isAlnum c || (c =? DOLLAR)) (encode s) = true) /\
  (forall s, forallb isAlnum s = true -> encode s = s).
Proof.
  split.
  - induction s as [|c s IH]; [reflexivity |].
    cbn [encode flat_map]. fold (encode s). rewrite forallb_app, IH.
    rewrite andb_true_r.
    destruct (isAlnum c) eqn:Ea; [cbn; rewrite Ea; reflexivity |].
    cbn [forallb]. change (DOLLAR =? DOLLAR) with true.
    rewrite orb_true_r. cbn [andb].
    rewrite forallb_app. cbn [forallb].
    change (DOLLAR =? DOLLAR) with true. rewrite orb_true_r, andb_true_r.
    apply forallb_forall. intros d Hd.
    pose proof (uintCodes_digits (N.to_uint (Z.to_N c))) as Hds.
    rewrite Forall_forall in Hds.
    rewrite (isDigit_isAlnum d (Hds d Hd)). reflexivity.
  - induction s as [|c s IH]; intros H; [reflexivity |].
    cbn [forallb] in H. apply andb_prop in H as [Hc Hs].
    cbn [encode flat_map]. fold (encode s). rewrite Hc, (IH Hs). reflexivity.
Qed.

(** The identifier [abc1]. *)
Lemma encode_alphabet_witness :
  forallb (fun c => isAlnum c || (c =? DOLLAR)) (encode [45; 62]) = true /\
  encode [97; 98; 99; 49] = [97; 98; 99; 49].
Proof.
  split.
  - apply (proj1 encode_alphabet [45; 62]).
  - apply (proj2 encode_alphabet [97; 98; 99; 49]). reflexivity.
Defined.

End EncodingFacts.

(** ** The scanner: what every scan keeps *)

Module TokenizerFacts.
Import Scanner ScannerSpec TokenizerSpec.

Lemma yields_bind : forall {A B} Thr (Q : A -> Tokenizer -> Prop)
    (R : B -> Tokenizer -> Prop) (m : T A) (k : A -> T B) t,
  yields Thr Q (m t) ->
  (forall a t', Q a t' -> yields Thr R (k a t')) ->
  yields Thr R (bind m k t).
Proof.
  intros A B Thr Q R m k t Hm Hk. unfold bind.
  destruct (m t) as [a t'| |]; cbn in *; auto.
Qed.

Lemma yields_weaken : forall {A} (Thr Thr' : TokenizerError -> Prop)
    (Q Q' : A -> Tokenizer -> Prop) r,
  yields Thr Q r ->
  (forall e, Thr e -> Thr' e) ->
  (forall a t, Q a t -> Q' a t) ->
  yields Thr' Q' r.
Proof. intros A Thr Thr' Q Q' [a t| |] H HT HQ; cbn in *; auto. Qed.

Lemma moved_refl : forall t, moved t t.
Proof. intros t. unfold moved. repeat split; lia. Qed.

Lemma moved_trans : forall t1 t2 t3, moved t1 t2 -> moved t2 t3 -> moved t1 t3.
Proof.
  intros t1 t2 t3 (S1 & K1 & B1 & L1 & U1) (S2 & K2 & B2 & L2 & U2).
  unfold moved. rewrite S2, S1, K2, K1, B2, B1. rewrite S1 in U2.
  repeat split; lia.
Qed.

Lemma isAtEnd_false : forall t,
  isAtEnd t = false <-> current t < String.length (source t).
Proof. intros t. unfold isAtEnd. rewrite Nat.leb_gt. reflexivity. Qed.

Lemma isAtEnd_true : forall t,
  isAtEnd t = true <-> String.length (source t) <= current t.
Proof. intros t. unfold isAtEnd. rewrite Nat.leb_le. reflexivity. Qed.

(** [advance()] inside the source moves the cursor by one. *)
Lemma advance_moved : forall t,
  isAtEnd t = false ->
  exists t', advance t = Ok (charAt (source t) (current t)) t' /\
             moved t t' /\ current t' = S (current t).
Proof.
  intros t H. apply isAtEnd_false in H. eexists. split; [reflexivity |].
  unfold moved. cbn. repeat split; lia.
Qed.

Lemma newLine_moved : forall t, exists t', newLine t = Ok tt t' /\ moved t t' /\ current t' = current t.
Proof.
  intros t. eexists. split; [reflexivity |]. split; [| reflexivity].
  unfold moved. cbn. repeat split; lia.
Qed.

(** The loop of [stringToken] and [symbolTokenLoose] ends, at the closing
    character or at the end of the input. *)
Lemma until_loop_moved : forall Thr close fuel t,
  String.length (source t) - current t < fuel ->
  yields Thr
    (fun _ t' => moved t t' /\ (isAtEnd t' = true \/ peek t' = close))
    (until_loop close fuel t).
Proof.
  intros Thr close. induction fuel as [|fuel IH]; intros t Hf; [lia |].
  cbn [until_loop]. unfold bind at 1, gets at 1.
  destruct (String.eqb (peek t) close) eqn:Ec; cbn [negb andb].
  - cbn. split; [apply moved_refl |]. right. apply String.eqb_eq, Ec.
  - destruct (isAtEnd t) eqn:Ee; cbn [negb].
    + cbn. split; [apply moved_refl | left; exact Ee].
    + assert (Hstep : exists t1, moved t t1 /\ current t1 = S (current t) /\
        ((if String.eqb (peek t) LF then newLine else ret tt) ;;;
         _ <- advance ;; until_loop close fuel) t = until_loop close fuel t1).
      { destruct (String.eqb (peek t) LF).
        - eexists. split; [| split; [| reflexivity]].
          + apply isAtEnd_false in Ee. unfold moved. cbn. repeat split; lia.
          + reflexivity.
        - eexists. split; [| split; [| reflexivity]].
          + apply isAtEnd_false in Ee. unfold moved. cbn. repeat split; lia.
          + reflexivity. }
      destruct Hstep as (t1 & Hm & Hc & ->).
      assert (Hs : source t1 = source t) by apply Hm.
      apply isAtEnd_false in Ee.
      eapply yields_weaken; [apply IH; rewrite Hs; lia | auto |].
      intros u t' [Hm' He]. split; [eapply moved_trans; eauto | exact He].
Qed.

Lemma peek_inside : forall t,
  isAtEnd t = false -> peek t = charAt (source t) (current t).
Proof. intros t H. unfold peek. rewrite H. reflexivity. Qed.

Lemma peek_at_end : forall t, isAtEnd t = true -> peek t = NUL.
Proof. intros t H. unfold peek. rewrite H. reflexivity. Qed.

Lemma valid_not_at_end : forall t,
  isValidSymbol (peek t) = true -> isAtEnd t = false.
Proof.
  intros t H. destruct (isAtEnd t) eqn:E; [| reflexivity].
  rewrite (peek_at_end t E) in H. discriminate H.
Qed.

Lemma advance_step : forall {A} (k : T A) t,
  (_ <- advance ;; k) t
  = k {| source := source t; tokens := tokens t; start := start t;
         current := S (current t); t_line := t_line t;
         t_col := (t_col t + 1)%Z |}.
Proof. reflexivity. Qed.

Lemma moved_advance : forall t,
  isAtEnd t = false ->
  moved t {| source := source t; tokens := tokens t; start := start t;
             current := S (current t); t_line := t_line t;
             t_col := (t_col t + 1)%Z |}.
Proof.
  intros t H. apply isAtEnd_false in H. unfold moved. cbn.
  repeat split; lia.
Qed.

(** The loop of a line comment ends, at the line break or at the end of
    the input. *)
Lemma lineComment_loop_moved : forall Thr fuel t,
  String.length (source t) - current t < fuel ->
  yields Thr (fun _ t' => moved t t') (lineComment_loop fuel t).
Proof.
  intros Thr. induction fuel as [|fuel IH]; intros t Hf; [lia |].
  cbn [lineComment_loop]. unfold bind at 1, gets at 1.
  destruct (negb (String.eqb (peek t) LF) && negb (isAtEnd t)) eqn:Ec.
  - apply andb_prop in Ec as [_ Ee]. apply negb_true_iff in Ee.
    rewrite advance_step.
    pose proof (moved_advance t Ee) as Hm. apply isAtEnd_false in Ee.
    eapply yields_weaken; [apply IH; cbn; lia | auto |].
    intros u t' Hm'. eapply moved_trans; eauto.
  - cbn. apply moved_refl.
Qed.

(** The loop of a symbol ends. *)
Lemma symbolToken_loop_moved : forall Thr fuel t,
  String.length (source t) - current t < fuel ->
  yields Thr (fun _ t' => moved t t') (symbolToken_loop fuel t).
Proof.
  intros Thr. induction fuel as [|fuel IH]; intros t Hf; [lia |].
  cbn [symbolToken_loop]. unfold bind at 1, gets at 1.
  destruct (isValidSymbol (peek t)) eqn:Ec.
  - pose proof (valid_not_at_end t Ec) as Ee.
    rewrite advance_step.
    pose proof (moved_advance t Ee) as Hm. apply isAtEnd_false in Ee.
    eapply yields_weaken; [apply IH; cbn; lia | auto |].
    intros u t' Hm'. eapply moved_trans; eauto.
  - cbn. apply moved_refl.
Qed.

(** The loop of a block comment ends, at the closing [|#] or at the end
    of the input. *)
Lemma comment_loop_moved : forall Thr fuel t,
  String.length (source t) - current t < fuel ->
  yields Thr
    (fun _ t' => moved t t' /\
       (isAtEnd t' = true \/ (peek t' = "|" /\ peekNext t' = "#"))%string)
    (comment_loop fuel t).
Proof.
  intros Thr. induction fuel as [|fuel IH]; intros t Hf; [lia |].
  cbn [comment_loop]. unfold bind at 1, gets at 1.
  destruct (String.eqb (peek t) "|" && String.eqb (peekNext t) "#") eqn:Ec;
    cbn [negb andb].
  - cbn. split; [apply moved_refl |]. right.
    apply andb_prop in Ec as [E1 E2].
    split; apply String.eqb_eq; assumption.
  - destruct (isAtEnd t) eqn:Ee; cbn [negb].
    + cbn. split; [apply moved_refl | left; exact Ee].
    + assert (Hstep : exists t1, moved t t1 /\ current t1 = S (current t) /\
        ((if String.eqb (peek t) LF then newLine else ret tt) ;;;
         _ <- advance ;; comment_loop fuel) t = comment_loop fuel t1).
      { apply isAtEnd_false in Ee.
        destruct (String.eqb (peek t) LF);
          (eexists; split; [| split; [| reflexivity]];
           [unfold moved; cbn; repeat split; lia | reflexivity]). }
      destruct Hstep as (t1 & Hm & Hc & ->).
      assert (Hs : source t1 = source t) by apply Hm.
      apply isAtEnd_false in Ee.
      eapply yields_weaken; [apply IH; rewrite Hs; lia | auto |].
      intros u t' [Hm' He]. split; [eapply moved_trans; eauto | exact He].
Qed.

(** *** Strings *)

Lemma charAt_inside : forall s i,
  i < String.length s -> exists c, charAt s i = String c EmptyString.
Proof.
  induction s as [|a s IH]; intros i H; cbn in H; [lia |].
  destruct i as [|i].
  - exists a. unfold charAt. cbn. destruct s; reflexivity.
  - destruct (IH i) as [c Hc]; [lia |]. exists c. exact Hc.
Qed.

Lemma substring_snoc : forall s i n,
  i + n < String.length s ->
  substring i (S n) s = (substring i n s ++ charAt s (i + n))%string.
Proof.
  induction s as [|a s IH]; intros i n H; cbn in H; [lia |].
  destruct i as [|i].
  - cbn [Nat.add]. destruct n as [|n].
    + unfold charAt. cbn. destruct s; reflexivity.
    + change (substring 0 (S (S n)) (String a s))
        with (String a (substring 0 (S n) s)).
      change (substring 0 (S n) (String a s))
        with (String a (substring 0 n s)).
      rewrite (IH 0 n) by (cbn; lia). reflexivity.
  - change (substring (S i) (S n) (String a s)) with (substring i (S n) s).
    change (substring (S i) n (String a s)) with (substring i n s).
    rewrite (IH i n) by lia. reflexivity.
Qed.

Lemma jsSubstring_le : forall s a b,
  a <= b -> jsSubstring s a b = substring a (b - a) s.
Proof.
  intros s a b H. unfold jsSubstring.
  rewrite Nat.min_l, Nat.max_r by lia. reflexivity.
Qed.



(** *** Numerals *)

Lemma eqb_one_char : forall c d,
  String.eqb (String c EmptyString) (String d EmptyString) = Ascii.eqb c d.
Proof. intros c d. cbn. destruct (Ascii.eqb c d); reflexivity. Qed.

Lemma isDigit_not_dot : forall c,
  isDigit (String c EmptyString) = true -> Ascii.eqb c "."%char = false.
Proof.
  intros c H. destruct (Ascii.eqb_spec c "."%char) as [-> |]; [| reflexivity].
  vm_compute in H. discriminate H.
Qed.

Lemma isDigit_not_minus : forall c,
  isDigit (String c EmptyString) = true -> Ascii.eqb c "-"%char = false.
Proof.
  intros c H. destruct (Ascii.eqb_spec c "-"%char) as [-> |]; [| reflexivity].
  vm_compute in H. discriminate H.
Qed.

Lemma allDigitsOrDots_snoc : forall r c,
  allDigitsOrDots (r ++ String c EmptyString)
  = allDigitsOrDots r && digitOrDot c.
Proof.
  induction r as [|a r IH]; intros c; cbn.
  - rewrite andb_true_r. reflexivity.
  - rewrite IH, andb_assoc. reflexivity.
Qed.

Lemma countDots_snoc : forall s c,
  countDots (s ++ String c EmptyString)
  = countDots s + (if Ascii.eqb c "."%char then 1 else 0).
Proof.
  induction s as [|a s IH]; intros c; cbn; [lia |].
  rewrite IH. lia.
Qed.

Lemma noDigit_allDots : forall r,
  allDigitsOrDots r = true -> hasDigit r = false ->
  countDots r = String.length r.
Proof.
  induction r as [|a r IH]; intros Ha Hd; [reflexivity |].
  cbn in *. apply andb_prop in Ha as [Ha Hr].
  apply orb_false_iff in Hd as [Hd Hd'].
  unfold digitOrDot in Ha. rewrite Hd in Ha. cbn in Ha. rewrite Ha.
  rewrite (IH Hr Hd'). reflexivity.
Qed.

(** A lexeme the flags accept, other than the three exceptions, is a
    numeral. *)
Lemma numberSoFar_shape : forall h lex,
  numberSoFar true h lex ->
  (String.eqb lex "." || String.eqb lex "-" || String.eqb lex "-.")%string
  = false ->
  numberShape lex = true.
Proof.
  intros h lex H Hex. destruct (H eq_refl) as (c & r & -> & Hc & Hr & Hn).
  apply orb_false_iff in Hex as [Hex E3].
  apply orb_false_iff in Hex as [E1 E2].
  unfold numberShape. rewrite Hc, Hr. cbn [andb].
  assert (Hle : countDots (String c r) <= 1) by (rewrite Hn; destruct h; lia).
  apply andb_true_intro. split; [apply Nat.leb_le, Hle |].
  cbn [hasDigit]. destruct (isDigit (String c EmptyString)) eqn:Ed;
    [reflexivity |]. cbn [orb].
  destruct (hasDigit r) eqn:Hd; [reflexivity | exfalso].
  pose proof (noDigit_allDots r Hr Hd) as Hall.
  unfold firstOfNumber in Hc. rewrite Ed in Hc. cbn [orb] in Hc.
  cbn [countDots] in Hle.
  destruct (Ascii.eqb_spec c "."%char) as [-> | Hnd].
  - assert (String.length r = 0) by lia.
    destruct r; [discriminate E1 | discriminate].
  - destruct (Ascii.eqb_spec c "-"%char) as [-> | Hnm]; [| discriminate Hc].
    destruct r as [|x r]; [discriminate E2 |].
    destruct r as [|y r]; [| cbn in Hall, Hle; lia].
    cbn in Hall. destruct (Ascii.eqb_spec x "."%char) as [-> |];
      [discriminate E3 | lia].
Qed.

(** The loop of [symbolNumberToken] ends, and its flags describe the
    lexeme read. *)
Lemma symbolNumberToken_loop_shape : forall Thr fuel t v h,
  start t < current t ->
  String.length (source t) - current t < fuel ->
  numberSoFar v h (substring (start t) (current t - start t) (source t)) ->
  yields Thr
    (fun flags t' =>
       moved t t' /\
       numberSoFar (fst flags) (snd flags)
         (substring (start t') (current t' - start t') (source t')))
    (symbolNumberToken_loop fuel v h t).
Proof.
  intros Thr. induction fuel as [|fuel IH]; intros t v h Hs Hf Hn; [lia |].
  cbn [symbolNumberToken_loop]. unfold bind at 1, gets at 1.
  destruct (isValidSymbol (peek t)) eqn:Ev;
    [| cbn; split; [apply moved_refl | exact Hn]].
  pose proof (valid_not_at_end t Ev) as Ee.
  pose proof (moved_advance t Ee) as Hm.
  rewrite (peek_inside t Ee) in *.
  pose proof Ee as Hlt. apply isAtEnd_false in Hlt.
  destruct (charAt_inside (source t) (current t) Hlt) as [c Hc].
  rewrite Hc in *.
  set (t1 := {| source := source t; tokens := tokens t; start := start t;
                current := S (current t); t_line := t_line t;
                t_col := (t_col t + 1)%Z |}) in *.
  assert (Hlex : substring (start t1) (current t1 - start t1) (source t1)
                 = (substring (start t) (current t - start t) (source t)
                    ++ String c EmptyString)%string).
  { cbn [t1 start current source].
    replace (S (current t) - start t) with (S (current t - start t)) by lia.
    rewrite substring_snoc by lia.
    replace (start t + (current t - start t)) with (current t) by lia.
    rewrite Hc. reflexivity. }
  assert (Hgo : forall v' h',
    numberSoFar v' h'
      (substring (start t) (current t - start t) (source t)
       ++ String c EmptyString) ->
    yields Thr
      (fun flags t' =>
         moved t t' /\
         numberSoFar (fst flags) (snd flags)
           (substring (start t') (current t' - start t') (source t')))
      ((_ <- advance ;; symbolNumberToken_loop fuel v' h') t)).
  { intros v' h' Hn'. rewrite advance_step. fold t1.
    eapply yields_weaken;
      [apply IH; [cbn; lia | cbn; lia | rewrite Hlex; exact Hn'] | auto |].
    intros fl t' [Hm' Hn'']. split; [eapply moved_trans; eauto | exact Hn'']. }
  assert (Hfalse : forall h' lex, numberSoFar false h' lex)
    by (intros h' lex E; discriminate E).
  assert (Hkeep : forall h',
    (Ascii.eqb c "."%char = true -> h = false /\ h' = true) ->
    (Ascii.eqb c "."%char = false ->
     h' = h /\ isDigit (String c EmptyString) = true) ->
    numberSoFar v h'
      (substring (start t) (current t - start t) (source t)
       ++ String c EmptyString)).
  { intros h' Hdot Hdig Ev'. destruct (Hn Ev') as (c0 & r & E & Hc0 & Hr & Hcount).
    rewrite E. exists c0, (r ++ String c EmptyString)%string.
    split; [reflexivity |]. split; [exact Hc0 |].
    rewrite allDigitsOrDots_snoc, Hr.
    change (String c0 (r ++ String c EmptyString))
      with (String c0 r ++ String c EmptyString)%string.
    rewrite countDots_snoc, <- E, Hcount. unfold digitOrDot.
    destruct (Ascii.eqb c "."%char) eqn:Ed.
    - destruct (Hdot eq_refl) as [-> ->]. rewrite orb_true_r. auto.
    - destruct (Hdig eq_refl) as [-> ->]. cbn. split; [reflexivity |].
      destruct h; lia. }
  rewrite eqb_one_char.
  destruct (isDigit (String c EmptyString)) eqn:Ed; cbn [negb].
  - apply Hgo, Hkeep.
    + intros E. rewrite (isDigit_not_dot c Ed) in E. discriminate E.
    + auto.
  - destruct (Ascii.eqb c "."%char) eqn:Edot; [| apply Hgo, Hfalse].
    destruct h; [apply Hgo, Hfalse |].
    destruct (isDigit (peekNext t) || isWhitespace (peekNext t));
      [| apply Hgo, Hfalse].
    apply Hgo, Hkeep; [auto | intros E; discriminate E].
Qed.


(** *** The invariants of a scan *)

Lemma ForallOrdPairs_snoc : forall {A} (R : A -> A -> Prop) l x,
  ForallOrdPairs R l -> Forall (fun a => R a x) l ->
  ForallOrdPairs R (l ++ [x]).
Proof.
  intros A R l x Hl. induction Hl as [|a l Ha Hl IH]; intros Hx; cbn.
  - constructor; constructor.
  - inversion Hx as [|? ? Hax Hx']; subst. constructor.
    + apply Forall_app. split; [exact Ha | constructor; [exact Hax | constructor]].
    + apply IH, Hx'.
Qed.

Lemma checkKeyword_type : forall t,
  checkKeyword t <> EOF /\ checkKeyword t <> NUMBER.
Proof.
  intros t. unfold checkKeyword.
  match goal with
  | |- context [KEYWORDS_get KEYWORDS ?x] => generalize x
  end.
  intros text. cbn [KEYWORDS KEYWORDS_get].
  repeat match goal with
         | |- context [if ?b then _ else _] => destruct b
         end; split; discriminate.
Qed.

Section Scan.
Variable src : string.

Lemma Scanning_moved : forall t t',
  Scanning src t -> moved t t' -> Scanning src t'.
Proof.
  intros t t' (Hs & Hsc & Hc & Ht & Ho & He) (S1 & K1 & B1 & L1 & U1).
  unfold Scanning. rewrite S1, K1, B1. rewrite Hs in U1.
  repeat split; auto; lia.
Qed.

Lemma Scanned_moved : forall t t',
  Scanning src t -> moved t t' -> Scanned src t'.
Proof.
  intros t t' (Hs & Hsc & Hc & Ht & Ho & He) (S1 & K1 & B1 & L1 & U1).
  unfold Scanned. rewrite S1, K1. rewrite Hs in U1.
  repeat split; auto; [lia |].
  eapply Forall_impl; [| exact He]. cbn. intros tk Htk. lia.
Qed.

(** [addToken] inside a lexeme that is not empty. *)
Lemma addToken_Scanned : forall Thr ty lit t,
  Scanning src t -> start t < current t ->
  ty <> EOF ->
  (ty = NUMBER ->
   numberShape (substring (start t) (current t - start t) src) = true) ->
  yields Thr
    (fun _ t' => Scanned src t' /\ current t' = current t /\
                 start t' = start t /\ source t' = source t)
    (addToken ty lit t).
Proof.
  intros Thr ty lit t (Hs & Hsc & Hc & Ht & Ho & He) Hlt Hty Hnum.
  unfold addToken, bind, gets, pushToken, modify. cbn.
  split; [| auto]. unfold Scanned. cbn.
  rewrite Hs, jsSubstring_le by lia.
  repeat split; auto.
  - apply Forall_app. split; [exact Ht |]. constructor; [| constructor].
    unfold tokenOf, newToken. cbn. repeat split; auto; lia.
  - apply ForallOrdPairs_snoc; [exact Ho |].
    eapply Forall_impl; [| exact He]. cbn. auto.
  - apply Forall_app. split.
    + eapply Forall_impl; [| exact He]. cbn. intros tk Htk. lia.
    + constructor; [cbn; lia | constructor].
Qed.

(** [match(expected)] keeps the invariant of a lexeme. *)
Lemma match_moved : forall Thr expected t,
  yields Thr (fun _ t' => moved t t') (match_ expected t).
Proof.
  intros Thr expected t. unfold match_.
  destruct (isAtEnd t) eqn:Ee; [cbn; apply moved_refl |].
  destruct (negb _); cbn; [apply moved_refl |].
  apply isAtEnd_false in Ee. unfold moved. cbn. repeat split; lia.
Qed.

Local Abbreviation token_done t :=
  (yields (scanError src)
     (fun (_ : unit) t' => Scanned src t' /\ current t <= current t')).

Lemma done_addToken : forall ty lit t,
  Scanning src t -> start t < current t ->
  ty <> EOF -> ty <> NUMBER ->
  token_done t (addToken ty lit t).
Proof.
  intros ty lit t HS Hlt H1 H2.
  eapply yields_weaken;
    [apply (addToken_Scanned (scanError src) ty lit t HS Hlt H1);
     intros E; contradiction
    | auto |].
  cbn. intros _ t' (H & Hc & _). split; [exact H | lia].
Qed.

Lemma done_moved : forall t0 t (m : T unit),
  Scanning src t0 -> moved t0 t ->
  yields (scanError src) (fun _ t' => moved t t') (m t) ->
  token_done t (m t).
Proof.
  intros t0 t m HS Hm H. eapply yields_weaken; [exact H | auto |].
  cbn. intros _ t' Hm'. split.
  - eapply Scanned_moved; [exact HS |]. eapply moved_trans; eauto.
  - apply Hm'.
Qed.

Lemma done_symbolToken : forall t,
  Scanning src t -> start t < current t -> token_done t (symbolToken t).
Proof.
  intros t HS Hlt. unfold symbolToken.
  unfold bind at 1, gets at 1.
  eapply yields_bind;
    [apply (symbolToken_loop_moved (scanError src)); lia |].
  cbn beta. intros _ t1 Hm. unfold bind at 1, gets at 1.
  destruct (checkKeyword_type t1) as [H1 H2].
  eapply yields_weaken;
    [apply done_addToken; [eapply Scanning_moved; eauto | | exact H1 | exact H2]
    | auto |].
  - destruct Hm as (_ & _ & -> & ? & _). lia.
  - cbn. intros _ t' [H Hc]. split; [exact H |].
    destruct Hm as (_ & _ & _ & ? & _). lia.
Qed.

Lemma done_stringToken : forall t,
  Scanning src t -> start t < current t -> token_done t (stringToken t).
Proof.
  intros t HS Hlt. unfold stringToken.
  unfold bind at 1, gets at 1.
  eapply yields_bind;
    [apply (until_loop_moved (scanError src)); lia |].
  cbn beta. intros _ t1 [Hm _]. unfold bind at 1, gets at 1.
  destruct (isAtEnd t1) eqn:Ee; [exact I |].
  rewrite advance_step. unfold bind at 1, gets at 1.
  pose proof (moved_advance t1 Ee) as Hm1.
  set (t2 := {| source := source t1; tokens := tokens t1; start := start t1;
                current := S (current t1); t_line := t_line t1;
                t_col := (t_col t1 + 1)%Z |}) in *.
  pose proof (moved_trans _ _ _ Hm Hm1) as Hm2.
  eapply yields_weaken;
    [apply done_addToken;
     [eapply Scanning_moved; eauto | | discriminate | discriminate]
    | auto |].
  - destruct Hm2 as (_ & _ & -> & ? & _). lia.
  - cbn. intros _ t' [H Hc]. split; [exact H |].
    destruct Hm2 as (_ & _ & _ & ? & _). subst t2. cbn [current] in *. lia.
Qed.

Lemma done_comment : forall t,
  Scanning src t -> token_done t (comment t).
Proof.
  intros t HS. unfold comment.
  unfold bind at 1, gets at 1.
  eapply yields_bind;
    [apply (comment_loop_moved (scanError src)); lia |].
  cbn beta. intros _ t1 [Hm Hend]. unfold bind at 1, gets at 1.
  destruct (isAtEnd t1) eqn:Ee; [exact I |].
  destruct Hend as [Hend | [_ Hnext]]; [congruence |].
  assert (Hlt : S (current t1) < String.length (source t1)).
  { unfold peekNext in Hnext.
    destruct (Nat.leb_spec (String.length (source t1)) (current t1 + 1));
      [discriminate Hnext | lia]. }
  pose proof (Scanning_moved _ _ HS Hm) as (Hs & Hsc & Hc & Ht & Ho & He).
  cbn. unfold Scanned. cbn. rewrite Hs in *.
  repeat split; auto; try lia.
  - eapply Forall_impl; [| exact He]. cbn. intros tk Htk. lia.
  - destruct Hm as (_ & _ & _ & ? & _). lia.
Qed.

Lemma done_symbolTokenLoose : forall t,
  Scanning src t -> token_done t (symbolTokenLoose t).
Proof.
  intros t HS. unfold symbolTokenLoose.
  change ((jump ;;;
           n <- gets (fun t => String.length (source t)) ;;
           until_loop "|" (S n) ;;;
           t0 <- gets (fun t => t) ;;
           (if isAtEnd t0
            then throw (UnexpectedEOFError (t_line t0) (t_col t0))
            else addToken (checkKeyword t0) LNull ;;; jump)) t)
    with ((n <- gets (fun t => String.length (source t)) ;;
           until_loop "|" (S n) ;;;
           t0 <- gets (fun t => t) ;;
           (if isAtEnd t0
            then throw (UnexpectedEOFError (t_line t0) (t_col t0))
            else addToken (checkKeyword t0) LNull ;;; jump))
            {| source := source t; tokens := tokens t; start := current t;
               current := S (current t); t_line := t_line t;
               t_col := (t_col t + 1)%Z |}).
  set (t1 := {| source := source t; tokens := tokens t; start := current t;
                current := S (current t); t_line := t_line t;
                t_col := (t_col t + 1)%Z |}).
  unfold bind at 1, gets at 1.
  eapply yields_bind;
    [apply (until_loop_moved (scanError src)); lia |].
  cbn beta. intros _ t2 [Hm _]. unfold bind at 1, gets at 1.
  destruct (isAtEnd t2) eqn:Ee; [exact I |].
  apply isAtEnd_false in Ee.
  destruct HS as (Hs & Hsc & Hc & Ht & Ho & He).
  destruct Hm as (S1 & K1 & B1 & L1 & U1). cbn [t1 source tokens start current] in *.
  assert (HS2 : Scanning src t2).
  { unfold Scanning. rewrite S1, K1, B1, Hs in *. repeat split; auto; try lia.
    eapply Forall_impl; [| exact He]. cbn. intros tk Htk. lia. }
  destruct (checkKeyword_type t2) as [H1 H2].
  eapply yields_bind;
    [apply (addToken_Scanned (scanError src) _ LNull t2 HS2);
     [lia | exact H1 | intros E; contradiction] |].
  cbn beta. intros _ t3 ((Hs3 & Hc3 & Ht3 & Ho3 & He3) & Hcur & Hst & Hsrc).
  cbn. unfold Scanned. cbn. rewrite Hs3, Hcur, S1, Hs in *.
  repeat split; auto; try lia.
  eapply Forall_impl; [| exact He3]. cbn. intros tk Htk. lia.
Qed.

Lemma done_symbolNumberToken : forall t a,
  Scanning src t -> current t = S (start t) ->
  charAt src (start t) = String a EmptyString ->
  firstOfNumber a = true ->
  token_done t (symbolNumberToken t).
Proof.
  intros t a HS Hcur Ha Hfirst. unfold symbolNumberToken.
  pose proof HS as (Hs & Hsc & Hc & _).
  unfold bind at 1, gets at 1. unfold bind at 1, gets at 1.
  assert (Hprev : peekPrev t = String a EmptyString).
  { unfold peekPrev. rewrite Hcur, Hs. cbn [Nat.eqb].
    replace (S (start t) - 1) with (start t) by lia. exact Ha. }
  rewrite Hprev, eqb_one_char.
  eapply yields_bind.
  - apply (symbolNumberToken_loop_shape (scanError src)); [lia | lia |].
    rewrite Hs, Hcur.
    replace (S (start t) - start t) with 1 by lia.
    fold (charAt src (start t)). rewrite Ha.
    intros _. exists a, EmptyString. repeat split; auto.
  - cbn beta. intros [v h] t1 [Hm Hn]. cbn [fst snd] in *.
    unfold bind at 1, gets at 1.
    pose proof (Scanning_moved _ _ HS Hm) as HS1.
    pose proof HS1 as (Hs1 & Hsc1 & Hc1 & _).
    assert (Hlt1 : start t1 < current t1)
      by (destruct Hm as (_ & _ & -> & ? & _); lia).
    rewrite jsSubstring_le by lia.
    destruct (checkKeyword_type t1) as [H1 H2].
    assert (Hle : current t <= current t1) by apply Hm.
    match goal with
    | |- context [if (if ?b then false else v) then _ else _] =>
        destruct b eqn:Eex
    end.
    + eapply yields_weaken;
        [apply done_addToken; auto | auto |].
      cbn. intros _ t' [H Hc']. split; [exact H | lia].
    + destruct v.
      * eapply yields_weaken;
          [apply (addToken_Scanned (scanError src) NUMBER _ t1 HS1 Hlt1);
           [discriminate |] | auto |].
        -- intros _. rewrite <- Hs1. eapply numberSoFar_shape; eauto.
        -- cbn. intros _ t' (H & Hc' & _). split; [exact H | lia].
      * eapply yields_weaken;
          [apply done_addToken; auto | auto |].
        cbn. intros _ t' [H Hc']. split; [exact H | lia].
Qed.


Lemma done_after : forall t0 t r,
  current t0 <= current t -> token_done t r -> token_done t0 r.
Proof.
  intros t0 t r Hle H. eapply yields_weaken; [exact H | auto |].
  cbn. intros _ t' [H1 H2]. split; [exact H1 | lia].
Qed.

Lemma advance_bind : forall {A} (k : string -> T A) t,
  (c <- advance ;; k c) t
  = k (charAt (source t) (current t))
      {| source := source t; tokens := tokens t; start := start t;
         current := S (current t); t_line := t_line t;
         t_col := (t_col t + 1)%Z |}.
Proof. reflexivity. Qed.

(** One call of [scanToken] between two tokens: it ends, the cursor has
    moved forward, and the tokens are as they should be. *)
Lemma scanToken_done : forall t,
  Scanning src t -> start t = current t ->
  current t < String.length src ->
  yields (scanError src)
    (fun _ t' => Scanned src t' /\ current t < current t')
    (scanToken t).
Proof.
  intros t HS Hst Hlt. unfold scanToken. rewrite advance_bind.
  pose proof HS as (Hs & _).
  assert (Hend : isAtEnd t = false) by (apply isAtEnd_false; rewrite Hs; lia).
  pose proof (moved_advance t Hend) as Hm.
  pose proof (Scanning_moved _ _ HS Hm) as HS1.
  set (t1 := {| source := source t; tokens := tokens t; start := start t;
                current := S (current t); t_line := t_line t;
                t_col := (t_col t + 1)%Z |}) in *.
  assert (Hlt1 : start t1 < current t1) by (cbn; lia).
  assert (Hcur1 : current t1 = S (start t1)) by (cbn; lia).
  rewrite Hs. destruct (charAt_inside src (current t) Hlt) as [a Ha].
  rewrite Ha.
  cut (token_done t1
         ((fun c : string =>
           if String.eqb c "(" then addToken LEFT_PAREN LNull
  else if String.eqb c ")" then addToken RIGHT_PAREN LNull
  else if String.eqb c "[" then addToken LEFT_BRACKET LNull
  else if String.eqb c "]" then addToken RIGHT_BRACKET LNull
  else if String.eqb c "'" then addToken APOSTROPHE LNull
  else if String.eqb c "`" then addToken BACKTICK LNull
  else if String.eqb c "," then
    m <- match_ "@" ;;
    if m then addToken COMMA_AT LNull else addToken COMMA LNull
  else if String.eqb c "#" then
    mt <- match_ "t" ;;
    mtf <- (if mt then ret true else match_ "f") ;;
    if mtf then booleanToken
    else
      mp <- match_ "|" ;;
      if mp then comment else addToken HASH LNull
  else if String.eqb c ";" then
    n <- gets (fun t => String.length (source t)) ;;
    lineComment_loop (S n)
  else if String.eqb c " " || String.eqb c CR || String.eqb c TAB then ret tt
  else if String.eqb c LF then newLine
  else if String.eqb c DQUOTE then stringToken
  else if String.eqb c "|" then symbolTokenLoose
  else if isDigit c || String.eqb c "-" || String.eqb c "." then
    symbolNumberToken
  else if isValidSymbol c then symbolToken
  else
    t <- gets (fun t => t) ;;
    throw (UnexpectedCharacterError (t_line t) (t_col t) c))
          (String a EmptyString) t1)).
  { intros H. eapply yields_weaken; [exact H | auto |].
    cbn. intros _ t' [H1 H2]. split; [exact H1 | lia]. }
  cbv beta.
  assert (Hadd : forall ty, ty <> EOF -> ty <> NUMBER ->
                 token_done t1 (addToken ty LNull t1))
    by (intros; apply done_addToken; auto).
  assert (Hadd' : forall ty t2, moved t1 t2 -> ty <> EOF -> ty <> NUMBER ->
                  forall lit, token_done t1 (addToken ty lit t2)).
  { intros ty t2 Hm2 H1 H2 lit. apply (done_after t1 t2); [apply Hm2 |].
    apply done_addToken; auto; [eapply Scanning_moved; eauto |].
    destruct Hm2 as (_ & _ & -> & ? & _). lia. }
  repeat match goal with
         | |- token_done _ ((if String.eqb ?c ?d then _ else _) _) =>
             destruct (String.eqb c d) eqn:?
         end;
    try (apply Hadd; discriminate).
  - (* comma *)
    eapply yields_bind; [apply (match_moved (scanError src)) |].
    cbn beta. intros [|] t2 Hm2; apply Hadd'; auto; discriminate.
  - (* hash *)
    eapply yields_bind; [apply (match_moved (scanError src)) |].
    cbn beta. intros mt t2 Hm2.
    eapply yields_bind with (Q := fun _ t3 => moved t1 t3).
    { destruct mt; [cbn; exact Hm2 |].
      eapply yields_weaken; [apply (match_moved (scanError src)) | auto |].
      cbn. intros _ t3 Hm3. eapply moved_trans; eauto. }
    cbn beta. intros [|] t3 Hm3.
    + unfold booleanToken, bind at 1, gets at 1.
      apply Hadd'; auto; discriminate.
    + eapply yields_bind; [apply (match_moved (scanError src)) |].
      cbn beta. intros [|] t4 Hm4.
      * apply (done_after t1 t4);
          [destruct Hm3 as (_ & _ & _ & ? & _);
           destruct Hm4 as (_ & _ & _ & ? & _); lia |].
        apply done_comment. eapply Scanning_moved; [exact HS1 |].
        eapply moved_trans; eauto.
      * apply Hadd'; [eapply moved_trans; eauto | discriminate | discriminate].
  - (* line comment *)
    unfold bind at 1, gets at 1.
    apply (done_moved t1); [exact HS1 | apply moved_refl |].
    apply lineComment_loop_moved. lia.
  - destruct (String.eqb (String a EmptyString) " " ||
              String.eqb (String a EmptyString) CR ||
              String.eqb (String a EmptyString) TAB) eqn:Ews.
    { apply (done_moved t1); [exact HS1 | apply moved_refl |].
      cbn. apply moved_refl. }
    destruct (String.eqb (String a EmptyString) LF) eqn:Elf.
    { apply (done_moved t1); [exact HS1 | apply moved_refl |].
      destruct (newLine_moved t1) as (t' & -> & Hm' & _). exact Hm'. }
    destruct (String.eqb (String a EmptyString) DQUOTE) eqn:Edq;
      [apply done_stringToken; auto |].
    destruct (String.eqb (String a EmptyString) "|") eqn:Epipe;
      [apply done_symbolTokenLoose; auto |].
    destruct (isDigit (String a EmptyString) ||
              String.eqb (String a EmptyString) "-" ||
              String.eqb (String a EmptyString) ".") eqn:Enum.
    { apply (done_symbolNumberToken t1 a); auto.
      - cbn [t1 start]. rewrite Hst. exact Ha.
      - unfold firstOfNumber. rewrite <- !eqb_one_char. exact Enum. }
    destruct (isValidSymbol (String a EmptyString)) eqn:Ev;
      [apply done_symbolToken; auto |].
    unfold bind at 1, gets at 1. cbn.
    assert (En : String a EmptyString = NUL).
    { unfold isValidSymbol, isWhitespace, isSpecialSyntax in Ev.
      apply orb_false_iff in Ews as [Ews Etab].
      apply orb_false_iff in Ews as [Esp Ecr].
      repeat match goal with
             | H : String.eqb _ _ = false |- _ => rewrite H in Ev; clear H
             end.
      apply String.eqb_eq.
      destruct (String.eqb (String a EmptyString) NUL);
        [reflexivity | discriminate Ev]. }
    split; [exact En |]. exists (current t). rewrite Ha. auto.
Qed.

(** The loop of [scanTokens] ends at the end of the source. *)
Lemma scanTokens_loop_done : forall fuel t,
  Scanned src t ->
  String.length src - current t < fuel ->
  yields (scanError src)
    (fun _ t' => Scanned src t' /\ current t' = String.length src)
    (scanTokens_loop fuel t).
Proof.
  induction fuel as [|fuel IH]; intros t HS Hf; [lia |].
  cbn [scanTokens_loop]. unfold bind at 1, gets at 1.
  pose proof HS as (Hs & Hc & Ht & Ho & He).
  destruct (isAtEnd t) eqn:Ee.
  - cbn. split; [exact HS |]. apply isAtEnd_true in Ee. rewrite Hs in Ee. lia.
  - apply isAtEnd_false in Ee. rewrite Hs in Ee.
    change ((setStart ;;; scanToken ;;; scanTokens_loop fuel) t)
      with ((scanToken ;;; scanTokens_loop fuel)
              {| source := source t; tokens := tokens t; start := current t;
                 current := current t; t_line := t_line t;
                 t_col := t_col t |}).
    eapply yields_bind.
    + apply scanToken_done; [| reflexivity | exact Ee].
      unfold Scanning. cbn. repeat split; auto.
    + cbn beta. intros _ t' [HS' Hlt]. cbn [current] in Hlt.
      apply IH; [exact HS' | lia].
Qed.

(** [scanTokens] on a new tokenizer: it ends; the list it returns is the
    tokens of the source, in order, and then the one [EOF] token. *)
Lemma scanTokens_spec : forall t,
  t = newTokenizer src ->
  yields (scanError src)
    (fun toks _ =>
       exists body eof,
         toks = body ++ [eof] /\
         Forall (tokenOf src) body /\ inSourceOrder body /\
         type eof = EOF /\ lexeme eof = EmptyString /\
         tok_end eof = String.length src)
    (scanTokens t).
Proof.
  intros t ->. unfold scanTokens. unfold bind at 1, gets at 1.
  eapply yields_bind.
  - apply scanTokens_loop_done; [| cbn; lia].
    unfold Scanned. cbn. repeat split; auto; try lia; constructor.
  - cbn beta. intros _ t' [(Hs & Hc & Ht & Ho & He) Hcur]. cbn.
    eexists _, _. split; [reflexivity |]. auto.
Qed.

End Scan.


(** *** What a scan returns *)

(** [scanTokens] ends on every source, and a list it returns ends with the
    one [EOF] token, of empty lexeme, at the end of the source. *)
Theorem scanTokens_ends_with_EOF : forall src,
  match scanTokens (newTokenizer src) with
  | Ok toks _ =>
      exists body eof,
        toks = body ++ [eof] /\
        Forall (fun tk => type tk <> EOF) body /\
        type eof = EOF /\ lexeme eof = EmptyString /\
        tok_end eof = String.length src
  | Throw _ _ => True
  | OutOfFuel => False
  end.
Proof.
  intros src. pose proof (scanTokens_spec src _ eq_refl) as H.
  destruct (scanTokens (newTokenizer src)) as [toks t'|e t'|]; cbn in H; auto.
  destruct H as (body & eof & -> & Hb & _ & H1 & H2 & H3).
  exists body, eof. repeat split; auto.
  eapply Forall_impl; [| exact Hb]. intros tk (_ & _ & _ & H & _). exact H.
Qed.

Lemma removelast_snoc : forall {A} (l : list A) x, removelast (l ++ [x]) = l.
Proof. intros A l x. apply removelast_last. Qed.

(** The offsets of a token delimit its lexeme in the source: the lexeme of
    every token before the [EOF] is the text from [start] to [end], which
    is not empty and lies within the source. *)
Theorem scanTokens_lexemes : forall src toks t',
  scanTokens (newTokenizer src) = Ok toks t' ->
  Forall (fun tk =>
            lexeme tk = jsSubstring src (tok_start tk) (tok_end tk) /\
            tok_start tk < tok_end tk /\ tok_end tk <= String.length src)
    (removelast toks).
Proof.
  intros src toks t' E. pose proof (scanTokens_spec src _ eq_refl) as H.
  rewrite E in H. destruct H as (body & eof & -> & Hb & _).
  rewrite removelast_snoc. eapply Forall_impl; [| exact Hb].
  intros tk (H1 & H2 & H3 & _). rewrite jsSubstring_le by lia. auto.
Qed.

(** The tokens before the [EOF] are in the order of the source and do
    not overlap: each ends before the next ones start. *)
Theorem scanTokens_in_order : forall src toks t',
  scanTokens (newTokenizer src) = Ok toks t' ->
  inSourceOrder (removelast toks).
Proof.
  intros src toks t' E. pose proof (scanTokens_spec src _ eq_refl) as H.
  rewrite E in H. destruct H as (body & eof & -> & _ & Ho & _).
  rewrite removelast_snoc. exact Ho.
Qed.

(** The one character a scan rejects is NUL: an error of [scanTokens] is
    the end of the input inside a string, a block comment or a loose
    symbol, or it is the unexpected character NUL, which the source
    holds. *)
Theorem scanTokens_errors : forall src e t',
  scanTokens (newTokenizer src) = Throw e t' ->
  scanError src e.
Proof.
  intros src e t' E. pose proof (scanTokens_spec src _ eq_refl) as H.
  rewrite E in H. exact H.
Qed.

(** Every [NUMBER] token is a decimal numeral: its lexeme starts with a
    digit, a minus sign or a dot, goes on with digits and dots, and holds
    at most one dot and at least one digit. *)
Theorem scanTokens_numbers : forall src toks t',
  scanTokens (newTokenizer src) = Ok toks t' ->
  Forall (fun tk => type tk = NUMBER -> numberShape (lexeme tk) = true) toks.
Proof.
  intros src toks t' E. pose proof (scanTokens_spec src _ eq_refl) as H.
  rewrite E in H. destruct H as (body & eof & -> & Hb & _ & He & _).
  apply Forall_app. split.
  - eapply Forall_impl; [| exact Hb]. intros tk (_ & _ & _ & _ & H). exact H.
  - constructor; [| constructor]. intros H. congruence.
Qed.


(** *** Lines and columns *)








































(** *** Blank sources *)

Lemma allBlank_charAt : forall s i,
  allBlank s = true -> i < String.length s ->
  exists a, charAt s i = String a EmptyString /\ isBlank a = true.
Proof.
  induction s as [|c s IH]; intros i H Hi; cbn in Hi; [lia |].
  cbn in H. apply andb_prop in H as [Hc Hs].
  destruct i as [|i].
  - exists c. split; [| exact Hc]. unfold charAt. cbn. destruct s; reflexivity.
  - destruct (IH i Hs) as (a & Ha & Hb); [lia |]. exists a. split; auto.
Qed.

Lemma scanToken_blank : forall t a,
  charAt (source t) (current t) = String a EmptyString ->
  isBlank a = true ->
  exists t', scanToken t = Ok tt t' /\ source t' = source t /\
             tokens t' = tokens t /\ current t' = S (current t).
Proof.
  intros t a Ha Hb. unfold scanToken. rewrite advance_bind, Ha.
  unfold isBlank in Hb.
  apply orb_prop in Hb as [Hb | Hb]; [apply orb_prop in Hb as [Hb | Hb];
    [apply orb_prop in Hb as [Hb | Hb] |] |];
    apply Ascii.eqb_eq in Hb; subst a; cbn;
    eexists; repeat split; reflexivity.
Qed.

Lemma scanTokens_loop_blank : forall fuel t,
  allBlank (source t) = true ->
  String.length (source t) - current t < fuel ->
  exists t', scanTokens_loop fuel t = Ok tt t' /\ source t' = source t /\
             tokens t' = tokens t.
Proof.
  induction fuel as [|fuel IH]; intros t Hb Hf; [lia |].
  cbn [scanTokens_loop]. unfold bind at 1, gets at 1.
  destruct (isAtEnd t) eqn:Ee; [eexists; repeat split; reflexivity |].
  apply isAtEnd_false in Ee.
  change ((setStart ;;; scanToken ;;; scanTokens_loop fuel) t)
    with ((scanToken ;;; scanTokens_loop fuel)
            {| source := source t; tokens := tokens t; start := current t;
               current := current t; t_line := t_line t;
               t_col := t_col t |}).
  destruct (allBlank_charAt _ _ Hb Ee) as (a & Ha & Hba).
  destruct (scanToken_blank
              {| source := source t; tokens := tokens t; start := current t;
                 current := current t; t_line := t_line t;
                 t_col := t_col t |} a Ha Hba) as (t1 & E1 & S1 & K1 & C1).
  unfold bind at 1. rewrite E1. cbn [source tokens current] in *.
  destruct (IH t1) as (t' & E' & S' & K'); [rewrite S1; exact Hb | rewrite S1; lia |].
  exists t'. rewrite S', K', S1, K1. auto.
Qed.

(** A source of blanks only, the empty source among them, scans to the
    [EOF] token alone. *)
Theorem scanTokens_blank : forall src,
  allBlank src = true ->
  exists eof t',
    scanTokens (newTokenizer src) = Ok [eof] t' /\
    type eof = EOF /\ tok_end eof = String.length src.
Proof.
  intros src Hb. unfold scanTokens. unfold bind at 1, gets at 1.
  destruct (scanTokens_loop_blank (S (String.length src)) (newTokenizer src))
    as (t' & E & Hs & Hk); [exact Hb | cbn; lia |].
  cbn [source newTokenizer] in *. unfold bind at 1. rewrite E.
  pose proof (scanTokens_spec src _ eq_refl) as H.
  unfold scanTokens in H. unfold bind at 1, gets at 1 in H.
  cbn [source newTokenizer] in H. unfold bind at 1 in H. rewrite E in H.
  revert H. unfold bind, gets, pushToken, modify. cbn. rewrite Hk. cbn.
  intros (body & eof & Heq & _ & _ & _ & _ & He).
  eexists _, _. split; [reflexivity |]. split; [reflexivity |].
  destruct body as [|b body]; [injection Heq as <-; exact He |].
  destruct body; discriminate Heq.
Qed.

(** *** String literals *)

Lemma until_loop_finds : forall close fuel t j,
  current t <= j -> j < String.length (source t) ->
  charAt (source t) j = close ->
  (forall k, current t <= k -> k < j -> charAt (source t) k <> close) ->
  j - current t < fuel ->
  exists t', until_loop close fuel t = Ok tt t' /\
             source t' = source t /\ tokens t' = tokens t /\
             start t' = start t /\ current t' = j.
Proof.
  intros close. induction fuel as [|fuel IH]; intros t j Hle Hlt Hj Hno Hf;
    [lia |].
  cbn [until_loop]. unfold bind at 1, gets at 1.
  assert (Ee : isAtEnd t = false) by (apply isAtEnd_false; lia).
  rewrite (peek_inside t Ee), Ee. cbn [negb].
  destruct (Nat.eq_dec (current t) j) as [Heq | Hne].
  - rewrite Heq, Hj, String.eqb_refl. cbn. eexists.
    repeat split; try reflexivity. exact Heq.
  - assert (Hc : String.eqb (charAt (source t) (current t)) close = false)
      by (apply String.eqb_neq, Hno; lia).
    rewrite Hc. cbn [negb andb].
    assert (Hstep : exists t1,
      source t1 = source t /\ tokens t1 = tokens t /\ start t1 = start t /\
      current t1 = S (current t) /\
      ((if String.eqb (charAt (source t) (current t)) LF
        then newLine else ret tt) ;;;
       _ <- advance ;; until_loop close fuel) t = until_loop close fuel t1).
    { destruct (String.eqb (charAt (source t) (current t)) LF);
        [exists {| source := source t; tokens := tokens t; start := start t;
                   current := S (current t); t_line := (t_line t + 1)%Z;
                   t_col := (0 + 1)%Z |}
        | exists {| source := source t; tokens := tokens t; start := start t;
                    current := S (current t); t_line := t_line t;
                    t_col := (t_col t + 1)%Z |}];
        repeat split; reflexivity. }
    destruct Hstep as (t1 & S1 & K1 & B1 & C1 & ->).
    destruct (IH t1 j) as (t' & E & S' & K' & B' & C');
      try rewrite S1; try rewrite C1; auto; try lia.
    { intros k Hk1 Hk2. apply Hno; lia. }
    exists t'. rewrite E, S', K', B', S1, K1, B1. auto.
Qed.

Lemma until_loop_runs_out : forall close fuel t,
  (forall k, current t <= k -> k < String.length (source t) ->
             charAt (source t) k <> close) ->
  String.length (source t) - current t < fuel ->
  exists t', until_loop close fuel t = Ok tt t' /\ isAtEnd t' = true.
Proof.
  intros close. induction fuel as [|fuel IH]; intros t Hno Hf; [lia |].
  cbn [until_loop]. unfold bind at 1, gets at 1.
  destruct (isAtEnd t) eqn:Ee.
  - rewrite andb_false_r. eexists. split; [reflexivity | exact Ee].
  - rewrite (peek_inside t Ee). pose proof Ee as Hlt.
    apply isAtEnd_false in Hlt.
    assert (Hc : String.eqb (charAt (source t) (current t)) close = false)
      by (apply String.eqb_neq, Hno; lia).
    rewrite Hc. cbn [negb andb].
    assert (Hstep : exists t1,
      source t1 = source t /\ current t1 = S (current t) /\
      ((if String.eqb (charAt (source t) (current t)) LF
        then newLine else ret tt) ;;;
       _ <- advance ;; until_loop close fuel) t = until_loop close fuel t1).
    { destruct (String.eqb (charAt (source t) (current t)) LF);
        [exists {| source := source t; tokens := tokens t; start := start t;
                   current := S (current t); t_line := (t_line t + 1)%Z;
                   t_col := (0 + 1)%Z |}
        | exists {| source := source t; tokens := tokens t; start := start t;
                    current := S (current t); t_line := t_line t;
                    t_col := (t_col t + 1)%Z |}];
        repeat split; reflexivity. }
    destruct Hstep as (t1 & S1 & C1 & ->).
    apply IH; rewrite S1, C1; [| lia].
    intros k Hk1 Hk2. apply Hno; lia.
Qed.

Lemma noQuoteBetween_spec : forall src i j,
  noQuoteBetween src i j = true ->
  forall k, i <= k -> k < j -> charAt src k <> DQUOTE.
Proof.
  intros src i j H k H1 H2. unfold noQuoteBetween in H.
  rewrite forallb_forall in H.
  specialize (H k). rewrite in_seq in H.
  apply String.eqb_neq, negb_true_iff, H. lia.
Qed.

Lemma scanToken_quote : forall t,
  charAt (source t) (current t) = DQUOTE ->
  scanToken t
  = stringToken
      {| source := source t; tokens := tokens t; start := start t;
         current := S (current t); t_line := t_line t;
         t_col := (t_col t + 1)%Z |}.
Proof.
  intros t H. unfold scanToken. rewrite advance_bind, H. reflexivity.
Qed.

(** A string literal: from an opening double quote to the next double
    quote, whatever lies between them.  The token spans both quotes and
    its literal is the text between them. *)
Theorem scanToken_string : forall t j,
  start t = current t ->
  charAt (source t) (current t) = DQUOTE ->
  current t < j -> j < String.length (source t) ->
  charAt (source t) j = DQUOTE ->
  noQuoteBetween (source t) (S (current t)) j = true ->
  exists tok t',
    scanToken t = Ok tt t' /\
    tokens t' = tokens t ++ [tok] /\ current t' = S j /\
    type tok = STRING /\
    tok_start tok = current t /\ tok_end tok = S j /\
    lexeme tok = jsSubstring (source t) (current t) (S j) /\
    literal tok = LString (jsSubstring (source t) (S (current t)) j).
Proof.
  intros t j Hst Hq Hlt Hj Hjq Hno. rewrite (scanToken_quote t Hq).
  unfold stringToken. unfold bind at 1, gets at 1. unfold bind at 1.
  destruct (until_loop_finds DQUOTE
              (S (String.length (source t)))
              {| source := source t; tokens := tokens t; start := start t;
                 current := S (current t); t_line := t_line t;
                 t_col := (t_col t + 1)%Z |} j)
    as (t1 & E & S1 & K1 & B1 & C1); cbn [source current]; auto; try lia;
    [apply noQuoteBetween_spec, Hno |].
  cbn [source] in E. rewrite E. cbn [source tokens start] in *.
  unfold bind at 1, gets at 1.
  assert (Ee : isAtEnd t1 = false) by (apply isAtEnd_false; rewrite S1, C1; lia).
  rewrite Ee. rewrite advance_bind. unfold bind at 1, gets at 1.
  unfold addToken, bind, gets, pushToken, modify. cbn.
  rewrite S1, K1, B1, C1, Hst.
  replace (j - 0) with j by lia. replace (current t + 1) with (S (current t)) by lia.
  eexists _, _. split; [reflexivity |]. cbn. repeat split; reflexivity.
Qed.

(** An opening double quote that no double quote follows: the scan fails
    at the end of the input. *)
Theorem scanToken_unterminated_string : forall t,
  isAtEnd t = false ->
  charAt (source t) (current t) = DQUOTE ->
  noQuoteBetween (source t) (S (current t)) (String.length (source t))
  = true ->
  exists ln col t', scanToken t = Throw (UnexpectedEOFError ln col) t'.
Proof.
  intros t Hend Hq Hno. rewrite (scanToken_quote t Hq).
  unfold stringToken. unfold bind at 1, gets at 1. unfold bind at 1.
  destruct (until_loop_runs_out DQUOTE
              (S (String.length (source t)))
              {| source := source t; tokens := tokens t; start := start t;
                 current := S (current t); t_line := t_line t;
                 t_col := (t_col t + 1)%Z |})
    as (t1 & E & Ee); cbn [source current];
    [apply noQuoteBetween_spec, Hno | lia |].
  cbn [source] in E. rewrite E.
  unfold bind at 1, gets at 1. rewrite Ee.
  eexists _, _, _. reflexivity.
Qed.


(** *** Comments *)

Lemma forallb_seq_spec : forall (f : nat -> bool) i j,
  forallb f (seq i (j - i)) = true ->
  forall k, i <= k -> k < j -> f k = true.
Proof.
  intros f i j H k H1 H2. rewrite forallb_forall in H. apply H.
  apply in_seq. lia.
Qed.

Lemma comment_loop_finds : forall fuel t j,
  current t <= j -> j < String.length (source t) ->
  closesComment (source t) j = true ->
  (forall k, current t <= k -> k < j ->
             closesComment (source t) k = false) ->
  j - current t < fuel ->
  exists t', comment_loop fuel t = Ok tt t' /\
             source t' = source t /\ tokens t' = tokens t /\
             current t' = j.
Proof.
  induction fuel as [|fuel IH]; intros t j Hle Hlt Hj Hno Hf; [lia |].
  cbn [comment_loop]. unfold bind at 1, gets at 1.
  assert (Ee : isAtEnd t = false) by (apply isAtEnd_false; lia).
  assert (Hcl : (String.eqb (peek t) "|" && String.eqb (peekNext t) "#")
                = closesComment (source t) (current t)).
  { unfold closesComment. rewrite (peek_inside t Ee). unfold peekNext.
    destruct (Nat.leb_spec (String.length (source t)) (current t + 1));
      [| reflexivity].
    assert (Hout : charAt (source t) (current t + 1) = EmptyString).
    { unfold charAt.
      assert (H' : forall s n, String.length s <= n ->
                               substring n 1 s = EmptyString).
      { induction s as [|a s IHs]; intros n Hn; destruct n; cbn in *;
          try reflexivity; try lia. apply IHs. lia. }
      apply H'. assumption. }
    rewrite Hout. rewrite !andb_false_r. reflexivity. }
  rewrite Hcl, Ee. cbn [negb].
  destruct (Nat.eq_dec (current t) j) as [Heq | Hne].
  - rewrite Heq, Hj. cbn. eexists. repeat split; try reflexivity. exact Heq.
  - rewrite (Hno (current t)) by lia. cbn [negb andb].
    assert (Hstep : exists t1,
      source t1 = source t /\ tokens t1 = tokens t /\
      current t1 = S (current t) /\
      ((if String.eqb (peek t) LF then newLine else ret tt) ;;;
       _ <- advance ;; comment_loop fuel) t = comment_loop fuel t1).
    { destruct (String.eqb (peek t) LF);
        [exists {| source := source t; tokens := tokens t; start := start t;
                   current := S (current t); t_line := (t_line t + 1)%Z;
                   t_col := (0 + 1)%Z |}
        | exists {| source := source t; tokens := tokens t; start := start t;
                    current := S (current t); t_line := t_line t;
                    t_col := (t_col t + 1)%Z |}];
        repeat split; reflexivity. }
    destruct Hstep as (t1 & S1 & K1 & C1 & ->).
    destruct (IH t1 j) as (t' & E & S' & K' & C');
      try rewrite S1; try rewrite C1; auto; try lia.
    { intros k Hk1 Hk2. apply Hno; lia. }
    exists t'. rewrite E, S', K', S1, K1. auto.
Qed.

Lemma lineComment_loop_finds : forall fuel t j,
  current t <= j -> j <= String.length (source t) ->
  (j < String.length (source t) -> charAt (source t) j = LF) ->
  (forall k, current t <= k -> k < j -> charAt (source t) k <> LF) ->
  j - current t < fuel ->
  exists t', lineComment_loop fuel t = Ok tt t' /\
             source t' = source t /\ tokens t' = tokens t /\
             current t' = j.
Proof.
  induction fuel as [|fuel IH]; intros t j Hle Hlt Hj Hno Hf; [lia |].
  cbn [lineComment_loop]. unfold bind at 1, gets at 1.
  destruct (Nat.eq_dec (current t) j) as [Heq | Hne].
  - destruct (isAtEnd t) eqn:Ee.
    + rewrite andb_false_r. eexists. repeat split; try reflexivity. exact Heq.
    + rewrite (peek_inside t Ee). apply isAtEnd_false in Ee.
      rewrite Heq, Hj, String.eqb_refl by lia. cbn.
      eexists. repeat split; try reflexivity. exact Heq.
  - assert (Ee : isAtEnd t = false) by (apply isAtEnd_false; lia).
    rewrite (peek_inside t Ee), Ee.
    assert (Hc : String.eqb (charAt (source t) (current t)) LF = false)
      by (apply String.eqb_neq, Hno; lia).
    rewrite Hc. cbn [negb andb]. rewrite advance_step.
    destruct (IH {| source := source t; tokens := tokens t; start := start t;
                    current := S (current t); t_line := t_line t;
                    t_col := (t_col t + 1)%Z |} j)
      as (t' & E & S' & K' & C'); cbn [source current]; auto; try lia.
    { intros k Hk1 Hk2. apply Hno; lia. }
    exists t'. rewrite E. auto.
Qed.

(** Comments yield no token.  A line comment runs from the semicolon up
    to the next line break, which is left to be read, or to the end of
    the input; a block comment runs from [#|] to the first [|#] after
    it, both included, and does not nest. *)
Theorem comments_yield_no_token : forall t j,
  (charAt (source t) (current t) = ";"%string ->
   current t < j -> j <= String.length (source t) ->
   (if j <? String.length (source t)
    then String.eqb (charAt (source t) j) LF else true) = true ->
   noBreakBetween (source t) (S (current t)) j = true ->
   exists t',
     scanToken t = Ok tt t' /\ tokens t' = tokens t /\ current t' = j) /\
  (charAt (source t) (current t) = "#"%string ->
   charAt (source t) (S (current t)) = "|"%string ->
   S (current t) < j ->
   closesComment (source t) j = true ->
   notClosedBetween (source t) (S (S (current t))) j = true ->
   exists t',
     scanToken t = Ok tt t' /\ tokens t' = tokens t /\
     current t' = S (S j)).
Proof.
  intros t j. split.
  - intros Hc Hlt Hj Hend Hno.
    unfold scanToken. rewrite advance_bind, Hc.
    cbn [String.eqb Ascii.eqb Bool.eqb].
    unfold bind at 1, gets at 1.
    destruct (lineComment_loop_finds
                (S (String.length (source t)))
                {| source := source t; tokens := tokens t; start := start t;
                   current := S (current t); t_line := t_line t;
                   t_col := (t_col t + 1)%Z |} j)
      as (t' & E & S' & K' & C'); cbn [source current]; auto; try lia.
    + intros Hj'. apply Nat.ltb_lt in Hj'. rewrite Hj' in Hend.
      apply String.eqb_eq, Hend.
    + intros k Hk1 Hk2. apply String.eqb_neq, negb_true_iff.
      apply (forallb_seq_spec _ _ _ Hno); lia.
    + exists t'. cbn [source] in E. rewrite E. auto.
  - intros Hc Hbar Hlt Hj Hno.
    assert (Hlen : S j < String.length (source t)).
    { unfold closesComment in Hj. apply andb_prop in Hj as [_ Hj].
      apply String.eqb_eq in Hj.
      destruct (Nat.lt_ge_cases (j + 1) (String.length (source t))) as [|Hge];
        [lia |].
      assert (H' : forall s n, String.length s <= n ->
                               substring n 1 s = EmptyString).
      { induction s as [|a s IHs]; intros n Hn; destruct n; cbn in *;
          try reflexivity; try lia. apply IHs. lia. }
      unfold charAt in Hj. rewrite (H' _ _ Hge) in Hj. discriminate Hj. }
    unfold scanToken. rewrite advance_bind, Hc.
    cbn [String.eqb Ascii.eqb Bool.eqb].
    set (t1 := {| source := source t; tokens := tokens t; start := start t;
                  current := S (current t); t_line := t_line t;
                  t_col := (t_col t + 1)%Z |}).
    assert (Hm : forall x, x <> "|"%string ->
                 match_ x t1 = Ok false t1).
    { intros x Hx. unfold match_.
      assert (Ee : isAtEnd t1 = false) by (apply isAtEnd_false; cbn; lia).
      rewrite Ee. cbn [t1 source current]. rewrite Hbar.
      assert (Hneq : String.eqb "|" x = false)
        by (apply String.eqb_neq; congruence).
      rewrite Hneq. reflexivity. }
    unfold bind at 1. rewrite (Hm "t"%string) by discriminate.
    unfold bind at 1. rewrite (Hm "f"%string) by discriminate.
    set (t2 := {| source := source t; tokens := tokens t; start := start t;
                  current := S (S (current t)); t_line := t_line t;
                  t_col := (t_col t + 1)%Z |}).
    assert (Hbar' : match_ "|" t1 = Ok true t2).
    { unfold match_.
      assert (Ee : isAtEnd t1 = false) by (apply isAtEnd_false; cbn; lia).
      rewrite Ee. cbn [t1 source current]. rewrite Hbar. reflexivity. }
    unfold bind at 1. rewrite Hbar'.
    unfold comment. unfold bind at 1, gets at 1. unfold bind at 1.
    destruct (comment_loop_finds (S (String.length (source t2))) t2 j)
      as (t' & E & S' & K' & C'); cbn [t2 source current]; auto; try lia.
    + intros k Hk1 Hk2. apply negb_true_iff.
      apply (forallb_seq_spec _ _ _ Hno); lia.
    + change (source t2) with (source t) in E, S'.
      change (tokens t2) with (tokens t) in K'.
      rewrite E. unfold bind at 1, gets at 1.
      assert (Ee' : isAtEnd t' = false)
        by (apply isAtEnd_false; rewrite S', C'; lia).
      rewrite Ee'. cbn. eexists.
      repeat split; [exact K' | rewrite C'; reflexivity].
Qed.

Local Open Scope string_scope.

Lemma scanTokens_lexemes_witness :
  Forall (fun tk =>
            lexeme tk = jsSubstring "(f 1.5)" (tok_start tk) (tok_end tk) /\
            tok_start tk < tok_end tk /\ tok_end tk <= 7)
    (removelast (scanned "(f 1.5)")).
Proof.
  eapply (scanTokens_lexemes "(f 1.5)"). vm_compute. reflexivity.
Defined.

Lemma scanTokens_in_order_witness :
  inSourceOrder (removelast (scanned "(f 1.5)")).
Proof.
  eapply (scanTokens_in_order "(f 1.5)"). vm_compute. reflexivity.
Defined.

Lemma scanTokens_errors_witness :
  scanError ("a" ++ NUL) (UnexpectedCharacterError 1 2 NUL).
Proof.
  eapply (scanTokens_errors ("a" ++ NUL)). vm_compute. reflexivity.
Defined.

Lemma scanTokens_numbers_witness :
  Forall (fun tk => type tk = NUMBER -> numberShape (lexeme tk) = true)
    (scanned "(+ 1 -2.5 .5 1. x)").
Proof.
  eapply (scanTokens_numbers "(+ 1 -2.5 .5 1. x)"). vm_compute. reflexivity.
Defined.

Lemma scanTokens_blank_witness :
  exists eof t',
    scanTokens (newTokenizer (" " ++ LF ++ TAB)) = Ok [eof] t' /\
    type eof = EOF /\ tok_end eof = 3.
Proof.
  apply (scanTokens_blank (" " ++ LF ++ TAB)). reflexivity.
Defined.

Lemma scanToken_string_witness :
  exists tok t',
    scanToken (newTokenizer (DQUOTE ++ "a\" ++ LF ++ "b" ++ DQUOTE ++ " c"))
    = Ok tt t' /\
    tokens t' = [tok] /\ current t' = 6 /\
    type tok = STRING /\ tok_start tok = 0 /\ tok_end tok = 6 /\
    lexeme tok = DQUOTE ++ "a\" ++ LF ++ "b" ++ DQUOTE /\
    literal tok = LString ("a\" ++ LF ++ "b").
Proof.
  apply (scanToken_string
           (newTokenizer (DQUOTE ++ "a\" ++ LF ++ "b" ++ DQUOTE ++ " c")) 5);
    try reflexivity; cbn; lia.
Defined.

Lemma scanToken_unterminated_string_witness :
  exists ln col t',
    scanToken (newTokenizer (DQUOTE ++ "abc"))
    = Throw (UnexpectedEOFError ln col) t'.
Proof.
  apply (scanToken_unterminated_string (newTokenizer (DQUOTE ++ "abc")));
    reflexivity.
Defined.

Lemma comments_yield_no_token_witness :
  (exists t',
     scanToken (newTokenizer ("; a" ++ LF ++ "b")) = Ok tt t' /\
     tokens t' = [] /\ current t' = 3) /\
  (exists t',
     scanToken (newTokenizer "#| a |# b") = Ok tt t' /\
     tokens t' = [] /\ current t' = 7).
Proof.
  split.
  - apply (proj1 (comments_yield_no_token
                    (newTokenizer ("; a" ++ LF ++ "b")) 3));
      try reflexivity; cbn; lia.
  - apply (proj2 (comments_yield_no_token (newTokenizer "#| a |# b") 5));
      try reflexivity; cbn; lia.
Defined.

End TokenizerFacts.

(** ** Groups: building and unwrapping *)

Module GroupFacts.
Import Scanner ScannerSpec ScannerFacts.

Lemma last_Some_snoc : forall {A} (l : list A) x,
  last (map Some (l ++ [x])) None = Some x.
Proof.
  intros A l x. rewrite map_app. cbn. apply last_last.
Qed.

Lemma lastToken_snoc : forall (pre : list (Datum TokenType)) l loc,
  lastToken (mkGroup (pre ++ [DToken l]) loc) = Some l.
Proof.
  intros pre l loc. cbn [lastToken].
  induction pre as [|d pre IH]; [reflexivity |].
  cbn [app]. destruct (pre ++ [DToken l]) eqn:E.
  - destruct pre; discriminate E.
  - rewrite <- IH. destruct d; reflexivity.
Qed.

Lemma removelast_snoc' : forall {A} (l : list A) x, removelast (l ++ [x]) = l.
Proof. intros A l x. apply removelast_last. Qed.

(** A list that opens and closes with a matching pair of delimiters is
    built into a parenthesized group that [unwrap] opens again: it gives
    back the elements between the delimiters, [length] counts them, and
    the first and last token of the group are the two delimiters.  A pair
    that does not match is an invalid group. *)
Theorem build_unwrap : forall f mid l,
  (matchingParentheses f l = true ->
   exists g,
     Group_build (DToken f :: mid ++ [DToken l]) = inr g /\
     elements g = DToken f :: mid ++ [DToken l] /\
     isParenthesized g = true /\
     unwrap g = mid /\ Group_length g = List.length mid /\
     firstToken g = Some f /\ lastToken g = Some l) /\
  (matchingParentheses f l = false ->
   Group_build (DToken f :: mid ++ [DToken l]) = inl InvalidGroup).
Proof.
  intros f mid l.
  assert (Hshape : exists d rest, mid ++ [DToken l] = d :: rest)
    by (destruct mid; cbn; eauto).
  destruct Hshape as (d & rest & Hshape).
  assert (Hlast : last (map Some (DToken f :: mid ++ [DToken l])) None
                  = Some (DToken l))
    by (change (DToken f :: mid ++ [DToken l])
          with ((DToken f :: mid) ++ [DToken l]); apply last_Some_snoc).
  split; intros Hm.
  - exists (mkGroup (DToken f :: mid ++ [DToken l])
              (mkLocation (pos f) (pos l))).
    assert (Hp : isParenthesized
                   (mkGroup (DToken f :: mid ++ [DToken l])
                      (mkLocation (pos f) (pos l))) = true).
    { unfold isParenthesized. cbn. unfold matchingParentheses in Hm.
      destruct (type f); try discriminate Hm; reflexivity. }
    assert (Hu : unwrap
                   (mkGroup (DToken f :: mid ++ [DToken l])
                      (mkLocation (pos f) (pos l))) = mid).
    { unfold unwrap. rewrite Hp. cbn [elements tl].
      apply removelast_snoc'. }
    repeat split; auto.
    + unfold Group_build. rewrite Hshape, <- Hshape, Hlast, Hm.
      unfold construct, newGroup. rewrite Hlast. reflexivity.
    + unfold Group_length. rewrite Hu. reflexivity.
    + change (DToken f :: mid ++ [DToken l])
        with ((DToken f :: mid) ++ [DToken l]). apply lastToken_snoc.
  - unfold Group_build. rewrite Hshape, <- Hshape, Hlast, Hm. reflexivity.
Qed.

Lemma last_Some_token : forall (els : list (Datum TokenType)) d,
  last (map Some els) None = Some d ->
  exists pre, els = pre ++ [d].
Proof.
  intros els d H.
  destruct (exists_last (l := els)) as (pre & x & ->).
  - intros ->. discriminate H.
  - rewrite last_Some_snoc in H. injection H as ->. eauto.
Qed.

(** [Group.build] fails with the empty group or with the invalid group,
    never with a type error out of the constructor.  The group it returns
    is the one group it was given, or it holds the very elements it was
    given, the first and the last of them tokens: its location starts at
    the position of the first and ends at the position, where it starts,
    of the last. *)
Theorem build_outcomes : forall els,
  match Group_build els with
  | inl e => e <> GroupTypeError
  | inr g =>
      els = [DGroup g] \/
      (elements g = els /\
       exists f l pre,
         hd_error els = Some (DToken f) /\ els = pre ++ [DToken l] /\
         firstToken g = Some f /\ lastToken g = Some l /\
         location g = mkLocation (pos f) (pos l))
  end.
Proof.
  intros els. unfold Group_build.
  destruct els as [|d [|d' els']]; [discriminate | |].
  - destruct d as [t|g]; [| left; reflexivity].
    destruct (negb (isDataType t)); [discriminate |].
    cbn. right. split; [reflexivity |].
    exists t, t, []. repeat split.
  - destruct d as [f|g]; [| discriminate].
    destruct (last (map Some (DToken f :: d' :: els')) None)
      as [[l|g]|] eqn:Hl; try discriminate.
    destruct (matchingParentheses f l); [| discriminate].
    destruct (last_Some_token _ _ Hl) as [pre Hpre].
    unfold construct, newGroup. rewrite Hl. cbn [hd_error firstTokenOf lastTokenOf].
    right. split; [reflexivity |].
    exists f, l, pre. repeat split; auto.
    cbn [elements]. rewrite Hpre. apply lastToken_snoc.
Qed.

Local Open Scope string_scope.

Lemma build_unwrap_witness :
  let f := tk LEFT_PAREN "(" LNull 0 in
  let l := tk RIGHT_PAREN ")" LNull 4 in
  let mid := [DToken (tk SYMBOL "f" LNull 1);
              DToken (tk NUMBER "1" (LNumber "1") 3)] in
  (exists g,
     Group_build (DToken f :: mid ++ [DToken l]) = inr g /\
     elements g = DToken f :: mid ++ [DToken l] /\
     isParenthesized g = true /\
     unwrap g = mid /\ Group_length g = 2 /\
     firstToken g = Some f /\ lastToken g = Some l) /\
  Group_build (DToken f :: mid ++ [DToken (tk RIGHT_BRACKET "]" LNull 4)])
  = inl InvalidGroup.
Proof.
  intros f l mid. split.
  - apply (proj1 (build_unwrap f mid l)). reflexivity.
  - apply (proj2 (build_unwrap f mid (tk RIGHT_BRACKET "]" LNull 4))).
    reflexivity.
Defined.

End GroupFacts.

(** ** The parser: forms, modes and the ceiling *)

Module FormsFacts.
Import Parser ParserSpec FormsSpec ParserFacts.

Lemma keeps_ret : forall {A} (a : A), keeps (ret a).
Proof. intros A a p. reflexivity. Qed.

Lemma keeps_throw : forall {A} e, keeps (@throw SchemeParser ParserError A e).
Proof. intros A e p. exact I. Qed.

Lemma keeps_gets : forall {A} (f : SchemeParser -> A),
  keeps (@gets SchemeParser ParserError A f).
Proof. intros A f p. reflexivity. Qed.

Lemma keeps_bind : forall {A B} (m : P A) (k : A -> P B),
  keeps m -> (forall a, keeps (k a)) -> keeps (bind m k).
Proof.
  intros A B m k Hm Hk p. unfold bind. specialize (Hm p).
  destruct (m p) as [a s| |]; auto. subst s. apply Hk.
Qed.

Lemma keeps_mapM : forall {A B} (f : A -> P B) l,
  (forall a, keeps (f a)) -> keeps (mapM f l).
Proof.
  intros A B f l Hf. induction l as [|a l IH]; cbn [mapM].
  - apply keeps_ret.
  - apply keeps_bind; [apply Hf |]. intros b.
    apply keeps_bind; [exact IH |]. intros bs. apply keeps_ret.
Qed.

Lemma keeps_forEachM : forall {A} (f : A -> P unit) l,
  (forall a, keeps (f a)) -> keeps (forEachM f l).
Proof.
  intros A f l Hf. induction l as [|a l IH]; cbn [forEachM].
  - apply keeps_ret.
  - apply keeps_bind; [apply Hf |]. intros _. exact IH.
Qed.

Lemma keeps_validateChapter : forall c ch, keeps (validateChapter c ch).
Proof.
  intros c ch p. unfold validateChapter, bind, gets.
  destruct (chapter_ltb (chapter p) ch); cbn; auto.
Qed.

Lemma keeps_at : forall l i, keeps (at_ l i).
Proof.
  intros l i. unfold at_. destruct (nth_error l i);
    [apply keeps_ret | apply keeps_throw].
Qed.

Lemma keeps_spanOf : forall l, keeps (spanOf l).
Proof.
  intros l. unfold spanOf.
  destruct l; [apply keeps_throw |].
  destruct (last _ _); [apply keeps_ret | apply keeps_throw].
Qed.

Lemma keeps_parseToken : forall t, keeps (parseToken t).
Proof.
  intros t p. pose proof (parseToken_state t p) as H.
  destruct (parseToken t p); auto. eapply H; eauto.
Qed.

Ltac keeps_go :=
  repeat first
    [ apply keeps_ret | apply keeps_throw | apply keeps_gets
    | apply keeps_validateChapter | apply keeps_at | apply keeps_spanOf
    | apply keeps_parseToken
    | solve [auto]
    | apply keeps_mapM; intros ?
    | apply keeps_forEachM; intros ?
    | apply keeps_bind; [| intros ?]
    | match goal with
      | |- keeps (if ?b then _ else _) => destruct b
      | |- keeps (match ?x with _ => _ end) => destruct x
      | |- keeps (let '(_, _) := ?x in _) => destruct x
      end ].

Section Keeps.
Variable pe : Dat -> P Expression.
Hypothesis pe_keeps : forall d, keeps (pe d).

Lemma keeps_parseExpression' : forall x, keeps (parseExpression' pe x).
Proof. intros x. unfold parseExpression'. keeps_go. Qed.

Lemma keeps_noVerifier : forall d, keeps (noVerifier d).
Proof. intros d. apply keeps_ret. Qed.

Lemma keeps_identifierVerifier : forall d, keeps (identifierVerifier d).
Proof. intros d. unfold identifierVerifier. keeps_go. Qed.

Lemma keeps_destructureList : forall l v,
  (forall d, keeps (v d)) -> keeps (destructureList pe l v).
Proof. intros l v Hv. unfold destructureList. keeps_go. Qed.

Lemma keeps_quotedList : forall a name target,
  keeps (quotedList pe a name target).
Proof.
  intros a name target. unfold quotedList.
  apply keeps_bind; [apply keeps_parseExpression' | intros ?; apply keeps_ret].
Qed.

Lemma keeps_parseVector : forall g, keeps (parseVector pe g).
Proof. intros g. unfold parseVector. keeps_go. Qed.

Lemma keeps_bodyOf : forall l, keeps (bodyOf l).
Proof. intros l. unfold bodyOf. keeps_go. Qed.

#[local] Hint Resolve keeps_parseExpression' keeps_noVerifier keeps_identifierVerifier
  keeps_destructureList keeps_quotedList keeps_parseVector keeps_bodyOf
  : core.

(** Between two settings of the quote mode the parser is as it was. *)
Lemma keeps_under_mode : forall {A} (m : P A) q,
  keeps m ->
  forall p,
    match (setQuoteMode q ;;; x <- m ;; setQuoteMode (quoteMode p) ;;; ret x) p
    with
    | Ok _ s => s = p
    | _ => True
    end.
Proof.
  intros A m q Hm p. unfold bind at 1. unfold setQuoteMode at 1, modify at 1.
  fold (withQuoteMode q p). unfold bind at 1.
  specialize (Hm (withQuoteMode q p)).
  destruct (m (withQuoteMode q p)) as [a s| |]; auto. subst s.
  cbn. destruct p; reflexivity.
Qed.

Lemma keeps_parseAffectorGroup : forall g, keeps (parseAffectorGroup pe g).
Proof.
  intros g. unfold parseAffectorGroup.
  destruct (nth_error (unwrap g) 0) as [[a|g']|]; try apply keeps_throw.
  destruct (type a); try apply keeps_throw;
    (apply keeps_bind; [apply keeps_validateChapter | intros _]);
    intros p; unfold bind at 1, gets at 1;
    try (pose proof (keeps_under_mode (parseVector pe g) QUOTE_MODE
                       (keeps_parseVector g) p) as H; exact H);
    destruct (quoteMode p) eqn:Hq; cbn [isNONE negb];
    try exact I; try apply keeps_quotedList;
    match goal with
    | |- context [setQuoteMode ?q ;;; _] =>
        pose proof (keeps_under_mode
                      (parseExpression' pe (nth_error (unwrap g) 1)) q
                      (keeps_parseExpression' _) p) as H;
        rewrite Hq in H; exact H
    end.
Qed.

Lemma keeps_parseQuotedGroup : forall g, keeps (parseQuotedGroup pe g).
Proof. intros g. unfold parseQuotedGroup. keeps_go. Qed.

Lemma keeps_parseLambda : forall g, keeps (parseLambda pe g).
Proof. intros g. unfold parseLambda. keeps_go. Qed.

Lemma keeps_parseDefinition : forall g, keeps (parseDefinition pe g).
Proof. intros g. unfold parseDefinition. keeps_go. Qed.

Lemma keeps_parseConditional : forall g, keeps (parseConditional pe g).
Proof. intros g. unfold parseConditional. keeps_go. Qed.

Lemma keeps_parseApplication : forall g, keeps (parseApplication pe g).
Proof. intros g. unfold parseApplication. keeps_go. Qed.

Lemma keeps_parseBinding : forall d, keeps (parseBinding pe d).
Proof. intros d. unfold parseBinding. keeps_go. Qed.

#[local] Hint Resolve keeps_parseBinding : core.

Lemma keeps_parseLet : forall g, keeps (parseLet pe g).
Proof. intros g. unfold parseLet. keeps_go. Qed.

Lemma keeps_firstTokenError : forall {A} g expected,
  keeps (@firstTokenError A g expected).
Proof. intros A g expected. unfold firstTokenError. keeps_go. Qed.

#[local] Hint Resolve @keeps_firstTokenError : core.

Lemma keeps_parseClause : forall d, keeps (parseClause pe d).
Proof. intros d. unfold parseClause. keeps_go. Qed.

#[local] Hint Resolve keeps_parseClause : core.

Lemma keeps_parseExtendedCond : forall g, keeps (parseExtendedCond pe g).
Proof. intros g. unfold parseExtendedCond. keeps_go. Qed.

Lemma keeps_parseSet : forall g, keeps (parseSet pe g).
Proof. intros g. unfold parseSet. keeps_go. Qed.

Lemma keeps_parseBegin : forall g, keeps (parseBegin pe g).
Proof. intros g. unfold parseBegin. keeps_go. Qed.

Lemma keeps_parseDelay : forall g, keeps (parseDelay pe g).
Proof. intros g. unfold parseDelay. keeps_go. Qed.

Lemma keeps_importIdentifier : forall d, keeps (importIdentifier d).
Proof. intros d. unfold importIdentifier. keeps_go. Qed.

#[local] Hint Resolve keeps_importIdentifier : core.

Lemma keeps_parseImport : forall g b, keeps (parseImport g b).
Proof. intros g b. unfold parseImport. keeps_go. Qed.

Lemma keeps_parseExport : forall g b, keeps (parseExport pe g b).
Proof. intros g b. unfold parseExport. keeps_go. Qed.

#[local] Hint Resolve keeps_parseAffectorGroup keeps_parseQuotedGroup
  keeps_parseLambda keeps_parseDefinition keeps_parseConditional
  keeps_parseApplication keeps_parseLet keeps_parseExtendedCond
  keeps_parseSet keeps_parseBegin keeps_parseDelay keeps_parseImport
  keeps_parseExport : core.

Lemma keeps_parseNormalGroup : forall g, keeps (parseNormalGroup pe g).
Proof. intros g. unfold parseNormalGroup. keeps_go. Qed.

Lemma keeps_parseGroup : forall g, keeps (parseGroup pe g).
Proof.
  intros g. unfold parseGroup.
  destruct (negb (isParenthesized g)); [apply keeps_parseAffectorGroup |].
  apply keeps_bind; [apply keeps_gets |].
  intros []; auto using keeps_parseNormalGroup.
Qed.

Lemma keeps_parseExpression_body : forall d, keeps (parseExpression_body pe d).
Proof.
  intros d. unfold parseExpression_body.
  destruct d as [t|g]; [apply keeps_parseToken |].
  destruct (isSingleIdentifier g);
    [apply keeps_parseToken | apply keeps_parseGroup].
Qed.

End Keeps.

Lemma keeps_parseExpression : forall n d, keeps (parseExpression n d).
Proof.
  induction n as [|n IH]; intros d; [intros p; exact I |].
  apply (keeps_parseExpression_body (parseExpression n) IH).
Qed.

(** A [parseExpression] that returns leaves the parser as it found it:
    the quote mode an affector has set is set back, in every mode. *)
Theorem parseExpression_restores_parser : forall n d p,
  match parseExpression n d p with
  | Ok _ p' => p' = p
  | _ => True
  end.
Proof. intros n d p. exact (keeps_parseExpression n d p). Qed.

(** *** Quotations *)

Lemma parseGroup_list_NONE : forall pe g els p,
  listOf g els -> quoteMode p = NONE ->
  parseGroup pe g p = parseNormalGroup pe g p.
Proof.
  intros pe g els p [Hp _] Hq. unfold parseGroup. rewrite Hp. cbn [negb].
  unfold bind, gets. rewrite Hq. reflexivity.
Qed.


Lemma unwrap_affectorGroup : forall a T loc,
  isShortAffector a = true -> unwrap (affectorGroup a T loc) = [DToken a; T].
Proof.
  intros a T loc Ha. unfold unwrap.
  assert (H : isParenthesized (affectorGroup a T loc) = false).
  { unfold isParenthesized, isShortAffector in *. cbn.
    destruct (type a); try discriminate Ha; reflexivity. }
  rewrite H. reflexivity.
Qed.



(** The comma, [,T].  Under a ceiling below 2 it raises
    [DisallowedTokenError] in every mode.  Otherwise: outside any
    quotation it is an unsupported token; under [QUOTE] it is the list of
    the symbol [unquote] and the quoted [T]; under [QUASIQUOTE] it is [T]
    itself, parsed outside any quotation, and the mode is [QUASIQUOTE]
    again afterwards.  The keyword form [(unquote T)]: outside any
    quotation it raises [DisallowedTokenError] under a ceiling below 2
    and is an unsupported token otherwise; inside a quotation, [QUOTE]
    and [QUASIQUOTE] alike, it is a quoted list as any other, the list
    of the keyword's symbol and the quoted [T]: the keyword does not
    unquote. *)
Theorem unquote_by_mode :
  (forall fuel p a T loc,
     type a = COMMA ->
     parseExpression (S fuel) (DGroup (affectorGroup a T loc)) p =
     if chapter_ltb (chapter p) QUOTING_CHAPTER
     then Throw (DisallowedTokenError (pos a) a (chapter p)) p
     else
       match quoteMode p with
       | NONE => Throw (UnsupportedTokenError (pos a) a) p
       | QUOTE_MODE =>
           match parseExpression fuel T p with
           | Ok inner p' =>
               Ok (Extended_List
                     (merge (toLocation a) (expr_location inner))
                     [Atomic_Symbol (toLocation a) "unquote"; inner] None) p'
           | Throw e p' => Throw e p'
           | OutOfFuel => OutOfFuel
           end
       | QUASIQUOTE_MODE =>
           match parseExpression fuel T (withQuoteMode NONE p) with
           | Ok e p' => Ok e (withQuoteMode QUASIQUOTE_MODE p')
           | Throw e p' => Throw e p'
           | OutOfFuel => OutOfFuel
           end
       end) /\
  (forall fuel p g k rest,
     listOf g (DToken k :: rest) ->
     type k = UNQUOTE ->
     quoteMode p = NONE ->
     parseExpression (S fuel) (DGroup g) p =
     if chapter_ltb (chapter p) QUOTING_CHAPTER
     then Throw (DisallowedTokenError (pos k) k (chapter p)) p
     else Throw (UnsupportedTokenError (pos k) k) p) /\
  (forall fuel p g k T,
     listOf g [DToken k; T] ->
     type k = UNQUOTE ->
     quoteMode p <> NONE ->
     parseExpression (S (S fuel)) (DGroup g) p =
     match parseExpression (S fuel) T p with
     | Ok inner p' =>
         Ok (Extended_List (location g)
               [Atomic_Symbol (toLocation k) (lexeme k); inner] None) p'
     | Throw e p' => Throw e p'
     | OutOfFuel => OutOfFuel
     end).
Proof.
  split; [| split].
  - intros fuel p a T loc Ha.
    assert (Hs : isShortAffector a = true)
      by (unfold isShortAffector; rewrite Ha; reflexivity).
    assert (Hnp : isParenthesized (affectorGroup a T loc) = false).
    { unfold isParenthesized, affectorGroup. cbn. rewrite Ha. reflexivity. }
    assert (Hns : isSingleIdentifier (affectorGroup a T loc) = None).
    { unfold isSingleIdentifier. rewrite Hnp. reflexivity. }
    pose proof (unwrap_affectorGroup a T loc Hs) as Hu.
    destruct (chapter_ltb (chapter p) QUOTING_CHAPTER) eqn:Hch.
    + apply (gated_affector_disallowed fuel p _ a QUOTING_CHAPTER); auto.
      * rewrite Hu. reflexivity.
      * rewrite Ha. reflexivity.
    + cbn [parseExpression parseExpression_body]. rewrite Hns.
      unfold parseGroup. rewrite Hnp. cbn [negb].
      unfold parseAffectorGroup. rewrite Hu. cbn [nth_error]. rewrite Ha.
      unfold bind at 1. rewrite (validateChapter_ok a _ p Hch).
      unfold bind at 1, gets at 1.
      destruct (quoteMode p) eqn:Hq; reflexivity.
  - intros fuel p g k rest [Hp Hu] Hk Hq.
    destruct (chapter_ltb (chapter p) QUOTING_CHAPTER) eqn:Hch.
    + apply (gated_form_disallowed fuel p g k rest QUOTING_CHAPTER); auto.
      rewrite Hk. reflexivity.
    + cbn [parseExpression parseExpression_body].
      rewrite (parenthesized_not_single g Hp).
      unfold parseGroup. rewrite Hp. cbn [negb].
      unfold bind at 1, gets at 1. rewrite Hq.
      unfold parseNormalGroup. rewrite Hu, Hk.
      unfold bind at 1. rewrite (validateChapter_ok k _ p Hch).
      unfold parseAffectorGroup. rewrite Hu. cbn [nth_error]. rewrite Hk.
      unfold bind at 1. rewrite (validateChapter_ok k _ p Hch).
      unfold bind at 1, gets at 1. rewrite Hq. reflexivity.
  - intros fuel p g k T [Hp Hu] Hk Hq.
    apply quoted_keyword_pair; auto. rewrite Hk. reflexivity.
Qed.

(** The empty list [()]: outside any quotation it is an error, the
    expected form being a non-empty group; inside a quotation it is
    [Nil]. *)
Theorem empty_list_by_mode : forall pe g p,
  listOf g [] ->
  parseGroup pe g p =
  match quoteMode p with
  | NONE =>
      Throw (ExpectedFormError (Some (loc_start (location g))) (DGroup g)
               "non-empty group") p
  | _ => Ok (Atomic_Nil (location g)) p
  end.
Proof.
  intros pe g p [Hp Hu]. unfold parseGroup. rewrite Hp. cbn [negb].
  unfold bind, gets.
  destruct (quoteMode p); unfold parseNormalGroup, parseQuotedGroup;
    rewrite Hu; reflexivity.
Qed.


(** *** Special forms *)

Lemma chapter_ltb_mono : forall c k k',
  (k <= k')%Z -> chapter_ltb c k' = false -> chapter_ltb c k = false.
Proof.
  intros [n|] k k' Hk H; cbn in *; [| reflexivity].
  apply Z.ltb_ge in H. apply Z.ltb_ge. lia.
Qed.

Lemma firstToken_parenthesized : forall g : Grp,
  isParenthesized g = true -> exists f, firstToken g = Some f.
Proof.
  intros [els loc] H. unfold isParenthesized in H. cbn in H.
  destruct els as [|[f|g'] els]; try discriminate H. exists f. reflexivity.
Qed.

(** A special form with a number of elements its keyword does not
    take: a [lambda], a [define] or a [let] of fewer than three, an [if]
    of fewer than three or more than four, a [cond] or a [begin] of fewer
    than two, a [set!] or an import not of three, a [delay] or an export
    not of two.  Under a ceiling below the chapter of its keyword it is
    a [DisallowedTokenError] at the keyword; under any other ceiling it
    is an [ExpectedFormError], whatever the elements are. *)
Theorem wrong_arity_is_expected_form : forall pe g k rest p,
  listOf g (DToken k :: rest) ->
  quoteMode p = NONE ->
  wrongArity (type k) (S (List.length rest)) = true ->
  exists c,
    formChapter (type k) = Some c /\
    if chapter_ltb (chapter p) c
    then parseGroup pe g p
         = Throw (DisallowedTokenError (pos k) k (chapter p)) p
    else isExpectedForm (parseGroup pe g p) = true.
Proof.
  intros pe g k rest p Hg Hq Hw.
  rewrite (parseGroup_list_NONE pe g _ p Hg Hq).
  destruct (firstToken_parenthesized g (proj1 Hg)) as [f Hf].
  destruct Hg as [_ Hu].
  unfold parseNormalGroup. rewrite Hu.
  unfold wrongArity in Hw.
  destruct (type k) eqn:Ek; try discriminate Hw;
    (eexists; split; [reflexivity |]);
    match goal with
    | |- if chapter_ltb ?c ?ch then _ else _ =>
        destruct (chapter_ltb c ch) eqn:Hch
    end;
    unfold bind at 1;
    try (rewrite (validateChapter_throw k _ p Hch); reflexivity);
    rewrite (validateChapter_ok k _ p Hch);
    unfold parseLambda, parseDefinition, parseConditional, parseLet,
      parseExtendedCond, parseSet, parseBegin, parseDelay, parseImport,
      parseExport, Group_length, firstTokenError;
    rewrite Hu; cbn [List.length];
    match goal with
    | |- isExpectedForm ((if ?b then _ else _) p) = true =>
        let Hb := fresh in
        assert (Hb : b = true) by exact Hw; rewrite Hb, ?Hf; reflexivity
    end.
Qed.

Lemma mapM_length : forall {A B} (f : A -> P B) l p es p',
  mapM f l p = Ok es p' -> List.length es = List.length l.
Proof.
  intros A B f. induction l as [|a l IH]; intros p es p' H; cbn in H.
  - injection H as <- _. reflexivity.
  - apply bind_Ok_inv in H as (b & p1 & _ & H).
    apply bind_Ok_inv in H as (bs & p2 & Hbs & H).
    injection H as <- _. cbn. f_equal. eapply IH; eauto.
Qed.

(** A definition with a parenthesized head, [(define (f . formals)
    body ...)], is the lambda expression [(lambda formals body ...)]
    under the name [f]: the same parameters, rest parameter and body, and
    the same errors. *)
Theorem function_definition_is_named_lambda :
  forall pe gd gl d l h fm f formals b body p,
    listOf gd (DToken d :: DGroup h :: b :: body) ->
    unwrap h = DToken f :: formals ->
    type f = IDENTIFIER ->
    listOf gl (DToken l :: DGroup fm :: b :: body) ->
    unwrap fm = formals ->
    parseDefinition pe gd p
    = (lam <- parseLambda pe gl ;;
       ret (asFunctionDefinition (location gd)
              (Atomic_Identifier (toLocation f) (lexeme f)) lam)) p.
Proof.
  intros pe gd gl d l h fm f formals b body p [_ Hd] Hh Hf [_ Hl] Hfm.
  unfold parseDefinition, parseLambda, Group_length.
  rewrite Hd, Hl. cbn [List.length Nat.ltb Nat.leb at_ nth_error skipn].
  unfold bind at 1. unfold ret at 1. unfold bind at 1.
  rewrite Hh. cbn [at_ nth_error skipn]. unfold ret at 1. rewrite Hf.
  unfold bind, ret. cbv beta iota. rewrite Hfm.
  destruct (destructureList pe formals identifierVerifier p)
    as [[ps r] p1| |]; try reflexivity.
  destruct (mapM pe (b :: body) p1) as [es p2| |] eqn:Em; try reflexivity.
  pose proof (mapM_length _ _ _ _ _ Em) as Hlen. cbn [List.length] in Hlen.
  destruct es as [|e es]; [discriminate Hlen |].
  cbn [List.length Nat.ltb Nat.leb].
  destruct (bodyOf (e :: es) p2); reflexivity.
Qed.

(** *** Unbalanced delimiters *)

Lemma advance_at : forall p pre t post,
  tokens p = pre ++ t :: post -> current p = List.length pre ->
  advance p = Ok t {| source := source p; tokens := tokens p;
                      chapter := chapter p; current := S (current p);
                      quoteMode := quoteMode p |}.
Proof.
  intros p pre t post Ht Hc. unfold advance.
  assert (He : isAtEnd p = false).
  { unfold isAtEnd. apply Nat.leb_gt. rewrite Ht, Hc, length_app. cbn. lia. }
  rewrite He. cbn [current tokens].
  rewrite Ht, Hc, nth_error_app2, Nat.sub_diag by lia. reflexivity.
Qed.

Lemma grouping_loop_open : forall atoms fuel els p pre eof post,
  forallb isPlain atoms = true ->
  type eof = EOF ->
  tokens p = pre ++ atoms ++ eof :: post ->
  current p = List.length pre ->
  List.length atoms < fuel ->
  exists p',
    grouping_loop fuel els true p = Throw (UnexpectedEOFError (pos eof)) p'.
Proof.
  induction atoms as [|a atoms IH]; intros fuel els p pre eof post Hpl He Ht Hc Hf;
    (destruct fuel as [|fuel]; [cbn in Hf; lia |]).
  - cbn [grouping_loop]. unfold bind at 1.
    rewrite (advance_at p pre eof post Ht Hc). rewrite He. eexists. reflexivity.
  - cbn in Hpl. apply andb_prop in Hpl as [Ha Hpl].
    cbn [grouping_loop]. unfold bind at 1.
    rewrite (advance_at p pre a (atoms ++ eof :: post) Ht Hc).
    set (p1 := {| source := source p; tokens := tokens p;
                  chapter := chapter p; current := S (current p);
                  quoteMode := quoteMode p |}).
    destruct (IH fuel (els ++ [DToken a]) p1 (pre ++ [a]) eof post Hpl He)
      as [p' Hp'].
    + cbn. rewrite Ht, <- app_assoc. reflexivity.
    + cbn. rewrite Hc, length_app. cbn. lia.
    + cbn in Hf. lia.
    + unfold isPlain in Ha.
      destruct (type a); try discriminate Ha; exists p'; exact Hp'.
Qed.

(** Unbalanced delimiters.  A closing delimiter where a datum should
    start is an unexpected form; a list left open, here one of plain
    atoms, is an unexpected end of the input, at the [EOF] token. *)
Theorem unbalanced_delimiters :
  (forall fuel src c rest ch,
     type c = RIGHT_PAREN \/ type c = RIGHT_BRACKET ->
     exists p',
       parse (S (S fuel)) (newSchemeParser src (c :: rest) ch)
       = Throw (UnexpectedFormError (Some (pos c)) (DToken c)) p') /\
  (forall fuel src o atoms eof rest ch,
     type o = LEFT_PAREN \/ type o = LEFT_BRACKET ->
     forallb isPlain atoms = true ->
     type eof = EOF ->
     List.length atoms + 3 <= fuel ->
     exists p',
       parse fuel (newSchemeParser src (o :: atoms ++ eof :: rest) ch)
       = Throw (UnexpectedEOFError (pos eof)) p').
Proof.
  split.
  - intros fuel src c rest ch Hc. unfold parse. cbn [parse_loop].
    unfold bind at 1, gets at 1. cbn [isAtEnd peek newSchemeParser tokens
      current List.length Nat.leb nth_error].
    assert (Hne : type c <> EOF) by (destruct Hc as [-> | ->]; discriminate).
    assert (Hgo :
      (currentElement <- grouping (S fuel) None ;;
       match currentElement with
       | None => parse_loop (S fuel) []
       | Some g =>
           convertedElement <- parseExpression (S fuel) (DGroup g) ;;
           parse_loop (S fuel) ([] ++ [convertedElement])
       end) (newSchemeParser src (c :: rest) ch)
      = Throw (UnexpectedFormError (Some (pos c)) (DToken c))
          {| source := src; tokens := c :: rest;
             chapter := match ch with Some x => x | None => Infinity end;
             current := 1; quoteMode := NONE |}).
    { unfold bind at 1. unfold grouping. unfold bind at 1.
      cbn [grouping_loop]. unfold bind at 1.
      rewrite (advance_at (newSchemeParser src (c :: rest) ch) [] c rest
                 eq_refl eq_refl).
      destruct Hc as [-> | ->]; reflexivity. }
    destruct (type c); try contradiction; eexists; exact Hgo.
  - intros fuel src o atoms eof rest ch Ho Hpl He Hf.
    destruct fuel as [|[|fuel]]; try lia.
    unfold parse. cbn [parse_loop].
    unfold bind at 1, gets at 1. cbn [isAtEnd peek newSchemeParser tokens
      current List.length Nat.leb nth_error].
    set (p0 := newSchemeParser src (o :: atoms ++ eof :: rest) ch).
    set (p1 := {| source := source p0; tokens := tokens p0;
                  chapter := chapter p0; current := S (current p0);
                  quoteMode := quoteMode p0 |}).
    destruct (grouping_loop_open atoms fuel [DToken o] p1 [o] eof rest Hpl He)
      as [p' Hp']; [reflexivity | reflexivity | lia |].
    assert (Hgo :
      (currentElement <- grouping (S fuel) None ;;
       match currentElement with
       | None => parse_loop (S fuel) []
       | Some g =>
           convertedElement <- parseExpression (S fuel) (DGroup g) ;;
           parse_loop (S fuel) ([] ++ [convertedElement])
       end) p0
      = Throw (UnexpectedEOFError (pos eof)) p').
    { unfold bind at 1. unfold grouping. unfold bind at 1.
      cbn [grouping_loop]. unfold bind at 1.
      rewrite (advance_at p0 [] o (atoms ++ eof :: rest) eq_refl eq_refl).
      fold p1.
      destruct Ho as [-> | ->]; unfold bind at 1; unfold bind at 1;
        rewrite Hp'; reflexivity. }
    exists p'. destruct Ho as [Eo | Eo]; rewrite Eo; exact Hgo.
Qed.

(** *** The keyword [vector] *)

Lemma grouping_loop_vector : forall opens fuel els inList p pre v rest,
  forallb isOpening opens = true ->
  type v = VECTOR ->
  tokens p = pre ++ opens ++ v :: rest ->
  current p = List.length pre ->
  List.length opens < fuel ->
  exists p',
    grouping_loop fuel els inList p
    = Throw (UnexpectedFormError (Some (pos v)) (DToken v)) p'.
Proof.
  induction opens as [|o opens IH];
    intros fuel els inList p pre v rest Ho Hv Ht Hc Hf;
    (destruct fuel as [|fuel]; [cbn in Hf; lia |]).
  - cbn [grouping_loop]. unfold bind at 1.
    rewrite (advance_at p pre v rest Ht Hc). rewrite Hv.
    eexists. reflexivity.
  - cbn in Ho. apply andb_prop in Ho as [Hopen Ho].
    cbn [grouping_loop]. unfold bind at 1.
    rewrite (advance_at p pre o (opens ++ v :: rest) Ht Hc).
    set (p1 := {| source := source p; tokens := tokens p;
                  chapter := chapter p; current := S (current p);
                  quoteMode := quoteMode p |}).
    destruct (IH fuel [DToken o] true p1 (pre ++ [o]) v rest Ho Hv)
      as [p' Hp'].
    + cbn. rewrite Ht, <- app_assoc. reflexivity.
    + cbn. rewrite Hc, length_app. cbn. lia.
    + cbn in Hf. lia.
    + exists p'. unfold isOpening in Hopen.
      destruct (type o); try discriminate Hopen;
        unfold bind at 1; unfold bind at 1; rewrite Hp'; reflexivity.
Qed.

Lemma firstn_S_nth : forall {A} (l : list A) n x,
  nth_error l n = Some x -> firstn (S n) l = firstn n l ++ [x].
Proof.
  intros A l. induction l as [|a l IH]; intros n x H.
  - destruct n; discriminate H.
  - destruct n as [|n]; cbn in H |- *.
    + injection H as <-. reflexivity.
    + f_equal. apply IH, H.
Qed.

(** [advance()] hands out a token that is read from now on. *)
Lemma advance_read : forall p c p1,
  readClean p -> advance p = Ok c p1 ->
  tokens p1 = tokens p /\ (type c <> VECTOR -> readClean p1).
Proof.
  intros p c p1 Hcl H. unfold advance in H.
  destruct (isAtEnd p); cbn [current tokens] in H.
  - destruct (current p) as [|i]; [discriminate H |].
    destruct (nth_error (tokens p) i); [| discriminate H].
    injection H as _ <-. auto.
  - destruct (nth_error (tokens p) (current p)) as [t|] eqn:E;
      [| discriminate H].
    injection H as <- <-. split; [reflexivity |].
    intros Hne. unfold readClean in *. cbn [current tokens].
    rewrite (firstn_S_nth _ _ _ E). apply Forall_app. split; [exact Hcl |].
    constructor; [exact Hne | constructor].
Qed.

Lemma readsClean_ret : forall {A} (a : A), readsClean (ret a).
Proof. intros A a p a' p' Hcl H. injection H as _ <-. auto. Qed.

Lemma readsClean_throw : forall {A} e,
  readsClean (@throw SchemeParser ParserError A e).
Proof. intros A e p a p' _ H. discriminate H. Qed.

Lemma readsClean_bind : forall {A B} (m : P A) (k : A -> P B),
  readsClean m -> (forall a, readsClean (k a)) -> readsClean (bind m k).
Proof.
  intros A B m k Hm Hk p b p' Hcl H.
  apply bind_Ok_inv in H as (a & p1 & Ha & H).
  destruct (Hm p a p1 Hcl Ha) as [Hcl1 Ht1].
  destruct (Hk a p1 b p' Hcl1 H) as [Hcl' Ht']. split; congruence.
Qed.

Lemma readsClean_keeps : forall {A} (m : P A), keeps m -> readsClean m.
Proof.
  intros A m Hm p a p' Hcl H. specialize (Hm p). rewrite H in Hm.
  subst p'. auto.
Qed.

Lemma readsClean_liftBuild : forall r, readsClean (liftBuild r).
Proof.
  intros [e|g]; [apply readsClean_throw | apply readsClean_ret].
Qed.

Lemma readsClean_grouping_finish : forall els,
  readsClean (grouping_finish els).
Proof.
  intros els. unfold grouping_finish. destruct els; [apply readsClean_ret |].
  apply readsClean_bind; [apply readsClean_liftBuild |].
  intros g. apply readsClean_ret.
Qed.

Lemma readsClean_untilSome : forall {A} n (m : P (option A)),
  readsClean m -> readsClean (untilSome n m).
Proof.
  intros A n m Hm. induction n as [|n IH]; [intros p a p' _ H; discriminate H |].
  cbn [untilSome]. apply readsClean_bind; [exact Hm |].
  intros [a|]; [apply readsClean_ret | exact IH].
Qed.

Lemma readsClean_grouping_loop : forall fuel els inList,
  readsClean (grouping_loop fuel els inList).
Proof.
  induction fuel as [|fuel IH]; intros els inList;
    [intros p a p' _ H; discriminate H |].
  assert (Hg : forall o,
    readsClean
      match o with
      | Some o' =>
          r <- grouping_loop fuel [DToken o'] true ;; grouping_finish r
      | None => r <- grouping_loop fuel [] false ;; grouping_finish r
      end).
  { intros [o|]; (apply readsClean_bind;
      [apply IH | intros r; apply readsClean_grouping_finish]). }
  assert (Hc : forall els' (b : bool),
    readsClean (if b then grouping_loop fuel els' b else ret els')).
  { intros els' [|]; [apply IH | apply readsClean_ret]. }
  intros p r p' Hcl H. cbn [grouping_loop] in H.
  apply bind_Ok_inv in H as (c & p1 & Ha & H).
  destruct (advance_read p c p1 Hcl Ha) as [Ht1 Hcl1].
  assert (Hrest : forall k : P (list Dat),
    type c <> VECTOR -> readsClean k -> k p1 = Ok r p' ->
    readClean p' /\ tokens p' = tokens p).
  { intros k Hne Hk Hr. destruct (Hk p1 r p' (Hcl1 Hne) Hr) as [H1 H2].
    split; congruence. }
  destruct (type c) eqn:Et;
    try discriminate H;
    (eapply Hrest; [discriminate | | exact H]);
    first
      [ apply Hc
      | apply readsClean_bind;
        [ apply (Hg (Some c))
        | intros [g|]; [apply Hc | apply readsClean_throw] ]
      | destruct (negb inList); [apply readsClean_throw | apply readsClean_ret]
      | apply readsClean_bind;
        [ apply readsClean_untilSome, (Hg None)
        | intros g; apply readsClean_bind;
          [ unfold affect; apply readsClean_liftBuild | intros g'; apply Hc ] ]
      | apply readsClean_bind;
        [ apply readsClean_untilSome, (Hg None) | intros g; apply Hc ] ].
Qed.

(** A parse that returns has read no [vector] keyword, and has stopped at
    the end of the tokens or before an [EOF] token. *)
Lemma parse_loop_read : forall fuel top p es p',
  readClean p ->
  parse_loop fuel top p = Ok es p' ->
  readClean p' /\ tokens p' = tokens p /\
  (isAtEnd p' = true \/
   exists t, peek p' = Some t /\ type t = EOF).
Proof.
  induction fuel as [|fuel IH]; intros top p es p' Hcl H; [discriminate H |].
  cbn [parse_loop] in H. unfold bind at 1, gets at 1 in H.
  destruct (isAtEnd p) eqn:Ee.
  { injection H as _ <-. auto. }
  destruct (peek p) as [t|] eqn:Ep; [| discriminate H].
  assert (Hgo :
    (currentElement <- grouping fuel None ;;
     match currentElement with
     | None => parse_loop fuel top
     | Some g =>
         convertedElement <- parseExpression fuel (DGroup g) ;;
         parse_loop fuel (top ++ [convertedElement])
     end) p = Ok es p' ->
    readClean p' /\ tokens p' = tokens p /\
    (isAtEnd p' = true \/ exists t, peek p' = Some t /\ type t = EOF)).
  { clear H. intros H.
    apply bind_Ok_inv in H as (o & p1 & Hg & H).
    assert (Hg1 : readClean p1 /\ tokens p1 = tokens p).
    { unfold grouping in Hg.
      eapply (readsClean_bind (grouping_loop fuel [] false)
                grouping_finish); eauto.
      - apply readsClean_grouping_loop.
      - intros r. apply readsClean_grouping_finish. }
    destruct Hg1 as [Hcl1 Ht1].
    destruct o as [g|].
    - apply bind_Ok_inv in H as (e & p2 & He & H).
      pose proof (keeps_parseExpression fuel (DGroup g) p1) as Hk.
      rewrite He in Hk. subst p2.
      destruct (IH _ _ _ _ Hcl1 H) as (H1 & H2 & H3).
      repeat split; auto; congruence.
    - destruct (IH _ _ _ _ Hcl1 H) as (H1 & H2 & H3).
      repeat split; auto; congruence. }
  destruct (type t) eqn:Et; try (apply Hgo; exact H).
  injection H as _ <-. repeat split; auto. right. exists t. auto.
Qed.

(** The keyword [vector] never parses.  A list led by the keyword,
    outside any quotation, is a [DisallowedTokenError] under a ceiling
    below 3 and an unexpected form under any other, whatever its
    operands.  A parse stops at the first token that is the keyword: a
    source that opens with [(vector], after any number of opening
    delimiters, is an unexpected form, whatever the ceiling.  And no
    parse returns on tokens that hold the keyword before their [EOF]. *)
Theorem vector_keyword_form_is_rejected :
  (forall pe g v rest p,
     listOf g (DToken v :: rest) ->
     type v = VECTOR ->
     quoteMode p = NONE ->
     parseGroup pe g p
     = Throw (if chapter_ltb (chapter p) VECTOR_CHAPTER
              then DisallowedTokenError (pos v) v (chapter p)
              else UnexpectedFormError (Some (pos v)) (DToken v)) p) /\
  (forall fuel src opens v rest ch,
     forallb isOpening opens = true ->
     type v = VECTOR ->
     List.length opens + 2 <= fuel ->
     exists p',
       parse fuel (newSchemeParser src (opens ++ v :: rest) ch)
       = Throw (UnexpectedFormError (Some (pos v)) (DToken v)) p') /\
  (forall fuel src body eof ch es p',
     Forall (fun t => type t <> EOF) body ->
     type eof = EOF ->
     parse fuel (newSchemeParser src (body ++ [eof]) ch) = Ok es p' ->
     Forall (fun t => type t <> VECTOR) body).
Proof.
  split; [| split].
  - intros pe g v rest p Hg Hv Hq.
    rewrite (parseGroup_list_NONE pe g _ p Hg Hq). destruct Hg as [_ Hu].
    unfold parseNormalGroup. rewrite Hu, Hv. unfold bind at 1.
    destruct (chapter_ltb (chapter p) VECTOR_CHAPTER) eqn:Hch.
    + rewrite (validateChapter_throw v _ p Hch). reflexivity.
    + rewrite (validateChapter_ok v _ p Hch).
      unfold parseAffectorGroup. rewrite Hu. cbn [nth_error]. rewrite Hv.
      reflexivity.
  - intros fuel src opens v rest ch Ho Hv Hf.
    destruct fuel as [|fuel]; [lia |].
    set (p0 := newSchemeParser src (opens ++ v :: rest) ch).
    destruct (grouping_loop_vector opens fuel [] false p0 [] v rest Ho Hv)
      as [p' Hp']; [reflexivity | reflexivity | lia |].
    exists p'. unfold parse. cbn [parse_loop].
    unfold bind at 1, gets at 1.
    assert (He : isAtEnd p0 = false).
    { unfold isAtEnd. apply Nat.leb_gt. cbn [p0 newSchemeParser tokens current].
      rewrite length_app. cbn. lia. }
    rewrite He.
    assert (Hgo :
      (currentElement <- grouping fuel None ;;
       match currentElement with
       | None => parse_loop fuel []
       | Some g =>
           convertedElement <- parseExpression fuel (DGroup g) ;;
           parse_loop fuel ([] ++ [convertedElement])
       end) p0
      = Throw (UnexpectedFormError (Some (pos v)) (DToken v)) p').
    { unfold bind at 1. unfold grouping. unfold bind at 1. rewrite Hp'.
      reflexivity. }
    destruct (peek p0) as [t|] eqn:Ep.
    + assert (Hne : type t <> EOF).
      { unfold peek in Ep. cbn [p0 newSchemeParser tokens current] in Ep.
        destruct opens as [|o opens]; cbn in Ep; injection Ep as <-.
        - rewrite Hv. discriminate.
        - cbn in Ho. apply andb_prop in Ho as [Hopen _].
          unfold isOpening in Hopen.
          destruct (type o); try discriminate Hopen; discriminate. }
      destruct (type t); try contradiction; exact Hgo.
    + unfold peek in Ep. cbn [p0 newSchemeParser tokens current] in Ep.
      destruct opens; discriminate Ep.
  - intros fuel src body eof ch es p' Hbody Heof H.
    set (p0 := newSchemeParser src (body ++ [eof]) ch) in *.
    assert (Hcl0 : readClean p0) by (unfold readClean; cbn; constructor).
    destruct (parse_loop_read fuel [] p0 es p' Hcl0 H) as (Hcl & Ht & Hend).
    unfold readClean in Hcl. rewrite Ht in Hcl.
    cbn [p0 newSchemeParser tokens] in Hcl, Ht.
    assert (Hlen : List.length body <= current p').
    { destruct Hend as [He | (t & Hp & Hty)].
      - unfold isAtEnd in He. apply Nat.leb_le in He.
        rewrite Ht, length_app in He. cbn in He. lia.
      - unfold peek in Hp. rewrite Ht in Hp.
        destruct (Nat.lt_ge_cases (current p') (List.length body))
          as [Hlt | Hge]; [| exact Hge].
        rewrite nth_error_app1 in Hp by exact Hlt.
        apply nth_error_In in Hp. rewrite Forall_forall in Hbody.
        exfalso. apply (Hbody t Hp Hty). }
    rewrite firstn_app in Hcl. apply Forall_app in Hcl as [Hcl _].
    rewrite firstn_all2 in Hcl by exact Hlen. exact Hcl.
Qed.

(** *** Raising the ceiling *)

Section Lifts.
Variables c c' : Chapter.
Hypothesis c_le : allowsMore c c'.

Lemma lifts_ret : forall {A} (a : A), lifts c c' (ret a).
Proof. intros A a p Hp. cbn. auto. Qed.

Lemma lifts_throw : forall {A} e,
  lifts c c' (@throw SchemeParser ParserError A e).
Proof. intros A e p Hp. cbn. auto. Qed.

Lemma lifts_bind : forall {A B} (m : P A) (k : A -> P B),
  lifts c c' m -> (forall a, lifts c c' (k a)) -> lifts c c' (bind m k).
Proof.
  intros A B m k Hm Hk p Hp. unfold bind. specialize (Hm p Hp).
  destruct (m p) as [a s|e s|]; auto.
  - destruct Hm as [Hs ->]. apply Hk, Hs.
  - intros He. rewrite (Hm He). reflexivity.
Qed.

Lemma lifts_gets_quoteMode :
  lifts c c' (@gets SchemeParser ParserError _ quoteMode).
Proof. intros p Hp. cbn. auto. Qed.

Lemma lifts_setQuoteMode : forall q, lifts c c' (setQuoteMode q).
Proof. intros q p Hp. cbn. auto. Qed.

Lemma lifts_mapM : forall {A B} (f : A -> P B) l,
  (forall a, lifts c c' (f a)) -> lifts c c' (mapM f l).
Proof.
  intros A B f l Hf. induction l as [|a l IH]; cbn [mapM].
  - apply lifts_ret.
  - apply lifts_bind; [apply Hf |]. intros b.
    apply lifts_bind; [exact IH |]. intros bs. apply lifts_ret.
Qed.

Lemma lifts_forEachM : forall {A} (f : A -> P unit) l,
  (forall a, lifts c c' (f a)) -> lifts c c' (forEachM f l).
Proof.
  intros A f l Hf. induction l as [|a l IH]; cbn [forEachM].
  - apply lifts_ret.
  - apply lifts_bind; [apply Hf |]. intros _. exact IH.
Qed.

Lemma lifts_validateChapter : forall t ch, lifts c c' (validateChapter t ch).
Proof.
  intros t ch p Hp. unfold validateChapter, bind, gets. cbn [chapter withChapter].
  destruct (chapter_ltb (chapter p) ch) eqn:E; cbn.
  - intros [].
  - destruct (chapter_ltb c' ch) eqn:E'.
    + apply c_le in E'. congruence.
    + auto.
Qed.

Lemma lifts_at : forall l i, lifts c c' (at_ l i).
Proof.
  intros l i. unfold at_. destruct (nth_error l i);
    [apply lifts_ret | apply lifts_throw].
Qed.

Lemma lifts_spanOf : forall l, lifts c c' (spanOf l).
Proof.
  intros l. unfold spanOf.
  destruct l; [apply lifts_throw |].
  destruct (last _ _); [apply lifts_ret | apply lifts_throw].
Qed.

Ltac lifts_go :=
  repeat first
    [ apply lifts_ret | apply lifts_throw | apply lifts_gets_quoteMode
    | apply lifts_setQuoteMode
    | apply lifts_validateChapter | apply lifts_at | apply lifts_spanOf
    | solve [auto]
    | apply lifts_mapM; intros ?
    | apply lifts_forEachM; intros ?
    | apply lifts_bind; [| intros ?]
    | match goal with
      | |- lifts _ _ (if ?b then _ else _) => destruct b
      | |- lifts _ _ (match ?x with _ => _ end) => destruct x
      end ].

Lemma lifts_parseToken : forall t, lifts c c' (parseToken t).
Proof. intros t. unfold parseToken. lifts_go. Qed.

Variable pe : Dat -> P Expression.
Hypothesis pe_lifts : forall d, lifts c c' (pe d).

#[local] Hint Resolve lifts_parseToken : core.

Lemma lifts_parseExpression' : forall x, lifts c c' (parseExpression' pe x).
Proof. intros x. unfold parseExpression'. lifts_go. Qed.

Lemma lifts_noVerifier : forall d, lifts c c' (noVerifier d).
Proof. intros d. apply lifts_ret. Qed.

Lemma lifts_identifierVerifier : forall d, lifts c c' (identifierVerifier d).
Proof. intros d. unfold identifierVerifier. lifts_go. Qed.

Lemma lifts_destructureList : forall l v,
  (forall d, lifts c c' (v d)) -> lifts c c' (destructureList pe l v).
Proof. intros l v Hv. unfold destructureList. lifts_go. Qed.

#[local] Hint Resolve lifts_parseExpression' lifts_noVerifier
  lifts_identifierVerifier lifts_destructureList : core.

Lemma lifts_quotedList : forall a name target,
  lifts c c' (quotedList pe a name target).
Proof. intros a name target. unfold quotedList. lifts_go. Qed.

Lemma lifts_parseVector : forall g, lifts c c' (parseVector pe g).
Proof. intros g. unfold parseVector. lifts_go. Qed.

Lemma lifts_bodyOf : forall l, lifts c c' (bodyOf l).
Proof. intros l. unfold bodyOf. lifts_go. Qed.

#[local] Hint Resolve lifts_quotedList lifts_parseVector lifts_bodyOf : core.

Lemma lifts_parseAffectorGroup : forall g,
  lifts c c' (parseAffectorGroup pe g).
Proof. intros g. unfold parseAffectorGroup. lifts_go. Qed.

Lemma lifts_parseQuotedGroup : forall g, lifts c c' (parseQuotedGroup pe g).
Proof. intros g. unfold parseQuotedGroup. lifts_go. Qed.

Lemma lifts_parseLambda : forall g, lifts c c' (parseLambda pe g).
Proof. intros g. unfold parseLambda. lifts_go. Qed.

Lemma lifts_parseDefinition : forall g, lifts c c' (parseDefinition pe g).
Proof. intros g. unfold parseDefinition. lifts_go. Qed.

Lemma lifts_parseConditional : forall g, lifts c c' (parseConditional pe g).
Proof. intros g. unfold parseConditional. lifts_go. Qed.

Lemma lifts_parseApplication : forall g, lifts c c' (parseApplication pe g).
Proof. intros g. unfold parseApplication. lifts_go. Qed.

Lemma lifts_parseBinding : forall d, lifts c c' (parseBinding pe d).
Proof. intros d. unfold parseBinding. lifts_go. Qed.

#[local] Hint Resolve lifts_parseBinding : core.

Lemma lifts_parseLet : forall g, lifts c c' (parseLet pe g).
Proof. intros g. unfold parseLet. lifts_go. Qed.

Lemma lifts_firstTokenError : forall {A} g expected,
  lifts c c' (@firstTokenError A g expected).
Proof. intros A g expected. unfold firstTokenError. lifts_go. Qed.

#[local] Hint Resolve @lifts_firstTokenError : core.

Lemma lifts_parseClause : forall d, lifts c c' (parseClause pe d).
Proof. intros d. unfold parseClause. lifts_go. Qed.

#[local] Hint Resolve lifts_parseClause : core.

Lemma lifts_parseExtendedCond : forall g,
  lifts c c' (parseExtendedCond pe g).
Proof. intros g. unfold parseExtendedCond. lifts_go. Qed.

Lemma lifts_parseSet : forall g, lifts c c' (parseSet pe g).
Proof. intros g. unfold parseSet. lifts_go. Qed.

Lemma lifts_parseBegin : forall g, lifts c c' (parseBegin pe g).
Proof. intros g. unfold parseBegin. lifts_go. Qed.

Lemma lifts_parseDelay : forall g, lifts c c' (parseDelay pe g).
Proof. intros g. unfold parseDelay. lifts_go. Qed.

Lemma lifts_importIdentifier : forall d, lifts c c' (importIdentifier d).
Proof. intros d. unfold importIdentifier. lifts_go. Qed.

#[local] Hint Resolve lifts_importIdentifier : core.

Lemma lifts_parseImport : forall g b, lifts c c' (parseImport g b).
Proof. intros g b. unfold parseImport. lifts_go. Qed.

Lemma lifts_parseExport : forall g b, lifts c c' (parseExport pe g b).
Proof. intros g b. unfold parseExport. lifts_go. Qed.

#[local] Hint Resolve lifts_parseAffectorGroup lifts_parseQuotedGroup
  lifts_parseLambda lifts_parseDefinition lifts_parseConditional
  lifts_parseApplication lifts_parseLet lifts_parseExtendedCond
  lifts_parseSet lifts_parseBegin lifts_parseDelay lifts_parseImport
  lifts_parseExport : core.

Lemma lifts_parseNormalGroup : forall g, lifts c c' (parseNormalGroup pe g).
Proof. intros g. unfold parseNormalGroup. lifts_go. Qed.

Lemma lifts_parseGroup : forall g, lifts c c' (parseGroup pe g).
Proof.
  intros g. unfold parseGroup.
  destruct (negb (isParenthesized g)); [apply lifts_parseAffectorGroup |].
  apply lifts_bind; [apply lifts_gets_quoteMode |].
  intros []; auto using lifts_parseNormalGroup.
Qed.

Lemma lifts_parseExpression_body : forall d,
  lifts c c' (parseExpression_body pe d).
Proof.
  intros d. unfold parseExpression_body.
  destruct d as [t|g]; [apply lifts_parseToken |].
  destruct (isSingleIdentifier g);
    [apply lifts_parseToken | apply lifts_parseGroup].
Qed.

End Lifts.

Lemma lifts_parseExpression : forall c c' n d,
  allowsMore c c' -> lifts c c' (parseExpression n d).
Proof.
  intros c c' n d Hc. revert d.
  induction n as [|n IH]; intros d; [intros p _; exact I |].
  apply (lifts_parseExpression_body c c' Hc (parseExpression n) IH).
Qed.

Lemma lifts_advance : forall c c', lifts c c' advance.
Proof.
  intros c c' p Hp. unfold advance.
  cbn [isAtEnd withChapter tokens current].
  change (isAtEnd (withChapter c' p)) with (isAtEnd p).
  destruct (isAtEnd p); cbn [current tokens withChapter].
  - destruct (current p) as [|i]; [cbn; auto |].
    destruct (nth_error (tokens p) i); cbn; auto.
  - destruct (nth_error (tokens p) (current p)); cbn; auto.
Qed.

Lemma lifts_liftBuild : forall c c' r, lifts c c' (liftBuild r).
Proof.
  intros c c' [e|g]; [apply lifts_throw | apply lifts_ret].
Qed.

Lemma lifts_untilSome : forall c c' {A} n (m : P (option A)),
  lifts c c' m -> lifts c c' (untilSome n m).
Proof.
  intros c c' A n m Hm. induction n as [|n IH]; [intros p _; exact I |].
  cbn [untilSome]. apply lifts_bind; [exact Hm |].
  intros [a|]; [apply lifts_ret | exact IH].
Qed.

Lemma lifts_grouping_finish : forall c c' els,
  lifts c c' (grouping_finish els).
Proof.
  intros c c' els. unfold grouping_finish.
  destruct els; [apply lifts_ret |].
  apply lifts_bind; [apply lifts_liftBuild | intros g; apply lifts_ret].
Qed.

Lemma lifts_grouping_loop : forall c c' fuel els inList,
  lifts c c' (grouping_loop fuel els inList).
Proof.
  intros c c'. induction fuel as [|fuel IH]; intros els inList;
    [intros p _; exact I |].
  cbn [grouping_loop].
  assert (Hg : forall o,
    lifts c c'
      match o with
      | Some o' =>
          r <- grouping_loop fuel [DToken o'] true ;; grouping_finish r
      | None => r <- grouping_loop fuel [] false ;; grouping_finish r
      end).
  { intros [o|]; (apply lifts_bind; [apply IH |]);
      intros r; apply lifts_grouping_finish. }
  assert (Hc : forall els' (b : bool),
    lifts c c' (if b then grouping_loop fuel els' b else ret els')).
  { intros els' [|]; [apply IH | apply lifts_ret]. }
  apply lifts_bind; [apply lifts_advance |]. intros t.
  destruct (type t);
    repeat first
      [ apply lifts_throw
      | apply lifts_ret
      | apply Hc
      | apply lifts_untilSome
      | apply (Hg None)
      | apply (Hg (Some t))
      | apply lifts_liftBuild
      | apply lifts_bind; [| intros ?]
      | match goal with
        | |- lifts _ _ (if ?b then _ else _) => destruct b
        | |- lifts _ _ (match ?x with _ => _ end) => destruct x
        end ].
Qed.

Lemma parse_loop_step : forall fuel top p,
  parse_loop (S fuel) top p =
  if isAtEnd p then Ok top p
  else match peek p with
       | None => Throw JsTypeError p
       | Some t =>
           match type t with
           | EOF => Ok top p
           | _ =>
               (currentElement <- grouping fuel None ;;
                match currentElement with
                | None => parse_loop fuel top
                | Some g =>
                    convertedElement <- parseExpression fuel (DGroup g) ;;
                    parse_loop fuel (top ++ [convertedElement])
                end) p
           end
       end.
Proof.
  intros fuel top p. cbn [parse_loop]. unfold bind at 1, gets at 1.
  destruct (isAtEnd p); [reflexivity |].
  destruct (peek p) as [t|]; [| reflexivity].
  destruct (type t); reflexivity.
Qed.

Lemma lifts_parse_loop : forall c c' fuel top,
  allowsMore c c' -> lifts c c' (parse_loop fuel top).
Proof.
  intros c c' fuel top Hc. revert top.
  induction fuel as [|fuel IH]; intros top; [intros p _; exact I |].
  intros p Hp. rewrite !parse_loop_step.
  change (isAtEnd (withChapter c' p)) with (isAtEnd p).
  change (peek (withChapter c' p)) with (peek p).
  destruct (isAtEnd p); [auto |].
  destruct (peek p) as [t|]; [| auto].
  assert (Hrest : lifts c c'
    (currentElement <- grouping fuel None ;;
     match currentElement with
     | None => parse_loop fuel top
     | Some g =>
         convertedElement <- parseExpression fuel (DGroup g) ;;
         parse_loop fuel (top ++ [convertedElement])
     end)).
  { apply lifts_bind.
    - unfold grouping. apply lifts_bind; [apply lifts_grouping_loop |].
      intros r. apply lifts_grouping_finish.
    - intros [g|]; [| apply IH].
      apply lifts_bind; [apply lifts_parseExpression, Hc |].
      intros e. apply IH. }
  destruct (type t); try exact (Hrest p Hp). auto.
Qed.

Lemma chapter_leb_allowsMore : forall c c',
  chapter_leb c c' = true -> allowsMore c c'.
Proof.
  intros [a|] [b|] H k Hk; cbn in *; try discriminate.
  apply Z.leb_le in H. apply Z.ltb_lt in Hk. apply Z.ltb_lt. lia.
Qed.

(** Raising the chapter ceiling changes no parse that the lower ceiling
    lets through: under a ceiling at least as high a parse returns the
    same expressions, and throws the same error when that is not a
    [DisallowedTokenError]. *)
Theorem raising_the_ceiling : forall fuel src toks c c',
  chapter_leb c c' = true ->
  match parse fuel (newSchemeParser src toks (Some c)) with
  | Ok es s =>
      parse fuel (newSchemeParser src toks (Some c'))
      = Ok es (withChapter c' s)
  | Throw e s =>
      notDisallowed e ->
      parse fuel (newSchemeParser src toks (Some c'))
      = Throw e (withChapter c' s)
  | OutOfFuel => True
  end.
Proof.
  intros fuel src toks c c' Hc. apply chapter_leb_allowsMore in Hc.
  pose proof (lifts_parse_loop c c' fuel [] Hc
                (newSchemeParser src toks (Some c)) eq_refl) as H.
  unfold parse.
  change (newSchemeParser src toks (Some c'))
    with (withChapter c' (newSchemeParser src toks (Some c))).
  destruct (parse_loop fuel [] (newSchemeParser src toks (Some c)));
    auto. apply H.
Qed.

Lemma raising_the_ceiling_witness :
  match parse 8 (newSchemeParser "(let ((x 1)) x)" letTokens
                   (Some (Finite 1))) with
  | Ok es s =>
      parse 8 (newSchemeParser "(let ((x 1)) x)" letTokens
                 (Some (Finite 3)))
      = Ok es (withChapter (Finite 3) s)
  | Throw e s =>
      notDisallowed e ->
      parse 8 (newSchemeParser "(let ((x 1)) x)" letTokens
                 (Some (Finite 3)))
      = Throw e (withChapter (Finite 3) s)
  | OutOfFuel => True
  end.
Proof.
  apply (raising_the_ceiling 8 "(let ((x 1)) x)" letTokens
           (Finite 1) (Finite 3)).
  reflexivity.
Defined.

(** Under the default ceiling, [Infinity], a parse throws no
    [DisallowedTokenError]. *)
Theorem default_ceiling_stops_nothing : forall fuel src toks e p',
  parse fuel (newSchemeParser src toks None) = Throw e p' ->
  notDisallowed e.
Proof.
  intros fuel src toks e p' H.
  pose proof (ParserLaws.unlimited_parse_loop fuel []
                (newSchemeParser src toks None) eq_refl) as U.
  unfold parse in H. rewrite H in U. exact U.
Qed.

Lemma default_ceiling_stops_nothing_witness :
  notDisallowed
    (UnexpectedFormError (Some (mkPosition 1 1))
       (DToken (tk RIGHT_PAREN ")" LNull 0))).
Proof.
  apply (default_ceiling_stops_nothing 2 ")"
           [tk RIGHT_PAREN ")" LNull 0; tk EOF EmptyString LNull 1]
           _ (mkSchemeParser ")"
                [tk RIGHT_PAREN ")" LNull 0; tk EOF EmptyString LNull 1]
                Infinity 1 NONE)).
  reflexivity.
Defined.

(** *** The statements at work *)

Local Open Scope string_scope.


Lemma unquote_by_mode_witness :
  (parseExpression 2
     (DGroup (affectorGroup (tk COMMA "," LNull 0)
                (DToken (tk IDENTIFIER "x" LNull 1))
                (mkLocation (mkPosition 1 1) (mkPosition 1 2))))
     (parserIn QUASIQUOTE_MODE Infinity)
   = Ok (Atomic_Identifier (toLocation (tk IDENTIFIER "x" LNull 1)) "x")
       (parserIn QUASIQUOTE_MODE Infinity)) /\
  (parseExpression 2
     (DGroup (listGroup [DToken (tk UNQUOTE "unquote" LNull 1);
                         DToken (tk IDENTIFIER "x" LNull 9)]))
     (parserIn QUASIQUOTE_MODE Infinity)
   = Ok (Extended_List (mkLocation (mkPosition 1 1) (mkPosition 1 4))
           [Atomic_Symbol (toLocation (tk UNQUOTE "unquote" LNull 1))
              "unquote";
            Atomic_Symbol (toLocation (tk IDENTIFIER "x" LNull 9)) "x"]
           None)
       (parserIn QUASIQUOTE_MODE Infinity)).
Proof.
  split.
  - apply (proj1 unquote_by_mode 1 (parserIn QUASIQUOTE_MODE Infinity)
             (tk COMMA "," LNull 0) (DToken (tk IDENTIFIER "x" LNull 1))
             _ eq_refl).
  - apply (proj2 (proj2 unquote_by_mode) 0
             (parserIn QUASIQUOTE_MODE Infinity)
             (listGroup [DToken (tk UNQUOTE "unquote" LNull 1);
                         DToken (tk IDENTIFIER "x" LNull 9)])
             (tk UNQUOTE "unquote" LNull 1)
             (DToken (tk IDENTIFIER "x" LNull 9)));
      [split; reflexivity | reflexivity | discriminate].
Defined.

Lemma vector_keyword_form_is_rejected_witness :
  (parseGroup (parseExpression 1)
     (listGroup [DToken (tk VECTOR "vector" LNull 1);
                 DToken (tk NUMBER "1" (LNumber "1") 8)])
     (parserIn NONE (Finite 2))
   = Throw (DisallowedTokenError (mkPosition 1 2)
              (tk VECTOR "vector" LNull 1) (Finite 2))
       (parserIn NONE (Finite 2))) /\
  (exists p',
     parse 3
       (newSchemeParser "(vector 1)"
          ([tk LEFT_PAREN "(" LNull 0] ++
           tk VECTOR "vector" LNull 1 ::
           [tk NUMBER "1" (LNumber "1") 8; tk RIGHT_PAREN ")" LNull 9;
            tk EOF EmptyString LNull 10]) (Some (Finite 2)))
     = Throw (UnexpectedFormError (Some (mkPosition 1 2))
                (DToken (tk VECTOR "vector" LNull 1))) p').
Proof.
  split.
  - apply (proj1 vector_keyword_form_is_rejected (parseExpression 1)
             (listGroup [DToken (tk VECTOR "vector" LNull 1);
                         DToken (tk NUMBER "1" (LNumber "1") 8)])
             (tk VECTOR "vector" LNull 1)
             [DToken (tk NUMBER "1" (LNumber "1") 8)]
             (parserIn NONE (Finite 2)));
      [split; reflexivity | reflexivity | reflexivity].
  - apply (proj1 (proj2 vector_keyword_form_is_rejected) 3 "(vector 1)"
             [tk LEFT_PAREN "(" LNull 0] (tk VECTOR "vector" LNull 1));
      [reflexivity | reflexivity | cbn; lia].
Defined.

Lemma empty_list_by_mode_witness :
  parseGroup (parseExpression 1) (listGroup []) (parserIn QUOTE_MODE Infinity)
  = Ok (Atomic_Nil (mkLocation (mkPosition 1 1) (mkPosition 1 2)))
      (parserIn QUOTE_MODE Infinity).
Proof.
  apply (empty_list_by_mode (parseExpression 1) (listGroup [])
           (parserIn QUOTE_MODE Infinity)).
  split; reflexivity.
Defined.

Lemma wrong_arity_is_expected_form_witness :
  exists c,
    formChapter BEGIN = Some c /\
    parseGroup (parseExpression 1)
      (listGroup [DToken (tk BEGIN "begin" LNull 1)])
      (parserIn NONE (Finite 1))
    = Throw (DisallowedTokenError (mkPosition 1 2)
               (tk BEGIN "begin" LNull 1) (Finite 1))
        (parserIn NONE (Finite 1)).
Proof.
  assert (Hg : listOf (listGroup [DToken (tk BEGIN "begin" LNull 1)])
                 [DToken (tk BEGIN "begin" LNull 1)])
    by (split; reflexivity).
  destruct (wrong_arity_is_expected_form (parseExpression 1)
              (listGroup [DToken (tk BEGIN "begin" LNull 1)])
              (tk BEGIN "begin" LNull 1) [] (parserIn NONE (Finite 1))
              Hg eq_refl eq_refl) as [c [Hc H]].
  exists c. split; [exact Hc |].
  injection Hc as <-. exact H.
Defined.

Lemma function_definition_is_named_lambda_witness :
  let f := tk IDENTIFIER "f" LNull 9 in
  let x := DToken (tk IDENTIFIER "x" LNull 11) in
  let head := listGroup [DToken f; x] in
  let formals := listGroup [x] in
  let gd := listGroup [DToken (tk DEFINE "define" LNull 1); DGroup head; x] in
  let gl := listGroup [DToken (tk LAMBDA "lambda" LNull 1);
                       DGroup formals; x] in
  parseDefinition (parseExpression 1) gd (parserIn NONE Infinity)
  = (lam <- parseLambda (parseExpression 1) gl ;;
     ret (asFunctionDefinition (location gd)
            (Atomic_Identifier (toLocation f) (lexeme f)) lam))
      (parserIn NONE Infinity).
Proof.
  intros f x head formals gd gl.
  apply (function_definition_is_named_lambda (parseExpression 1) gd gl
           (tk DEFINE "define" LNull 1) (tk LAMBDA "lambda" LNull 1)
           head formals f [x] x []);
    try reflexivity; split; reflexivity.
Defined.

Lemma unbalanced_delimiters_witness :
  (exists p',
     parse 2 (newSchemeParser ")" [tk RIGHT_PAREN ")" LNull 0;
                                   tk EOF EmptyString LNull 1] None)
     = Throw (UnexpectedFormError (Some (mkPosition 1 1))
                (DToken (tk RIGHT_PAREN ")" LNull 0))) p') /\
  (exists p',
     parse 4 (newSchemeParser "(a"
                [tk LEFT_PAREN "(" LNull 0; tk IDENTIFIER "a" LNull 1;
                 tk EOF EmptyString LNull 2] None)
     = Throw (UnexpectedEOFError (mkPosition 1 3)) p').
Proof.
  split.
  - apply (proj1 unbalanced_delimiters 0 ")" (tk RIGHT_PAREN ")" LNull 0)).
    left. reflexivity.
  - apply (proj2 unbalanced_delimiters 4 "(a" (tk LEFT_PAREN "(" LNull 0)
             [tk IDENTIFIER "a" LNull 1] (tk EOF EmptyString LNull 2) []);
      try reflexivity. left. reflexivity.
Defined.

End FormsFacts.

(** ** The parser: when a parse ends *)

Module TerminationFacts.
Import Parser ParserSpec ParserFacts ParserLaws TerminationSpec.
Import FormsSpec FormsFacts.

Lemma endsWithEOF_last : forall toks,
  endsWithEOF toks = true ->
  exists pre eof, toks = pre ++ [eof] /\ type eof = EOF.
Proof.
  intros toks H. unfold endsWithEOF in H.
  destruct (exists_last (l := toks)) as (pre & x & ->).
  - intros ->. discriminate H.
  - rewrite map_app in H. cbn in H. rewrite last_last in H.
    exists pre, x. split; [reflexivity |].
    destruct (type x); try discriminate H; reflexivity.
Qed.

(** [advance()] before the last token. *)
Lemma advance_inside : forall p,
  current p < List.length (tokens p) ->
  exists t,
    nth_error (tokens p) (current p) = Some t /\
    advance p = Ok t {| source := source p; tokens := tokens p;
                        chapter := chapter p; current := S (current p);
                        quoteMode := quoteMode p |}.
Proof.
  intros p H. unfold advance.
  assert (He : isAtEnd p = false) by (unfold isAtEnd; apply Nat.leb_gt, H).
  rewrite He. cbn [current tokens].
  destruct (nth_error (tokens p) (current p)) as [t|] eqn:E.
  - exists t. auto.
  - apply nth_error_None in E. lia.
Qed.

Lemma not_EOF_not_last : forall toks i t,
  endsWithEOF toks = true ->
  nth_error toks i = Some t -> type t <> EOF ->
  S i < List.length toks.
Proof.
  intros toks i t He Hn Ht.
  destruct (endsWithEOF_last toks He) as (pre & eof & -> & Heof).
  assert (Hi : i < List.length (pre ++ [eof]))
    by (apply nth_error_Some; congruence).
  rewrite length_app in *. cbn [List.length] in *.
  destruct (Nat.eq_dec i (List.length pre)) as [-> | Hne]; [| lia].
  rewrite nth_error_app2, Nat.sub_diag in Hn by lia.
  injection Hn as <-. contradiction.
Qed.

Lemma depth_group : forall (els : list Dat) loc,
  depth (DGroup (mkGroup els loc)) = S (list_max (map depth els)).
Proof. reflexivity. Qed.

Lemma list_max_bound : forall l n,
  Forall (fun x => x <= n) l -> list_max l <= n.
Proof. intros l n H. apply list_max_le. exact H. Qed.

Lemma newGroup_keeps_elements : forall (els : list (Datum TokenType)) g,
  newGroup els = Some g -> elements g = els.
Proof.
  intros els g H. unfold newGroup in H.
  destruct (hd_error els); [| discriminate].
  destruct (last (map Some els) None); [| discriminate].
  destruct (firstTokenOf d); [| discriminate].
  destruct (lastTokenOf d0); [| discriminate].
  injection H as <-. reflexivity.
Qed.

(** The group [Group.build] returns nests one level more than the
    elements it is given, at most. *)
Lemma build_depth : forall (els : list (Datum TokenType)) g n,
  Group_build els = inr g ->
  Forall (fun d => depth d <= n) els ->
  depth (DGroup g) <= S n.
Proof.
  intros els g n H Hels.
  assert (Hc : forall r, construct els = inr r -> depth (DGroup r) <= S n).
  { intros r Hr. unfold construct in Hr.
    destruct (newGroup els) as [g0|] eqn:E; [| discriminate Hr].
    injection Hr as <-. apply newGroup_keeps_elements in E.
    destruct g0 as [els0 loc]. cbn [elements] in E. subst els0.
    rewrite depth_group. apply le_n_S, list_max_bound.
    apply Forall_map. exact Hels. }
  unfold Group_build in H.
  destruct els as [|d [|d' rest]]; [discriminate H | |].
  - destruct d as [t|g0].
    + destruct (isDataType t); [auto | discriminate H].
    + injection H as <-. inversion Hels; subst. lia.
  - cbv zeta in H.
    repeat match type of H with
           | match ?x with _ => _ end = _ => destruct x
           | (if ?b then _ else _) = _ => destruct b
           end;
      try discriminate H; auto.
Qed.

Local Abbreviation ends Q r :=
  (match r with
   | Ok a s => Q a s
   | Throw _ _ => True
   | OutOfFuel => False
   end).

Lemma ends_bind : forall {A B} (Q : A -> SchemeParser -> Prop)
    (R : B -> SchemeParser -> Prop) (m : P A) (k : A -> P B) p,
  ends Q (m p) ->
  (forall a s, Q a s -> ends R (k a s)) ->
  ends R (bind m k p).
Proof.
  intros A B Q R m k p Hm Hk. unfold bind.
  destruct (m p) as [a s| |]; [apply Hk, Hm | exact I | exact Hm].
Qed.

Lemma consumed_trans : forall p1 p2 p3,
  consumed p1 p2 -> consumed p2 p3 -> consumed p1 p3.
Proof.
  intros p1 p2 p3 (S1 & T1 & C1 & Q1 & L1 & U1) (S2 & T2 & C2 & Q2 & L2 & U2).
  unfold consumed. rewrite S2, T2, C2, Q2, S1, C1, Q1. rewrite T1 in U2.
  repeat split; auto; lia.
Qed.

Lemma shallow_later : forall c0 p p' d,
  current p <= current p' -> shallow c0 p d -> shallow c0 p' d.
Proof. intros c0 p p' d H Hd. unfold shallow in *. lia. Qed.

Lemma affect_ends : forall a d q,
  ends (fun g s => s = q /\ Group_build [DToken a; d] = inr g)
    (affect a d q).
Proof.
  intros a d q. unfold affect, liftBuild.
  destruct (Group_build [DToken a; d]); [exact I | split; reflexivity].
Qed.

Section Grouping.
Variable toks : list Tok.
Hypothesis toks_end : endsWithEOF toks = true.

Local Abbreviation inside p :=
  (tokens p = toks /\ current p < List.length toks).

Local Abbreviation left p := (List.length toks - current p).

(** What holds of a loop of [grouping] that has returned. *)
Local Abbreviation looped c0 p :=
  (fun (els' : list Dat) p' =>
     consumed p p' /\ Forall (shallow c0 p') els').

(** What holds of a call of [grouping] that has returned. *)
Local Abbreviation grouped c0 p :=
  (fun (o : option Grp) p' =>
     consumed p p' /\
     forall g, o = Some g -> depth (DGroup g) <= S (2 * (current p' - c0))).

Lemma grouping_finish_ends : forall c0 p0 els p,
  consumed p0 p -> Forall (shallow c0 p) els ->
  ends (grouped c0 p0) (grouping_finish els p).
Proof.
  intros c0 p0 els p Hc Hels. unfold grouping_finish.
  destruct els as [|d rest]; [cbn; split; [exact Hc | discriminate] |].
  unfold bind, liftBuild.
  destruct (Group_build (d :: rest)) as [e|g] eqn:E; cbn; [exact I |].
  split; [exact Hc |]. intros g' Eg. injection Eg as <-.
  eapply build_depth; [exact E |].
  eapply Forall_impl; [| exact Hels]. intros x Hx. exact Hx.
Qed.

Lemma step_consumed : forall p t,
  inside p ->
  nth_error (tokens p) (current p) = Some t -> type t <> EOF ->
  let p1 := {| source := source p; tokens := tokens p;
               chapter := chapter p; current := S (current p);
               quoteMode := quoteMode p |} in
  consumed p p1 /\ inside p1.
Proof.
  intros p t [Ht Hc] Hn Hne p1.
  pose proof (not_EOF_not_last (tokens p) (current p) t) as H.
  rewrite Ht in *. specialize (H toks_end Hn Hne).
  unfold consumed. cbn. rewrite Ht. repeat split; auto; lia.
Qed.

Lemma consumed_inside : forall p p', inside p -> consumed p p' -> inside p'.
Proof.
  intros p p' [Ht Hc] (_ & T & _ & _ & _ & U). rewrite T, Ht in *. auto.
Qed.

Lemma grouping_loop_ends : forall fuel els inList p c0,
  inside p -> left p < fuel -> c0 <= current p ->
  Forall (shallow c0 p) els ->
  ends (looped c0 p) (grouping_loop fuel els inList p).
Proof.
  induction fuel as [|fuel IH]; intros els inList p c0 Hin Hf Hc0 Hels;
    [lia |].
  cbn [grouping_loop].
  destruct (advance_inside p) as (t & Hn & Ha);
    [rewrite (proj1 Hin); apply Hin |].
  unfold bind at 1. rewrite Ha.
  set (p1 := {| source := source p; tokens := tokens p;
                chapter := chapter p; current := S (current p);
                quoteMode := quoteMode p |}).
  assert (Hless : forall q, consumed p q -> left q < fuel).
  { intros q (_ & _ & _ & _ & L & U).
    destruct Hin as [Tp _]. rewrite Tp in U. lia. }
  (* the nested calls of [grouping] *)
  assert (Hg : forall q o,
    inside q -> left q < fuel ->
    ends (grouped (current q) q)
      (match o with
       | Some o' =>
           r <- grouping_loop fuel [DToken o'] true ;; grouping_finish r
       | None => r <- grouping_loop fuel [] false ;; grouping_finish r
       end q)).
  { intros q o Hq Hfq.
    destruct o as [o'|];
      (eapply (ends_bind (looped (current q) q));
       [apply (IH _ _ q (current q) Hq Hfq (le_n _)) |
        cbn beta; intros r q' [Hcons Hr];
        apply grouping_finish_ends; assumption]).
    - constructor; [unfold shallow; cbn; lia | constructor].
    - constructor. }
  (* the loop [do ... while (!nextGrouping)] *)
  assert (Hu : forall n q,
    inside q -> left q < n -> left q < fuel ->
    ends (fun g q' => consumed q q' /\
                      depth (DGroup g) <= S (2 * (current q' - current q)))
      (untilSome n
         (r <- grouping_loop fuel [] false ;; grouping_finish r) q)).
  { induction n as [|n IHn]; intros q Hq Hn1 Hn2; [lia |].
    cbn [untilSome].
    eapply (ends_bind (grouped (current q) q));
      [apply (Hg q None Hq Hn2) |].
    cbn beta. intros [g|] q' [Hcons Hd].
    - cbn. split; [exact Hcons | apply Hd; reflexivity].
    - pose proof (consumed_inside _ _ Hq Hcons) as Hq'.
      pose proof Hcons as (_ & _ & _ & _ & L & U).
      assert (Hl : left q' < left q)
        by (destruct Hq as [Tq _]; rewrite Tq in U; lia).
      specialize (IHn q' Hq' ltac:(lia) ltac:(lia)).
      destruct (untilSome n _ q') as [g q''| |]; [| exact I | exact IHn].
      cbn beta in IHn. destruct IHn as [Hcons' Hd'].
      split; [eapply consumed_trans; eauto |].
      pose proof Hcons' as (_ & _ & _ & _ & L' & _). lia. }
  (* after one datum *)
  assert (Hk : forall els' (b : bool) q,
    consumed p q -> Forall (shallow c0 q) els' ->
    ends (looped c0 p)
      ((if b then grouping_loop fuel els' b else ret els') q)).
  { intros els' b q Hcons Hels'.
    pose proof (consumed_inside _ _ Hin Hcons) as Hq.
    pose proof Hcons as (_ & _ & _ & _ & L & _).
    destruct b; [| cbn; auto].
    pose proof (IH els' true q c0 Hq (Hless q Hcons) ltac:(lia) Hels') as H.
    destruct (grouping_loop fuel els' true q) as [r q'| |];
      [| exact I | exact H].
    cbn beta in H. destruct H as [Hcons' Hr].
    split; [eapply consumed_trans; eauto | exact Hr]. }
  assert (Hold : forall q, consumed p q -> Forall (shallow c0 q) els).
  { intros q (_ & _ & _ & _ & L & _).
    eapply Forall_impl; [| exact Hels].
    intros d. apply shallow_later. lia. }
  assert (Hsnoc : forall q d,
    consumed p q -> shallow c0 q d -> Forall (shallow c0 q) (els ++ [d])).
  { intros q d Hq Hd. apply Forall_app. split; [apply Hold, Hq |].
    constructor; [exact Hd | constructor]. }
  assert (Hnext : type t <> EOF -> consumed p p1 /\ inside p1).
  { intros Hne. exact (step_consumed p t Hin Hn Hne). }
  assert (Hplain : type t <> EOF ->
    ends (looped c0 p)
      ((if inList then grouping_loop fuel (els ++ [DToken t]) inList
        else ret (els ++ [DToken t])) p1)).
  { intros Hne. destruct (Hnext Hne) as [Hp1 _].
    apply Hk; [exact Hp1 | apply Hsnoc; [exact Hp1 |]].
    unfold shallow. cbn. lia. }
  assert (Hclose : type t <> EOF ->
    ends (looped c0 p)
      ((if negb inList
        then throw (UnexpectedFormError (Some (pos t)) (DToken t))
        else ret (els ++ [DToken t])) p1)).
  { intros Hne. destruct (Hnext Hne) as [Hp1 _].
    destruct (negb inList); [exact I |].
    apply (Hk _ false); [exact Hp1 | apply Hsnoc; [exact Hp1 |]].
    unfold shallow. cbn. lia. }
  assert (Hopen : type t <> EOF ->
    ends (looped c0 p)
      ((innerGroup <-
          (r <- grouping_loop fuel [DToken t] true ;; grouping_finish r) ;;
        match innerGroup with
        | Some g =>
            (if inList then grouping_loop fuel (els ++ [DGroup g]) inList
             else ret (els ++ [DGroup g]))
        | None => throw JsTypeError
        end) p1)).
  { intros Hne. destruct (Hnext Hne) as [Hp1 Hin1].
    eapply (ends_bind (grouped (current p1) p1));
      [apply (Hg p1 (Some t) Hin1 (Hless p1 Hp1)) |].
    cbn beta. intros o q' [Hcons Hd]. destruct o as [g|]; [| exact I].
    pose proof (consumed_trans _ _ _ Hp1 Hcons) as Hq'.
    apply Hk; [exact Hq' | apply Hsnoc; [exact Hq' |]].
    unfold shallow. specialize (Hd g eq_refl).
    pose proof Hcons as (_ & _ & _ & _ & L & _). cbn [p1 current] in *. lia. }
  assert (Haffect : type t <> EOF -> isShortAffector t = true ->
    ends (looped c0 p)
      ((nextGrouping <-
          untilSome fuel
            (r <- grouping_loop fuel [] false ;; grouping_finish r) ;;
        g <- affect t (DGroup nextGrouping) ;;
        (if inList then grouping_loop fuel (els ++ [DGroup g]) inList
         else ret (els ++ [DGroup g]))) p1)).
  { intros Hne Hsa. destruct (Hnext Hne) as [Hp1 Hin1].
    eapply (ends_bind
              (fun g q' => consumed p1 q' /\
                 depth (DGroup g) <= S (2 * (current q' - current p1))));
      [apply (Hu fuel p1 Hin1 (Hless p1 Hp1) (Hless p1 Hp1)) |].
    cbn beta. intros ng q' [Hcons Hd].
    pose proof (consumed_trans _ _ _ Hp1 Hcons) as Hq'.
    eapply (ends_bind
              (fun g s => s = q' /\
                 Group_build [DToken t; DGroup ng] = inr g)).
    { apply affect_ends. }
    cbn beta. intros g s [-> Eb].
    apply Hk; [exact Hq' | apply Hsnoc; [exact Hq' |]].
    unfold shallow.
    pose proof (build_depth _ g (S (2 * (current q' - current p1))) Eb) as Hb.
    pose proof Hcons as (_ & _ & _ & _ & L & _). cbn [p1 current] in *.
    assert (depth (DGroup g) <= S (S (2 * (current q' - S (current p)))));
      [| lia].
    apply Hb. constructor; [cbn; lia |]. constructor; [exact Hd | constructor]. }
  assert (Hskip : type t <> EOF ->
    ends (looped c0 p)
      ((_ <- untilSome fuel
               (r <- grouping_loop fuel [] false ;; grouping_finish r) ;;
        (if inList then grouping_loop fuel els inList else ret els)) p1)).
  { intros Hne. destruct (Hnext Hne) as [Hp1 Hin1].
    eapply (ends_bind
              (fun g q' => consumed p1 q' /\
                 depth (DGroup g) <= S (2 * (current q' - current p1))));
      [apply (Hu fuel p1 Hin1 (Hless p1 Hp1) (Hless p1 Hp1)) |].
    cbn beta. intros ng q' [Hcons _].
    pose proof (consumed_trans _ _ _ Hp1 Hcons) as Hq'.
    apply Hk; [exact Hq' | apply Hold, Hq']. }
  destruct (type t) eqn:Et;
    first [ exact I
          | apply Hplain; discriminate
          | apply Hclose; discriminate
          | apply Hopen; discriminate
          | apply Hskip; discriminate
          | apply Haffect;
            [discriminate | unfold isShortAffector; rewrite Et; reflexivity] ].
Qed.

Lemma grouping_ends : forall fuel p,
  inside p -> left p < fuel ->
  ends (grouped (current p) p) (grouping fuel None p).
Proof.
  intros fuel p Hin Hf. unfold grouping.
  eapply (ends_bind (looped (current p) p));
    [apply (grouping_loop_ends fuel [] false p (current p) Hin Hf (le_n _));
     constructor |].
  cbn beta. intros r q [Hcons Hr]. apply grouping_finish_ends; assumption.
Qed.

Lemma parse_loop_ends : forall fuel top p,
  inside p -> 2 * List.length toks + left p < fuel ->
  parse_loop fuel top p <> OutOfFuel.
Proof.
  induction fuel as [|fuel IH]; intros top p Hin Hf; [lia |].
  rewrite parse_loop_step.
  destruct (isAtEnd p); [discriminate |].
  destruct (peek p) as [t|]; [| discriminate].
  assert (Hrest :
    (currentElement <- grouping fuel None ;;
     match currentElement with
     | None => parse_loop fuel top
     | Some g =>
         convertedElement <- parseExpression fuel (DGroup g) ;;
         parse_loop fuel (top ++ [convertedElement])
     end) p <> OutOfFuel).
  { pose proof (grouping_ends fuel p Hin ltac:(lia)) as Hg.
    unfold bind at 1.
    destruct (grouping fuel None p) as [o q| |]; [| discriminate | contradiction].
    cbn beta in Hg. destruct Hg as [Hcons Hd].
    pose proof (consumed_inside _ _ Hin Hcons) as Hq.
    pose proof Hcons as (_ & _ & _ & _ & L & U).
    destruct Hin as [Tp Hc]. rewrite Tp in U.
    destruct o as [g|]; [| apply IH; [exact Hq | lia]].
    specialize (Hd g eq_refl).
    pose proof (parseExpression_enough_fuel fuel (DGroup g) q ltac:(lia)) as He.
    pose proof (keeps_parseExpression fuel (DGroup g) q) as Hkeep.
    unfold bind.
    destruct (parseExpression fuel (DGroup g) q) as [e q'| |];
      [| discriminate | contradiction].
    subst q'. apply IH; [exact Hq | lia]. }
  destruct (type t); try exact Hrest. discriminate.
Qed.

End Grouping.

Lemma grouping_loop_diverges : forall fuel src o ch els,
  type o = LEFT_PAREN ->
  grouping_loop fuel els true (mkSchemeParser src [o] ch 1 NONE) = OutOfFuel.
Proof.
  induction fuel as [|fuel IH]; intros src o ch els Ho; [reflexivity |].
  cbn [grouping_loop]. unfold bind at 1. unfold advance.
  cbn [isAtEnd tokens current List.length Nat.leb nth_error].
  rewrite Ho. unfold bind at 1. unfold bind at 1.
  rewrite (IH src o ch [DToken o] Ho). reflexivity.
Qed.

(** [parse()] ends on every token array that ends with the [EOF] token:
    a fuel above three times the number of tokens is never used up.  The
    [EOF] token is what stops it: on the array of one opening
    parenthesis alone no fuel is enough. *)
Theorem parse_terminates :
  (forall fuel src toks ch,
     endsWithEOF toks = true ->
     3 * List.length toks < fuel ->
     parse fuel (newSchemeParser src toks ch) <> OutOfFuel) /\
  (forall fuel src o ch,
     type o = LEFT_PAREN ->
     parse fuel (newSchemeParser src [o] ch) = OutOfFuel).
Proof.
  split.
  - intros fuel src toks ch He Hf. unfold parse.
    destruct (endsWithEOF_last toks He) as (pre & eof & E & _).
    assert (Hlen : 0 < List.length toks)
      by (rewrite E, length_app; cbn; lia).
    apply (parse_loop_ends toks He); [split; [reflexivity | exact Hlen] |].
    cbn [current newSchemeParser]. lia.
  - intros fuel src o ch Ho. unfold parse.
    destruct fuel as [|fuel]; [reflexivity |].
    rewrite parse_loop_step.
    cbn [isAtEnd peek newSchemeParser tokens current List.length Nat.leb
         nth_error].
    assert (Hgo :
      (currentElement <- grouping fuel None ;;
       match currentElement with
       | None => parse_loop fuel []
       | Some g =>
           convertedElement <- parseExpression fuel (DGroup g) ;;
           parse_loop fuel ([] ++ [convertedElement])
       end) (newSchemeParser src [o] ch) = OutOfFuel).
    { unfold bind at 1. unfold grouping. unfold bind at 1.
      destruct fuel as [|fuel]; [reflexivity |].
      cbn [grouping_loop]. unfold bind at 1. unfold advance.
      cbn [isAtEnd newSchemeParser tokens current List.length Nat.leb
           nth_error].
      rewrite Ho. unfold bind at 1. unfold bind at 1.
      rewrite (grouping_loop_diverges fuel src o _ [DToken o] Ho).
      reflexivity. }
    rewrite Ho. exact Hgo.
Qed.

Local Open Scope string_scope.

Lemma parse_terminates_witness :
  parse 34 (newSchemeParser "(let ((x 1)) x)" letTokens None) <> OutOfFuel /\
  parse 9 (newSchemeParser "(" [tk LEFT_PAREN "(" LNull 0] None) = OutOfFuel.
Proof.
  split.
  - apply (proj1 parse_terminates 34 "(let ((x 1)) x)" letTokens None);
      [reflexivity | cbn; lia].
  - apply (proj2 parse_terminates 9 "(" (tk LEFT_PAREN "(" LNull 0) None).
    reflexivity.
Defined.

End TerminationFacts.

(** ** Source spans *)

Module SpanFacts.
Import Parser ParserSpec ParserFacts ParserLaws.
Local Open Scope string_scope.




End SpanFacts.
